(** * brickify: grid sizing, artwork scaling and the paint pipeline

    A shallow embedding of [dist/jquery.brickify.js].

    - JavaScript numbers are IEEE 754 doubles.  The functions whose result
      depends on how a product or a quotient is rounded, or on how a
      number is printed, are given on doubles in the module [Ieee]: the
      grid sizer for any ratio and thresholds, the scaler, the sizes
      stored by [init] and the artwork builders.
    - The properties that do not depend on rounding are stated on exact
      rationals ([Q]): those of integer arithmetic (widths and heights, the
      default table, remainders and stage sizes), of order, which rounding
      preserves, and of the control flow.  There, values that the code can
      turn into [NaN] or an infinity (a remainder or quotient by zero) are
      [option Q], [None] standing for "not a finite number".
    - A call that throws a [TypeError] (a property read on [undefined]) is
      [Throw].
    - An image element's [width] and [height] are DOM [unsigned long]
      attributes, modelled by [Z] with the range predicate
      [unsigned_long].
    - The plugin is callback driven.  A [World] holds the instance, the
      page's busy flag, the callbacks handed to the image processor, the
      effects engine and the timer, and the trace of what has been done;
      the environment moves by running one of the callbacks it was given
      ([fire]).  In a trace the two data URLs of the brick artwork are the
      constructors [ShadowDataURL] and [HighlightDataURL]; the shapes
      behind them are built in [Ieee].
    - Several images on one page share the busy flag.  A [Site] holds the
      flag and the instances; it moves when an instance calls [init], for
      the first time or from the timer of a deferred call, and when the
      environment runs a callback of one of the instances ([step]). *)

From Stdlib Require Import String.
From Stdlib Require Import ZArith Zpow_facts QArith Qround Qabs Qpower List Sorted Bool Lia Lqa.
From Stdlib Require Import SpecFloat.
Import ListNotations.

Local Open Scope Q_scope.

(** ** Numbers *)

Module Js.

(** [a < b] on numbers, as a boolean. *)
Definition Qlt_bool (a b : Q) : bool := negb (Qle_bool b a).

(** Outcome of a call: a value, or a thrown [TypeError]. *)
Inductive completion (A : Type) : Type :=
| Normal (v : A)
| Throw.
Arguments Normal {A} v.
Arguments Throw {A}.

(** The DOM [unsigned long] range of [HTMLImageElement.width]. *)
Definition unsigned_long (w : Z) : Prop := (0 <= w < 2 ^ 32)%Z.

(** Leading significant digit of [a], for [0 < a < 1]: scale by ten until
    the value reaches one.  The fuel is the bit length of the denominator,
    which bounds its number of decimal digits. *)
Fixpoint lead_small (fuel : nat) (a : Q) : Z :=
  match fuel with
  | O => Qfloor a
  | S f => let a' := a * 10 in
           if Qle_bool 1 a' then Qfloor a' else lead_small f a'
  end.

(** Leading significant digit of [a], for [10 <= a]: divide by ten until
    the value drops below ten.  The fuel is the bit length of the
    numerator. *)
Fixpoint lead_large (fuel : nat) (a : Q) : Z :=
  match fuel with
  | O => Qfloor a
  | S f => let a' := a / 10 in
           if Qlt_bool a' 10 then Qfloor a' else lead_large f a'
  end.

(** Ten to the [f], used to state how far the fuel reaches. *)
Definition pow10 (f : nat) : Q := inject_Z (10 ^ Z.of_nat f).

Definition leading_digit (a : Q) : Z :=
  if Qlt_bool a 1 then lead_small (Pos.size_nat (Qden a)) a
  else if Qlt_bool a 10 then Qfloor a
  else lead_large (Z.to_nat (Z.log2 (Qnum a) + 1)) a.

(** Integer part of [x]: rounding toward zero. *)
Definition trunc (x : Q) : Z :=
  if Qlt_bool x 0 then Qceiling x else Qfloor x.

(** Numbers that [Number.prototype.toString] prints without an exponent:
    zero, and magnitudes in [[1e-6, 1e21)]. *)
Definition prints_decimal (x : Q) : Prop :=
  x == 0 \/ (1 # 10 ^ 6) <= Qabs x < 10 ^ 21.

(** [parseInt(x, 10)] applied to a number: the number is printed and the
    longest prefix that is a decimal integer is read back.  A decimal
    rendering gives the integer part (truncation toward zero); an exponent
    rendering such as [5e-7] or [1.2e+21] gives the leading digit only.
    ([-0] is identified with [0].)  This is [parseInt] on a number given
    exactly; on the double of a rounded product it is [Ieee.parseInt]. *)
Definition parseInt (x : Q) : Z :=
  let a := Qabs x in
  if Qeq_bool x 0 then 0%Z
  else if Qlt_bool a (1 # 10 ^ 6) || Qle_bool (10 ^ 21) a
       then if Qlt_bool x 0 then (- leading_digit a)%Z else leading_digit a
       else trunc x.

(** [Math.round]: nearest integer, ties toward positive infinity. *)
Definition Math_round (x : Q) : Q := inject_Z (Qfloor (x + (1 # 2))).

(** [x % y]: remainder of the truncated division, [NaN] when [y] is 0. *)
Definition rem (x y : Q) : option Q :=
  if Qeq_bool y 0 then None
  else Some (x - y * inject_Z (trunc (x / y))).

(** [x / y]: not finite when [y] is 0. *)
Definition div (x y : Q) : option Q :=
  if Qeq_bool y 0 then None else Some (x / y).

(** [x - y] where [y] may be [NaN]. *)
Definition sub (x : Q) (y : option Q) : option Q :=
  match y with Some v => Some (x - v) | None => None end.

(** [x <= y] where [x] may be [NaN] (every comparison with [NaN] is
    false). *)
Definition le (x : option Q) (y : Q) : bool :=
  match x with Some v => Qle_bool v y | None => false end.

End Js.
Import Js.

(** ** Settings *)

Record Threshold : Type := {
  maxImageWidth : Q;
  minBrickSize : option Q;   (* [None]: the property is undefined *)
  maxBrickSize : option Q
}.

Record Settings : Type := {
  s_originalBricksize : Q;
  s_ratio : Q;
  s_thresholds : list Threshold
}.

Definition defaults : Settings := {|
  s_originalBricksize := 73;
  s_ratio := 1 / 40;
  s_thresholds :=
    [ {| maxImageWidth := 300; minBrickSize := Some 7; maxBrickSize := Some 15 |};
      {| maxImageWidth := 1200; minBrickSize := Some 15; maxBrickSize := Some 26 |};
      {| maxImageWidth := 1600; minBrickSize := None; maxBrickSize := Some 36 |} ]
|}.

(** The caller's options: any subset of the recognised settings. *)
Record Options : Type := {
  o_originalBricksize : option Q;
  o_ratio : option Q;
  o_thresholds : option (list Threshold)
}.

Definition no_options : Options :=
  {| o_originalBricksize := None; o_ratio := None; o_thresholds := None |}.

(** [$.extend({}, defaults, options)]: a shallow merge, the options'
    defined properties overriding the defaults. *)
Definition extend (d : Settings) (o : Options) : Settings := {|
  s_originalBricksize :=
    match o_originalBricksize o with Some v => v | None => s_originalBricksize d end;
  s_ratio := match o_ratio o with Some v => v | None => s_ratio d end;
  s_thresholds :=
    match o_thresholds o with Some v => v | None => s_thresholds d end
|}.

(** ** Grid sizer *)

(** State of the [$(thresholds).each] loop of [_getGridSize]. *)
Record scan : Type := {
  hasThresholdMatch : bool;
  threshold : option Threshold    (* [None]: still undefined *)
}.

Definition scan_start : scan :=
  {| hasThresholdMatch := false; threshold := None |}.

(** Body of the [each] callback, [this] being the current entry. *)
Definition scan_body (imageWidth : Z) (st : scan) (this : Threshold) : scan :=
  if negb (hasThresholdMatch st)
     && Qle_bool (inject_Z imageWidth) (maxImageWidth this)
  then {| hasThresholdMatch := true; threshold := Some this |}
  else st.

(** The threshold retained once the loop and the fallback assignment
    [threshold = thresholds[thresholds.length-1]] have run.  On an empty
    array the index is -1 and the read yields [undefined]. *)
Definition selected_threshold (imageWidth : Z) (thresholds : list Threshold)
  : option Threshold :=
  let st := fold_left (scan_body imageWidth) thresholds scan_start in
  if negb (hasThresholdMatch st)
  then match thresholds with
       | [] => None
       | _ => nth_error thresholds (length thresholds - 1)
       end
  else threshold st.

(** The clamping [if / else if] of [_getGridSize]. *)
Definition clamp (th : Threshold) (gridSize : Q) : Q :=
  let otherwise :=
    match minBrickSize th with
    | Some mn => if Qlt_bool gridSize mn then mn else gridSize
    | None => gridSize
    end in
  match maxBrickSize th with
  | Some mx => if Qlt_bool mx gridSize then mx else otherwise
  | None => otherwise
  end.

(** [_getGridSize], reading [self.element.width], [self.ratio] and
    [self.thresholds], with the product taken exactly; with the rounded
    product it is [Ieee._getGridSize]. *)
Definition _getGridSize (imageWidth : Z) (ratio : Q)
    (thresholds : list Threshold) : completion Q :=
  let gridSize := inject_Z (parseInt (inject_Z imageWidth * ratio)) in
  match selected_threshold imageWidth thresholds with
  | None => Throw                 (* [threshold.maxBrickSize] on undefined *)
  | Some th => Normal (clamp th gridSize)
  end.

(** *** The grid sizer as the specification words it *)

(** First threshold whose [maxImageWidth >= w], else the last one. *)
Definition spec_select (w : Z) (ths : list Threshold) : option Threshold :=
  match find (fun t => Qle_bool (inject_Z w) (maxImageWidth t)) ths with
  | Some t => Some t
  | None => match ths with [] => None | t :: ts => Some (last ts t) end
  end.

(** Max clamp first; the min clamp is tried only when the max clamp did
    not apply. *)
Definition spec_clamp (t : Threshold) (raw : Q) : Q :=
  match maxBrickSize t, minBrickSize t with
  | Some mx, Some mn =>
      if Qlt_bool mx raw then mx else if Qlt_bool raw mn then mn else raw
  | Some mx, None => if Qlt_bool mx raw then mx else raw
  | None, Some mn => if Qlt_bool raw mn then mn else raw
  | None, None => raw
  end.

(** The specified grid size for a given raw size. *)
Definition spec_gridSize_of (raw : Z) (w : Z) (ths : list Threshold) : option Q :=
  option_map (fun t => spec_clamp t (inject_Z raw)) (spec_select w ths).


(** ** The plugin instance *)


Record Element : Type := {
  width : Z;
  height : Z;
  src : string
}.

(** The "broken image" icon of [_onImageError]. *)
Definition broken_image_icon : string :=
  "data:image/gif;base64,R0lGODlhIQAiAMT/AJkQZ/9rzYplzrqZ/3Zmm9vN/zplZgD9myWaZfT/zPHPmcCcZf///83Nzby8vKysrJqamomJiXh4eFRUVAAAAAAAAAAAAAAAAAAAAAAAAAAAAAAAAAAAAAAAAAAAAAAAACwAAAAAIQAiAAAF/yAjjmRpnqakrmzrrigjxfSoonNNS01e5o6gcEgkznopURGyKg5zSBLwKUEgBhSK0+GLiqbByCxhkBi0Th/DC+YiFoqq4Zwucb9KoTzyOMzRRFmCgngMTwNmc2eARBOOjxSFQxAUBgh/FBMRWxGdnZEyeUJZi1kTEltCIqBtYYKPm6kOq5JFYrCyQQyatUtinS8SWiKOEZKoWxB3BcwCBQKZu50Px4xFEszPzwQjvDZKM9ZPzc8CxMVS4Ktb2M7m59PphjMBDOJczeea1D/qAfXifMDicwIIvQAA7OkqUYxgCVb+EALUB4ufCYjzGEiUuEuTpwcWLx5jAKAkCW80ZjvZO4ZwQkdYOlRidDBI2rSQJxbOdPBImg5DqlaGAqoSXQ0itIZ284jzp1A1xZo6FTook0MaVbNO3ToiBAA7"%string.

(** The instance ([self]) once [init] has stored the settings and the
    derived sizes. *)
Record Plugin : Type := {
  element : Element;
  settings : Settings;
  originalBricksize : Q;
  ratio : Q;
  thresholds : list Threshold;
  gridSize : Q;
  brickRatio : option Q;
  stageWidth : option Q;
  stageHeight : option Q
}.

(** ** Shape scaler *)

(** [_getScaledValue]: [thresholds[0].maxImageWidth] throws on an empty
    threshold array.  The product is taken exactly; with the rounded
    product it is [Ieee._getScaledValue]. *)
Definition _getScaledValue (self : Plugin) (value : Q) : completion (option Q) :=
  let newVal := option_map (Qmult value) (brickRatio self) in
  match thresholds self with
  | [] => Throw
  | first :: _ =>
      Normal (if Js.le (stageWidth self) (maxImageWidth first)
              then option_map Math_round newVal
              else newVal)
  end.

(** ** The page, the callbacks and the paint pipeline *)

(** Callbacks the plugin hands to its collaborators; each is run by the
    environment (the image processor, the effects engine, a timer, the
    scratch image) and never by the plugin itself. *)
Inductive callback : Type :=
| onLoad                  (* [_process.bind(self)] *)
| onLoadError             (* [_onImageError.bind(self)] *)
| onEffectError           (* [_onEffectError.bind(self)] *)
| removenoise_callback    (* callback of [applyEffect("removenoise", ...)] *)
| mosaic_timeout          (* closure given to [setTimeout(..., 100)] *)
| mosaic_callback         (* [_paintBrickPattern.bind(self)] *)
| scratch_load.           (* "load" event of [$scratchImageEl] *)

Definition callback_eq_dec (a b : callback) : {a = b} + {a <> b}.
Proof. decide equality. Defined.

(** Data URLs assigned to the scratch image's [src]. *)
Inductive payload : Type :=
| ShadowDataURL           (* [_getShadowDataURL.call(self)] *)
| HighlightDataURL        (* [_getHighlightDataURL.call(self)] *)
| StageDataURL.           (* [self.imgProc.stage.toDataURL()] *)

(** What an observer of the page sees, in order of occurrence. *)
Inductive action : Type :=
| Fired (c : callback)                          (* the environment runs [c] *)
| imageProcessor (blockSize : Q) (stageW stageH : option Q)
| applyEffect (name : string)
| setTimeout (ms : Z)
| stage_addChild                                (* mosaic bitmap put on the stage *)
| on_load
| off_load
| attr_src (p : payload)
| fillRect (operation : string) (w h : option Q)
| scratch_addChild
| buildGrid (size : Q) (color : string) (alpha : Q)
| moveOnscreen
| destroy
| trigger (name : string).

Record World : Type := {
  self : Plugin;
  processing : option bool;      (* [$("body").data("lego-yourself:processing")] *)
  pending : list callback;       (* handed out and not yet run *)
  load_handler : option string;  (* the bound "load" handler, by the value of
                                    its closure variable [operation] *)
  loading : nat;                 (* [src] assignments whose "load" is still to come *)
  trace : list action
}.

Definition set_self (p : Plugin) (w : World) : World :=
  {| self := p; processing := processing w; pending := pending w;
     load_handler := load_handler w; loading := loading w; trace := trace w |}.

Definition set_processing (v : option bool) (w : World) : World :=
  {| self := self w; processing := v; pending := pending w;
     load_handler := load_handler w; loading := loading w; trace := trace w |}.

Definition set_pending (l : list callback) (w : World) : World :=
  {| self := self w; processing := processing w; pending := l;
     load_handler := load_handler w; loading := loading w; trace := trace w |}.

Definition set_load_handler (h : option string) (w : World) : World :=
  {| self := self w; processing := processing w; pending := pending w;
     load_handler := h; loading := loading w; trace := trace w |}.

Definition set_loading (n : nat) (w : World) : World :=
  {| self := self w; processing := processing w; pending := pending w;
     load_handler := load_handler w; loading := n; trace := trace w |}.

Definition emit (acts : list action) (w : World) : World :=
  {| self := self w; processing := processing w; pending := pending w;
     load_handler := load_handler w; loading := loading w;
     trace := trace w ++ acts |}.

Definition hand_out (c : callback) (w : World) : World :=
  set_pending (c :: pending w) w.

(** [$scratchImageEl.attr("src", p)]: a "load" event will follow. *)
Definition scratch_attr_src (p : payload) (w : World) : World :=
  set_loading (S (loading w)) (emit [attr_src p] w).

(** [_isProcessing]: the stored value, [undefined] when never set. *)
Definition _isProcessing (w : World) : option bool := processing w.

Definition truthy (v : option bool) : bool :=
  match v with Some true => true | _ => false end.

Definition _setProcessing (val : bool) (w : World) : World :=
  set_processing (Some val) w.

(** [_onImageError] *)
Definition _onImageError (w : World) : World :=
  set_self
    {| element := {| width := 34; height := 34; src := broken_image_icon |};
       settings := settings (self w);
       originalBricksize := originalBricksize (self w);
       ratio := ratio (self w);
       thresholds := thresholds (self w);
       gridSize := gridSize (self w);
       brickRatio := brickRatio (self w);
       stageWidth := stageWidth (self w);
       stageHeight := stageHeight (self w) |} w.

(** [_onEffectError] *)
Definition _onEffectError (w : World) : World := _setProcessing false w.

(** [_process] *)
Definition _process (w : World) : World :=
  hand_out removenoise_callback (emit [applyEffect "removenoise"] w).

(** The callback given to the noise removal: it only arms the timer. *)
Definition removenoise_done (w : World) : World :=
  hand_out mosaic_timeout (emit [setTimeout 100] w).

(** The timer's closure. *)
Definition mosaic_start (w : World) : World :=
  hand_out mosaic_callback (emit [applyEffect "mosaic"] w).

(** [_paintBrickPattern]: binds the "load" handler, its [operation] being
    "multiply", then loads the shadow artwork. *)
Definition _paintBrickPattern (w : World) : World :=
  scratch_attr_src ShadowDataURL
    (set_load_handler (Some "multiply"%string)
       (emit [stage_addChild; on_load] w)).

(** The "load" handler bound by [_paintBrickPattern], run with its closure
    variable holding [operation]. *)
Definition scratch_onload (operation : string) (w : World) : World :=
  let w1 := emit [fillRect operation (stageWidth (self w)) (stageHeight (self w))] w in
  if String.eqb operation "multiply" then
    scratch_attr_src HighlightDataURL
      (set_load_handler (Some "lighter"%string)
         (emit [scratch_addChild;
                buildGrid (gridSize (self w)) "#c0c0c0" (1 # 2)] w1))
  else if String.eqb operation "lighter" then
    emit [trigger "image:brickified"]
      (_setProcessing false
         (emit [moveOnscreen; destroy]
            (scratch_attr_src StageDataURL
               (set_load_handler None (emit [off_load] w1)))))
  else w1.

(** What running callback [c] does. *)
Definition body (c : callback) (w : World) : World :=
  match c with
  | onLoad => _process w
  | onLoadError => _onImageError w
  | onEffectError => _onEffectError w
  | removenoise_callback => removenoise_done w
  | mosaic_timeout => mosaic_start w
  | mosaic_callback => _paintBrickPattern w
  | scratch_load =>
      match load_handler w with
      | Some operation => scratch_onload operation w
      | None => w
      end
  end.

(** One move of the environment.  A callback runs only if it was handed
    out, and once per hand-out; [onEffectError] stays registered; a "load"
    event needs an outstanding [src] assignment. *)
Definition fire (c : callback) (w : World) : option World :=
  match c with
  | scratch_load =>
      match loading w with
      | O => None
      | S n => Some (body c (set_loading n (emit [Fired c] w)))
      end
  | onEffectError =>
      if in_dec callback_eq_dec c (pending w)
      then Some (body c (emit [Fired c] w))
      else None
  | _ =>
      if in_dec callback_eq_dec c (pending w)
      then Some (body c (set_pending (remove callback_eq_dec c (pending w))
                                     (emit [Fired c] w)))
      else None
  end.

Fixpoint run (cs : list callback) (w : World) : option World :=
  match cs with
  | [] => Some w
  | c :: rest => match fire c w with
                 | Some w' => run rest w'
                 | None => None
                 end
  end.

(** How [init] ends. *)
Inductive init_outcome : Type :=
| Deferred         (* busy: [setTimeout(init, 1000)], nothing stored *)
| Threw            (* [_getGridSize] threw, the flag having been set *)
| Started (w : World).

(** [Plugin.prototype.init], on the element and the merged settings, with
    the current value of the page's flag.  A deferred [init] has armed
    the timer that calls it again: that call is a move of the page
    ([call_init] below). *)
Definition init (el : Element) (st : Settings) (flag : option bool)
  : init_outcome :=
  if truthy flag then Deferred
  else
    match _getGridSize (width el) (s_ratio st) (s_thresholds st) with
    | Throw => Threw
    | Normal g =>
        let sw := Js.sub (inject_Z (width el)) (Js.rem (inject_Z (width el)) g) in
        let sh := Js.sub (inject_Z (height el)) (Js.rem (inject_Z (height el)) g) in
        Started
          {| self := {| element := el;
                        settings := st;
                        originalBricksize := s_originalBricksize st;
                        ratio := s_ratio st;
                        thresholds := s_thresholds st;
                        gridSize := g;
                        brickRatio := Js.div g (s_originalBricksize st);
                        stageWidth := sw;
                        stageHeight := sh |};
             processing := Some true;
             pending := [onLoad; onLoadError; onEffectError];
             load_handler := None;
             loading := 0;
             trace := [imageProcessor g sw sh] |}
    end.

(** [new Plugin(element, options)] *)
Definition new_Plugin (el : Element) (options : Options) (flag : option bool)
  : init_outcome :=
  init el (extend defaults options) flag.

(** *** Reading a trace *)

Definition is_fired (c : callback) (a : action) : bool :=
  match a with Fired c' => if callback_eq_dec c c' then true else false | _ => false end.

Definition is_applyEffect (name : string) (a : action) : bool :=
  match a with applyEffect n => String.eqb n name | _ => false end.

(** A fill of the stage under blend mode [op]: the shadow pass is the
    "multiply" fill, the highlight pass the "lighter" fill. *)
Definition is_pass (op : string) (a : action) : bool :=
  match a with fillRect o _ _ => String.eqb o op | _ => false end.

Definition is_drawing (a : action) : bool :=
  match a with
  | stage_addChild | fillRect _ _ _ | scratch_addChild | buildGrid _ _ _
  | attr_src _ => true
  | _ => false
  end.

Definition is_trigger (name : string) (a : action) : bool :=
  match a with trigger n => String.eqb n name | _ => false end.

(** Every action satisfying [q] has an earlier action satisfying [p]. *)
Definition precedes (p q : action -> bool) (tr : list action) : Prop :=
  forall l1 b l2, tr = l1 ++ b :: l2 -> q b = true ->
    exists a, In a l1 /\ p a = true.


(** ** Sample inputs *)

(** The entries of the default table. *)
Definition th1 : Threshold :=
  {| maxImageWidth := 300; minBrickSize := Some 7; maxBrickSize := Some 15 |}.
Definition th2 : Threshold :=
  {| maxImageWidth := 1200; minBrickSize := Some 15; maxBrickSize := Some 26 |}.
Definition th3 : Threshold :=
  {| maxImageWidth := 1600; minBrickSize := None; maxBrickSize := Some 36 |}.

Definition el280 : Element := {| width := 280; height := 200; src := "photo.jpg" |}.
Definition el301 : Element := {| width := 301; height := 200; src := "photo.jpg" |}.

Definition el2000 : Element := {| width := 2000; height := 1500; src := "photo.jpg" |}.

(** The instance [init] builds for [el2000] under the default settings. *)
Definition self2000 : Plugin :=
  {| element := el2000; settings := defaults;
     originalBricksize := 73; ratio := 1 # 40;
     thresholds := [th1; th2; th3];
     gridSize := 36; brickRatio := Some (36 # 73);
     stageWidth := Some 1980; stageHeight := Some 1476 |}.

(** *** Reading the order of a run *)

(** Some action of the trace satisfies [p]. *)
Definition occurs (p : action -> bool) (tr : list action) : Prop :=
  existsb p tr = true.

Definition is_buildGrid (a : action) : bool :=
  match a with buildGrid _ _ _ => true | _ => false end.

(** The order of the stages in a trace: each start and each completion
    has its predecessor before it. *)
Definition pipeline_order (tr : list action) : Prop :=
  precedes (is_fired onLoad) (is_applyEffect "removenoise") tr /\
  precedes (is_applyEffect "removenoise") (is_fired removenoise_callback) tr /\
  precedes (is_fired removenoise_callback) (is_applyEffect "mosaic") tr /\
  precedes (is_applyEffect "mosaic") (is_fired mosaic_callback) tr /\
  precedes (is_fired mosaic_callback) (is_pass "multiply") tr /\
  precedes (is_pass "multiply") (is_pass "lighter") tr /\
  precedes is_buildGrid (is_pass "lighter") tr.

(** What the callbacks still to run, and the bound handler, say about the
    past. *)
Record pipeline_inv (w : World) : Prop := {
  inv_order : pipeline_order (trace w);
  inv_noise :
    In removenoise_callback (pending w) ->
    occurs (is_applyEffect "removenoise") (trace w);
  inv_timeout :
    In mosaic_timeout (pending w) ->
    occurs (is_fired removenoise_callback) (trace w);
  inv_mosaic :
    In mosaic_callback (pending w) ->
    occurs (is_applyEffect "mosaic") (trace w);
  inv_handler :
    forall op, load_handler w = Some op ->
      occurs (is_fired mosaic_callback) (trace w) /\
      (op = "multiply"%string \/
       op = "lighter"%string /\
       occurs (is_pass "multiply") (trace w) /\ occurs is_buildGrid (trace w))
}.

(** The callbacks of a run that meets no error, in the order in which the
    environment runs them. *)
Definition complete_run : list callback :=
  [onLoad; removenoise_callback; mosaic_timeout; mosaic_callback;
   scratch_load; scratch_load].

(** *** Counting the stages of a run *)

(** Number of actions of the trace satisfying [p]. *)
Definition count (p : action -> bool) (tr : list action) : nat :=
  length (filter p tr).

(** What follows the first action satisfying [p]. *)
Fixpoint tail_after (p : action -> bool) (tr : list action) : list action :=
  match tr with
  | [] => []
  | a :: rest => if p a then rest else tail_after p rest
  end.

(** The action is the environment running a callback, not something the
    plugin does. *)
Definition is_callback_run (a : action) : bool :=
  match a with Fired _ => true | _ => false end.

Definition b2n (b : bool) : nat := if b then 1%nat else 0%nat.

(** How far a run has got: 0 waiting for the image, 1 removing noise,
    2 waiting for the timer, 3 building the mosaic, 4 loading the shadow
    artwork, 5 loading the highlight artwork, 6 done.  The phase fixes
    which callback is outstanding, what the "load" handler is and how often
    each stage has been performed. *)
Record in_phase (k : nat) (w : World) : Prop := {
  ph_onLoad : In onLoad (pending w) <-> k = 0%nat;
  ph_noise : In removenoise_callback (pending w) <-> k = 1%nat;
  ph_timeout : In mosaic_timeout (pending w) <-> k = 2%nat;
  ph_mosaic : In mosaic_callback (pending w) <-> k = 3%nat;
  ph_handler :
    load_handler w =
      if Nat.eqb k 4 then Some "multiply"%string
      else if Nat.eqb k 5 then Some "lighter"%string
      else None;
  ph_n_noise : count (is_applyEffect "removenoise") (trace w) = b2n (Nat.leb 1 k);
  ph_n_mosaic : count (is_applyEffect "mosaic") (trace w) = b2n (Nat.leb 3 k);
  ph_n_shadow : count (is_pass "multiply") (trace w) = b2n (Nat.leb 5 k);
  ph_n_highlight : count (is_pass "lighter") (trace w) = b2n (Nat.leb 6 k);
  ph_n_trigger : count (is_trigger "image:brickified") (trace w) = b2n (Nat.leb 6 k);
  ph_quiet :
    forallb is_callback_run
      (tail_after (is_trigger "image:brickified") (trace w)) = true
}.

(** The action uses the sizes of instance [p]. *)
Definition uses_sizes (p : Plugin) (a : action) : Prop :=
  match a with
  | imageProcessor blockSize sw sh =>
      blockSize = gridSize p /\ sw = stageWidth p /\ sh = stageHeight p
  | fillRect _ sw sh => sw = stageWidth p /\ sh = stageHeight p
  | buildGrid size _ _ => size = gridSize p
  | _ => True
  end.

(** The sizes of instance [p] are those of the world and of its trace. *)
Definition sizes_kept (p : Plugin) (w : World) : Prop :=
  gridSize (self w) = gridSize p /\
  stageWidth (self w) = stageWidth p /\
  stageHeight (self w) = stageHeight p /\
  brickRatio (self w) = brickRatio p /\
  thresholds (self w) = thresholds p /\
  Forall (uses_sizes p) (trace w).

(** ** The jQuery entry point *)

(** The page as [$.fn.brickify] sees it: the busy flag and, per DOM node,
    what is stored under "plugin_brickify": the plugin object, given by
    how its [init] ended. *)
Record Page : Type := {
  busy : option bool;
  plugin_data : list (nat * init_outcome)
}.

(** [$.data(node, "plugin_brickify")], [None] when nothing is stored. *)
Definition data (node : nat) (pg : Page) : option init_outcome :=
  option_map snd (find (fun e => Nat.eqb (fst e) node) (plugin_data pg)).

(** The flag once [init] has ended: untouched when deferred, set when the
    run started and also when [_getGridSize] threw, since
    [_setProcessing(true)] comes first. *)
Definition flag_after (flag : option bool) (o : init_outcome) : option bool :=
  match o with
  | Deferred => flag
  | Threw => Some true
  | Started w => processing w
  end.

(** How the [each] loop ends: normally, or with the exception of a
    constructor, and the page at that point. *)
Inductive each_result : Type :=
| Returned (pg : Page)
| Raised (pg : Page).

(** [$.fn.brickify]: for each node of the set without a stored plugin,
    construct one and store it. *)
Fixpoint brickify (nodes : list (nat * Element)) (options : Options) (pg : Page)
  : each_result :=
  match nodes with
  | [] => Returned pg
  | (node, el) :: rest =>
      match data node pg with
      | Some _ => brickify rest options pg
      | None =>
          match new_Plugin el options (busy pg) with
          | Threw =>
              Raised {| busy := flag_after (busy pg) Threw;
                        plugin_data := plugin_data pg |}
          | o =>
              brickify rest options
                {| busy := flag_after (busy pg) o;
                   plugin_data := (node, o) :: plugin_data pg |}
          end
      end
  end.

(** A page on which nothing has run. *)
Definition idle_page : Page := {| busy := None; plugin_data := [] |}.

(** The element once [_onImageError] has run. *)
Definition placeholder : Element :=
  {| width := 34; height := 34; src := broken_image_icon |}.

(** ** Several images on one page *)

(** A plugin instance on the page: constructed with its call of [init]
    still to come, the constructor's own or the one of the timer that a
    deferred [init] armed; running; or left by an [init] that threw. *)
Inductive instance : Type :=
| Waiting (el : Element) (st : Settings)
| Running (w : World)
| Failed.

(** The page: its busy flag, which all instances share, and the
    instances. *)
Record Site : Type := {
  site_flag : option bool;
  instances : list instance
}.

(** What happens next on the page: instance [i] calls [init], or the
    environment runs a callback that instance [i] handed out. *)
Inductive move : Type :=
| call_init (i : nat)
| run_callback (i : nat) (c : callback).

Definition set_instance (i : nat) (x : instance) (l : list instance)
  : list instance :=
  firstn i l ++ x :: skipn (S i) l.

(** The instance that a call of [init] leaves: a deferred one waits for
    its timer. *)
Definition after_init (el : Element) (st : Settings) (o : init_outcome)
  : instance :=
  match o with
  | Deferred => Waiting el st
  | Threw => Failed
  | Started w => Running w
  end.

(** One move.  A callback reads and writes the page's flag: the world of
    its instance is given the current flag and the flag is taken back
    from it. *)
Definition step (m : move) (s : Site) : option Site :=
  match m with
  | call_init i =>
      match nth_error (instances s) i with
      | Some (Waiting el st) =>
          let o := init el st (site_flag s) in
          Some {| site_flag := flag_after (site_flag s) o;
                  instances := set_instance i (after_init el st o) (instances s) |}
      | _ => None
      end
  | run_callback i c =>
      match nth_error (instances s) i with
      | Some (Running w) =>
          match fire c (set_processing (site_flag s) w) with
          | Some w' =>
              Some {| site_flag := processing w';
                      instances := set_instance i (Running w') (instances s) |}
          | None => None
          end
      | _ => None
      end
  end.

Fixpoint steps (ms : list move) (s : Site) : option Site :=
  match ms with
  | [] => Some s
  | m :: rest => match step m s with
                 | Some s' => steps rest s'
                 | None => None
                 end
  end.

(** A page on which a plugin has been requested for each image and none
    has called [init] yet. *)
Definition fresh_site (images : list (Element * Settings)) : Site :=
  {| site_flag := None;
     instances := map (fun p => Waiting (fst p) (snd p)) images |}.

(** The instance holds the page's flag: its run has started and has not
    triggered the completion event, or its [init] threw after setting the
    flag. *)
Definition holds_flag (x : instance) : bool :=
  match x with
  | Waiting _ _ => false
  | Running w => negb (existsb (is_trigger "image:brickified") (trace w))
  | Failed => true
  end.

Definition is_effect_error (m : move) : bool :=
  match m with
  | run_callback _ onEffectError => true
  | _ => false
  end.

(** Every running instance is in a phase of its pipeline. *)
Definition instance_ok (x : instance) : Prop :=
  match x with
  | Running w => exists k, (k <= 6)%nat /\ in_phase k w
  | _ => True
  end.

(** The flag is [true] exactly when one instance holds it, and never do
    two. *)
Definition serialised (s : Site) : Prop :=
  length (filter holds_flag (instances s)) = b2n (truthy (site_flag s)) /\
  Forall instance_ok (instances s).

(** ** The number-dependent functions on IEEE 754 doubles

    JavaScript's numbers are binary64 floating-point numbers.  This module
    gives the grid sizer, the scaler, the sizes stored by [init] and the
    artwork builders on the standard library's specification of them
    ([spec_float] at precision 53 and maximal exponent 1024): every
    product, quotient and difference is rounded to the nearest double, ties
    to even, may underflow, may overflow to an infinity and may give [NaN];
    a comparison with [NaN] is false. *)

Module Ieee.

Definition prec : Z := 53.
Definition emax : Z := 1024.
Definition emin : Z := -1074.

Definition double : Type := spec_float.

Definition NaN : double := S754_nan.

Definition mul : double -> double -> double := SFmul prec emax.
Definition div : double -> double -> double := SFdiv prec emax.
Definition sub : double -> double -> double := SFsub prec emax.
Definition ltb : double -> double -> bool := SFltb.
Definition leb : double -> double -> bool := SFleb.

(** The double nearest to an integer; the integer itself below 2^53. *)
Definition of_Z (z : Z) : double := binary_normalize prec emax z 0 false.

(** The double a decimal literal denotes.  The literal is read as a
    fraction; its numerator and denominator are exact doubles for every
    literal used here (an integer below 2^53 over a power of ten up to
    10^22), so that their quotient, correctly rounded, is the double
    nearest to the literal. *)
Definition lit (q : Q) : double := div (of_Z (Qnum q)) (of_Z (Zpos (Qden q))).

Definition is_nan (x : double) : bool :=
  match x with S754_nan => true | _ => false end.

Definition is_finite (x : double) : bool :=
  match x with S754_zero _ | S754_finite _ _ _ => true | _ => false end.

(** The exact value of a finite double. *)
Definition to_Q (x : double) : option Q :=
  match x with
  | S754_zero _ => Some 0
  | S754_finite s m e =>
      Some ((if s then - inject_Z (Zpos m) else inject_Z (Zpos m)) * 2 ^ e)
  | _ => None
  end.

(** A finite double whose value is an integer. *)
Definition is_integer (x : double) : bool :=
  match x with
  | S754_zero _ => true
  | S754_finite _ m e => Z.leb 0 e || Z.eqb (Zpos m mod 2 ^ (- e)) 0
  | _ => false
  end.

(** The double of the integer [n], with the sign [s] when it is zero. *)
Definition integral (s : bool) (n : Z) : double :=
  if Z.eqb n 0 then S754_zero s else of_Z n.

(** *** Printing: the shortest decimal that reads back as the double *)

(** [decade q] is the [p] with [10^p <= q < 10^(p+1)], for [q > 0]. *)
Fixpoint decade_up (fuel : nat) (q : Q) (p : Z) : Z :=
  match fuel with
  | O => p
  | S f => if Qlt_bool q 10 then p else decade_up f (q / 10) (p + 1)%Z
  end.

Fixpoint decade_down (fuel : nat) (q : Q) (p : Z) : Z :=
  match fuel with
  | O => p
  | S f => if Qle_bool 1 q then p else decade_down f (q * 10) (p - 1)%Z
  end.

Definition decade (q : Q) : Z :=
  if Qle_bool 1 q then decade_up 400 q 0 else decade_down 400 q 0.

(** The reals that round to the positive double [m * 2^e]: an interval
    around it, closed when [m] is even. *)
Definition rounds_to (m : positive) (e : Z) (r : Q) : bool :=
  let q := inject_Z (Zpos m) * 2 ^ e in
  let up := 2 ^ (e - 1) in
  let down :=
    if Pos.eqb m 4503599627370496 && Z.ltb emin e then 2 ^ (e - 2) else 2 ^ (e - 1) in
  if Z.even (Zpos m)
  then Qle_bool (q - down) r && Qle_bool r (q + up)
  else Qlt_bool (q - down) r && Qlt_bool r (q + up).

(** A candidate [s * 10^(n-k)] with [k] digits. *)
Record digits : Type := { d_s : Z; d_n : Z; d_k : Z }.

Definition digits_value (d : digits) : Q := inject_Z (d_s d) * 10 ^ (d_n d - d_k d).

Definition candidates (q : Q) (k : Z) : list digits :=
  let n0 := (decade q + 1)%Z in
  flat_map
    (fun n =>
       let t := Qfloor (q / 10 ^ (n - k)) in
       map (fun s => {| d_s := s; d_n := n; d_k := k |})
           [t; (t + 1)%Z; (10 ^ (k - 1))%Z; (10 ^ k - 1)%Z])
    [(n0 - 1)%Z; n0; (n0 + 1)%Z].

Definition admissible (m : positive) (e : Z) (d : digits) : bool :=
  Z.leb (10 ^ (d_k d - 1))%Z (d_s d) && Z.ltb (d_s d) (10 ^ d_k d)%Z
  && rounds_to m e (digits_value d).

(** Closer to [q], and even on a tie. *)
Definition better (q : Q) (a b : digits) : digits :=
  let da := Qabs (digits_value a - q) in
  let db := Qabs (digits_value b - q) in
  if Qlt_bool db da then b
  else if Qlt_bool da db then a
  else if Z.even (d_s a) then a else b.

Definition best (q : Q) (l : list digits) : option digits :=
  match l with
  | [] => None
  | a :: rest => Some (fold_left (better q) rest a)
  end.

Fixpoint shortest_from (fuel : nat) (m : positive) (e : Z) (k : Z) : option digits :=
  match fuel with
  | O => None
  | S f =>
      let q := inject_Z (Zpos m) * 2 ^ e in
      match best q (filter (admissible m e) (candidates q k)) with
      | Some d => Some d
      | None => shortest_from f m e (k + 1)%Z
      end
  end.

(** [Number::toString]'s choice of [s], [n] and [k] for the positive
    double [m * 2^e]: [k] as small as possible, then [s * 10^(n-k)]
    closest to the double, then [s] even. *)
Definition shortest (m : positive) (e : Z) : option digits :=
  shortest_from 17 m e 1.

(** The integer part of a finite double, rounding toward zero and keeping
    the sign on zero. *)
Definition truncate (x : double) : double :=
  match x with
  | S754_finite s m e =>
      if is_integer x then x
      else let n := Qfloor (inject_Z (Zpos m) * 2 ^ e) in
           integral s (if s then - n else n)%Z
  | _ => x
  end.

(** Whether [Number::toString] prints the number with a decimal point
    rather than with an exponent: a zero, or a number whose magnitude is at
    least 1e-6 and less than 1e21 (the [n] of the shortest decimal is then
    above -6 and at most 21). *)
Definition prints_plain (x : double) : bool :=
  match x with
  | S754_zero _ => true
  | S754_finite _ m e =>
      leb (lit 0.000001) (S754_finite false m e)
      && ltb (S754_finite false m e) (of_Z (10 ^ 21))
  | _ => false
  end.

(** [parseInt(x, 10)] on a number: the number is printed and the longest
    prefix that reads as a decimal integer is read back.  Printed with a
    decimal point it gives the integer part, with the sign; printed with an
    exponent, as [d.ddde+x], it gives the leading digit [d].  Both zeros
    print as "0"; [NaN] and the infinities print as words and give
    [NaN]. *)
Definition parseInt (x : double) : double :=
  match x with
  | S754_nan | S754_infinity _ => NaN
  | S754_zero _ => S754_zero false
  | S754_finite s m e =>
      if prints_plain x then truncate x
      else match shortest m e with
           | None => NaN
           | Some d =>
               let n := (d_s d / 10 ^ (d_k d - 1))%Z in
               integral s (if s then - n else n)%Z
           end
  end.

(** [Math.floor]: an integral number is returned as it is, another one
    gives the greatest integer below it. *)
Definition Math_floor (x : double) : double :=
  match x with
  | S754_finite s m e =>
      if is_integer x then x
      else integral s
             (Qfloor ((if s then - inject_Z (Zpos m) else inject_Z (Zpos m)) * 2 ^ e))
  | _ => x
  end.

(** [Math.round]: an integral number is returned as it is, another one
    gives the integer nearest to it, the upper one on a tie; the sign is
    kept on zero. *)
Definition Math_round (x : double) : double :=
  match x with
  | S754_finite s m e =>
      if is_integer x then x
      else integral s
             (Qfloor ((if s then - inject_Z (Zpos m) else inject_Z (Zpos m)) * 2 ^ e
                      + (1 # 2)))
  | _ => x
  end.

(** [r] is the integer nearest to [x], the upper one on a tie; a number
    that is not finite is its own "nearest integer". *)
Definition nearest_integer (x r : double) : Prop :=
  match to_Q x with
  | Some q =>
      exists (n : Z) (z : Q),
        to_Q r = Some z /\ z == inject_Z n /\
        q - (1 # 2) < inject_Z n /\ inject_Z n <= q + (1 # 2)
  | None => r = x
  end.

(** [x % y]: the exact remainder of the truncated division, with the
    sign of [x]. *)
Definition rem (x y : double) : double :=
  match x, y with
  | S754_nan, _ | _, S754_nan => NaN
  | S754_infinity _, _ => NaN
  | _, S754_zero _ => NaN
  | _, S754_infinity _ => x
  | S754_zero _, _ => x
  | S754_finite sx mx ex, S754_finite _ my ey =>
      let e0 := Z.min ex ey in
      let X := (Zpos mx * 2 ^ (ex - e0))%Z in
      let Y := (Zpos my * 2 ^ (ey - e0))%Z in
      let r := Z.rem X Y in
      if Z.eqb r 0 then S754_zero sx
      else binary_normalize prec emax (if sx then - r else r) e0 false
  end.

(** *** Normal doubles *)

(** A finite double with a full 53-bit mantissa. *)
Definition normal (x : double) : bool :=
  match x with
  | S754_finite _ m e =>
      Z.eqb (Zpos (digits2_pos m)) prec && Z.leb emin e && Z.leb e (emax - prec)
  | _ => false
  end.

(** The exponent of the last mantissa bit. *)
Definition exponent (x : double) : Z :=
  match x with
  | S754_finite _ _ e => e
  | _ => 0
  end.

(** The exact product of two finite doubles is in the normal range from
    below: it is at least 2^-1022 in magnitude. *)
Definition product_not_subnormal (x y : double) : Prop :=
  match to_Q x, to_Q y with
  | Some a, Some b => 2 ^ (-1022) <= Qabs (a * b)
  | _, _ => False
  end.

(** *** Settings and instance *)

Record Threshold : Type := {
  maxImageWidth : double;         (* [NaN] when the property is undefined:
                                     it is only compared *)
  minBrickSize : option double;   (* [None]: the property is undefined *)
  maxBrickSize : option double
}.

Record Settings : Type := {
  s_originalBricksize : double;
  s_ratio : double;
  s_thresholds : list Threshold
}.

(** [defaults]; the ratio is the quotient [1/40] as the engine computes
    it. *)
Definition defaults : Settings := {|
  s_originalBricksize := lit 73;
  s_ratio := div (lit 1) (lit 40);
  s_thresholds :=
    [ {| maxImageWidth := lit 300;
         minBrickSize := Some (lit 7); maxBrickSize := Some (lit 15) |};
      {| maxImageWidth := lit 1200;
         minBrickSize := Some (lit 15); maxBrickSize := Some (lit 26) |};
      {| maxImageWidth := lit 1600;
         minBrickSize := None; maxBrickSize := Some (lit 36) |} ]
|}.

Record Plugin : Type := {
  element : Element;
  settings : Settings;
  originalBricksize : double;
  ratio : double;
  thresholds : list Threshold;
  gridSize : double;
  brickRatio : double;
  stageWidth : double;
  stageHeight : double
}.

(** *** Grid sizer *)

(** State of the [$(thresholds).each] loop of [_getGridSize]. *)
Record scan : Type := {
  hasThresholdMatch : bool;
  threshold : option Threshold    (* [None]: still undefined *)
}.

Definition scan_start : scan :=
  {| hasThresholdMatch := false; threshold := None |}.

(** Body of the [each] callback, [this] being the current entry. *)
Definition scan_body (imageWidth : double) (st : scan) (this : Threshold) : scan :=
  if negb (hasThresholdMatch st) && leb imageWidth (maxImageWidth this)
  then {| hasThresholdMatch := true; threshold := Some this |}
  else st.

(** The loop, then [threshold = thresholds[thresholds.length-1]] when it
    recorded no match; the read yields [undefined] on an empty array. *)
Definition selected_threshold (imageWidth : double) (thresholds : list Threshold)
  : option Threshold :=
  let st := fold_left (scan_body imageWidth) thresholds scan_start in
  if negb (hasThresholdMatch st)
  then match thresholds with
       | [] => None
       | _ => nth_error thresholds (length thresholds - 1)
       end
  else threshold st.

(** The clamping [if / else if] of [_getGridSize]. *)
Definition clamp (th : Threshold) (gridSize : double) : double :=
  let otherwise :=
    match minBrickSize th with
    | Some mn => if ltb gridSize mn then mn else gridSize
    | None => gridSize
    end in
  match maxBrickSize th with
  | Some mx => if ltb mx gridSize then mx else otherwise
  | None => otherwise
  end.

(** [_getGridSize], reading [self.element.width] (an unsigned long, hence
    an exact double), [self.ratio] and [self.thresholds]. *)
Definition _getGridSize (imageWidth : Z) (ratio : double)
    (thresholds : list Threshold) : completion double :=
  let gridSize := parseInt (mul (of_Z imageWidth) ratio) in
  match selected_threshold (of_Z imageWidth) thresholds with
  | None => Throw                 (* [threshold.maxBrickSize] on undefined *)
  | Some th => Normal (clamp th gridSize)
  end.

(** *** The grid sizer as the specification words it *)

(** First threshold whose [maxImageWidth >= w], else the last one. *)
Definition spec_select (w : Z) (ths : list Threshold) : option Threshold :=
  match find (fun t => leb (of_Z w) (maxImageWidth t)) ths with
  | Some t => Some t
  | None => match ths with [] => None | t :: ts => Some (last ts t) end
  end.

(** Max clamp first; the min clamp is tried only when the max clamp did
    not apply. *)
Definition spec_clamp (t : Threshold) (raw : double) : double :=
  match maxBrickSize t, minBrickSize t with
  | Some mx, Some mn =>
      if ltb mx raw then mx else if ltb raw mn then mn else raw
  | Some mx, None => if ltb mx raw then mx else raw
  | None, Some mn => if ltb raw mn then mn else raw
  | None, None => raw
  end.

(** The specified grid size for a given raw size. *)
Definition spec_gridSize_of (raw : double) (w : Z) (ths : list Threshold)
  : option double :=
  option_map (fun t => spec_clamp t raw) (spec_select w ths).

(** The specified grid size, with [raw = floor(w * r)]. *)
Definition spec_gridSize (w : Z) (r : double) (ths : list Threshold)
  : option double :=
  spec_gridSize_of (Math_floor (mul (of_Z w) r)) w ths.

(** A number that is not negative and is printed without an exponent:
    [+0], or a positive number from 1e-6 up to, and not including,
    1e21. *)
Definition plain_nonneg (x : double) : bool :=
  match x with
  | S754_zero false => true
  | S754_finite false _ _ => prints_plain x
  | _ => false
  end.

(** *** Shape scaler *)

(** [_getScaledValue]: [thresholds[0].maxImageWidth] throws on an empty
    threshold array. *)
Definition _getScaledValue (self : Plugin) (value : double) : completion double :=
  let newVal := mul value (brickRatio self) in
  match thresholds self with
  | [] => Throw
  | first :: _ =>
      Normal (if leb (stageWidth self) (maxImageWidth first)
              then Math_round newVal
              else newVal)
  end.

(** The scaler as the specification words it: rounding is decided by the
    source image's width. *)
Definition spec_scale (self : Plugin) (value : double) : option double :=
  match thresholds self with
  | [] => None
  | first :: _ =>
      let scaled := mul value (brickRatio self) in
      Some (if leb (of_Z (width (element self))) (maxImageWidth first)
            then Math_round scaled
            else scaled)
  end.

(** *** Sizes *)

(** How [init] ends, and the instance it leaves. *)
Inductive init_outcome : Type :=
| Deferred         (* busy: [setTimeout(init, 1000)], nothing stored *)
| Threw            (* [_getGridSize] threw *)
| Started (self : Plugin).

(** [Plugin.prototype.init]: the settings it stores and the sizes it
    derives, with the current value of the page's flag. *)
Definition init (el : Element) (st : Settings) (flag : option bool)
  : init_outcome :=
  if truthy flag then Deferred
  else
    match _getGridSize (width el) (s_ratio st) (s_thresholds st) with
    | Throw => Threw
    | Normal g =>
        Started
          {| element := el;
             settings := st;
             originalBricksize := s_originalBricksize st;
             ratio := s_ratio st;
             thresholds := s_thresholds st;
             gridSize := g;
             brickRatio := div g (s_originalBricksize st);
             stageWidth := sub (of_Z (width el)) (rem (of_Z (width el)) g);
             stageHeight := sub (of_Z (height el)) (rem (of_Z (height el)) g) |}
    end.

(** *** Brick artwork *)

(** An argument handed to the drawing library: a number, or [undefined]
    when it was read past the end of an array. *)
Inductive jsarg : Type :=
| Number (v : double)
| Undefined.

(** An angle: a number of radians, or a multiple of [Math.PI]. *)
Inductive angle : Type :=
| radians (q : Q)
| pi_times (k : Q).

(** Calls on [shape.graphics]; the gradient stops are kept as the source
    writes them. *)
Inductive gcall : Type :=
| beginLinearGradientFill (colors : list string) (ratios : list Q)
    (x0 y0 x1 y1 : jsarg)
| beginFill (color : string)
| moveTo (x y : double)
| lineTo (x y : double)
| bezierCurveTo (cp1x cp1y cp2x cp2y x y : jsarg)
| arc (x y radius : double) (startAngle endAngle : angle).

(** A shape of the drawing library: the calls made on its graphics, in
    order, and its blend mode. *)
Record Shape : Type := {
  graphics : list gcall;
  compositeOperation : option string
}.

(** [self.imgProc.getShape()], taken to give a new shape on which nothing
    has been drawn. *)
Definition getShape : Shape :=
  {| graphics := []; compositeOperation := None |}.

Definition graphics_call (c : gcall) (s : Shape) : Shape :=
  {| graphics := graphics s ++ [c]; compositeOperation := compositeOperation s |}.

Definition set_compositeOperation (op : string) (s : Shape) : Shape :=
  {| graphics := graphics s; compositeOperation := Some op |}.

(** Sequencing of calls that may throw. *)
Definition bind {A B : Type} (c : completion A) (k : A -> completion B)
  : completion B :=
  match c with
  | Normal a => k a
  | Throw => Throw
  end.

Notation "x <- c ;; k" := (bind c (fun x => k))
  (at level 61, c at next level, right associativity).

(** The [$(positions).each] loop of the wrappers: [newPositions] once
    every position has been pushed. *)
Fixpoint scaled_positions (self : Plugin) (positions : list double)
  : completion (list double) :=
  match positions with
  | [] => Normal []
  | pos :: rest =>
      v <- _getScaledValue self pos ;;
      vs <- scaled_positions self rest ;;
      Normal (v :: vs)
  end.

(** [newPositions[k]] *)
Definition element_at (newPositions : list double) (k : nat) : jsarg :=
  match nth_error newPositions k with
  | Some v => Number v
  | None => Undefined
  end.

(** [_beginLinearGradientFill] *)
Definition _beginLinearGradientFill (self : Plugin) (shape : Shape)
    (colors : list string) (ratios : list Q) (positions : list double)
  : completion Shape :=
  newPositions <- scaled_positions self positions ;;
  Normal (graphics_call
            (beginLinearGradientFill colors ratios
               (element_at newPositions 0) (element_at newPositions 1)
               (element_at newPositions 2) (element_at newPositions 3))
            shape).

(** [_moveTo] *)
Definition _moveTo (self : Plugin) (shape : Shape) (x y : double)
  : completion Shape :=
  sx <- _getScaledValue self x ;;
  sy <- _getScaledValue self y ;;
  Normal (graphics_call (moveTo sx sy) shape).

(** [_lineTo] *)
Definition _lineTo (self : Plugin) (shape : Shape) (x y : double)
  : completion Shape :=
  sx <- _getScaledValue self x ;;
  sy <- _getScaledValue self y ;;
  Normal (graphics_call (lineTo sx sy) shape).

(** [_bezierCurveTo] *)
Definition _bezierCurveTo (self : Plugin) (shape : Shape) (positions : list double)
  : completion Shape :=
  newPositions <- scaled_positions self positions ;;
  Normal (graphics_call
            (bezierCurveTo
               (element_at newPositions 0) (element_at newPositions 1)
               (element_at newPositions 2) (element_at newPositions 3)
               (element_at newPositions 4) (element_at newPositions 5))
            shape).

(** [_arc]: the angles are passed on as they are. *)
Definition _arc (self : Plugin) (shape : Shape) (x y radius : double)
    (startAngle endAngle : angle) : completion Shape :=
  newX <- _getScaledValue self x ;;
  newY <- _getScaledValue self y ;;
  newRadius <- _getScaledValue self radius ;;
  Normal (graphics_call (arc newX newY newRadius startAngle endAngle) shape).

(** One call of a builder, by the wrapper it goes through and its
    arguments as written in the source. *)
Inductive draw : Type :=
| d_gradient (colors : list string) (ratios : list Q) (positions : list double)
| d_moveTo (x y : double)
| d_lineTo (x y : double)
| d_bezierCurveTo (positions : list double)
| d_beginFill (color : string)
| d_arc (x y radius : double) (startAngle endAngle : angle).

Definition draw_step (self : Plugin) (shape : Shape) (d : draw) : completion Shape :=
  match d with
  | d_gradient colors ratios positions =>
      _beginLinearGradientFill self shape colors ratios positions
  | d_moveTo x y => _moveTo self shape x y
  | d_lineTo x y => _lineTo self shape x y
  | d_bezierCurveTo positions => _bezierCurveTo self shape positions
  | d_beginFill color => Normal (graphics_call (beginFill color) shape)
  | d_arc x y radius a b => _arc self shape x y radius a b
  end.

(** A sequence of calls followed by [k]. *)
Fixpoint draw_all (self : Plugin) (ds : list draw)
    (k : Shape -> completion Shape) (shape : Shape) : completion Shape :=
  match ds with
  | [] => k shape
  | d :: rest => s <- draw_step self shape d ;; draw_all self rest k s
  end.

(** Whether a call gets as many positions as the library reads. *)
Definition arity_ok (d : draw) : bool :=
  match d with
  | d_gradient _ _ positions => Nat.eqb (length positions) 4
  | d_bezierCurveTo positions => Nat.eqb (length positions) 6
  | _ => true
  end.

(** The library call a [draw] ends in when every position scales to
    [f]. *)
Definition scaled_call (f : double -> double) (d : draw) : gcall :=
  match d with
  | d_gradient colors ratios positions =>
      let np := map f positions in
      beginLinearGradientFill colors ratios
        (element_at np 0) (element_at np 1) (element_at np 2) (element_at np 3)
  | d_moveTo x y => moveTo (f x) (f y)
  | d_lineTo x y => lineTo (f x) (f y)
  | d_bezierCurveTo positions =>
      let np := map f positions in
      bezierCurveTo (element_at np 0) (element_at np 1) (element_at np 2)
        (element_at np 3) (element_at np 4) (element_at np 5)
  | d_beginFill color => beginFill color
  | d_arc x y radius a b => arc (f x) (f y) (f radius) a b
  end.

(** The scaled arguments of a library call. *)
Definition call_numbers (c : gcall) : list jsarg :=
  match c with
  | beginLinearGradientFill _ _ x0 y0 x1 y1 => [x0; y0; x1; y1]
  | beginFill _ => []
  | moveTo x y | lineTo x y => [Number x; Number y]
  | bezierCurveTo a b c d e f => [a; b; c; d; e; f]
  | arc x y radius _ _ => [Number x; Number y; Number radius]
  end.

(** The argument is a number, and one satisfying [P]. *)
Definition arg_is (P : double -> Prop) (a : jsarg) : Prop :=
  exists x, a = Number x /\ P x.

(** Every scaled argument of every call of the shape satisfies [P]. *)
Definition all_numbers (P : double -> Prop) (s : Shape) : Prop :=
  Forall (fun c => Forall (arg_is P) (call_numbers c)) (graphics s).

(** The value [_getScaledValue] gives on an instance whose first
    threshold is [first]. *)
Definition scaler (self : Plugin) (first : Threshold) (v : double) : double :=
  if leb (stageWidth self) (maxImageWidth first)
  then Math_round (mul v (brickRatio self))
  else mul v (brickRatio self).

(** A coordinate on the pixel grid: an integer, unless it is not finite. *)
Definition whole (x : double) : Prop :=
  is_finite x = true -> is_integer x = true.

Local Open Scope string_scope.

(** [_getShadowDataURL]: the shape whose rendering on the scratch canvas
    is the data URL returned. *)
Definition _getShadowDataURL (self : Plugin) : completion Shape :=
  let shadow := getShape in
  shadow <- _beginLinearGradientFill self shadow ["#b3b3b3"; "#f3f3f3"] [0; 0.45314492984693877] (map lit [36; 64; 36; 6]) ;;
  shadow <- _moveTo self shadow (lit 65) (lit 35) ;;
  shadow <- _bezierCurveTo self shadow (map lit [65; 51; 52; 64; 36; 64]) ;;
  shadow <- _bezierCurveTo self shadow (map lit [20; 64; 7; 51; 7; 35]) ;;
  shadow <- _bezierCurveTo self shadow (map lit [7; 19; 20; 7; 36; 7]) ;;
  shadow <- _bezierCurveTo self shadow (map lit [52; 7; 65; 19; 65; 35]) ;;
  shadow <- _beginLinearGradientFill self shadow ["#b3b3b3"; "#f1f1f1"] [0; 0.45314492984693877] (map lit [34; 59; 34; 12]) ;;
  shadow <- _moveTo self shadow (lit 60) (lit 35) ;;
  shadow <- _bezierCurveTo self shadow (map lit [60; 48; 48; 59; 34; 59]) ;;
  shadow <- _bezierCurveTo self shadow (map lit [19; 59; 7; 48; 7; 35]) ;;
  shadow <- _bezierCurveTo self shadow (map lit [7; 22; 19; 12; 34; 12]) ;;
  shadow <- _bezierCurveTo self shadow (map lit [48; 12; 60; 22; 60; 35]) ;;
  shadow <- _beginLinearGradientFill self shadow ["#b3b3b3"; "#f1f1f1"] [0; 0.45314492984693877] (map lit [38; 59; 38; 12]) ;;
  shadow <- _moveTo self shadow (lit 65) (lit 35) ;;
  shadow <- _bezierCurveTo self shadow (map lit [65; 48; 53; 59; 38; 59]) ;;
  shadow <- _bezierCurveTo self shadow (map lit [24; 59; 12; 48; 12; 35]) ;;
  shadow <- _bezierCurveTo self shadow (map lit [12; 22; 24; 12; 38; 12]) ;;
  shadow <- _bezierCurveTo self shadow (map lit [53; 12; 65; 22; 65; 35]) ;;
  let shadow := graphics_call (beginFill "#ffffff") shadow in
  shadow <- _arc self shadow (lit 36) (lit 33) (lit 25.5) (radians 0) (pi_times 2) ;;
  shadow <- _beginLinearGradientFill self shadow ["#f8f8f8"; "#afafaf"] [0; 1] (map lit [36; 57; 36; 11]) ;;
  shadow <- _moveTo self shadow (lit 59) (lit 33) ;;
  shadow <- _bezierCurveTo self shadow (map lit [59; 46; 49; 56; 36; 56]) ;;
  shadow <- _bezierCurveTo self shadow (map lit [23; 56; 13; 46; 13; 33]) ;;
  shadow <- _bezierCurveTo self shadow (map lit [13; 20; 23; 9; 36; 9]) ;;
  shadow <- _bezierCurveTo self shadow (map lit [49; 9; 59; 20; 59; 33]) ;;
  shadow <- _beginLinearGradientFill self shadow ["#ffffff"; "#f1f1f1"] [0; 1] (map lit [36; 57; 36; 11]) ;;
  shadow <- _moveTo self shadow (lit 59) (lit 34) ;;
  shadow <- _bezierCurveTo self shadow (map lit [59; 47; 49; 57; 36; 57]) ;;
  shadow <- _bezierCurveTo self shadow (map lit [23; 57; 13; 47; 13; 34]) ;;
  shadow <- _bezierCurveTo self shadow (map lit [13; 21; 23; 11; 36; 11]) ;;
  shadow <- _bezierCurveTo self shadow (map lit [49; 11; 59; 21; 59; 34]) ;;
  let shadow := set_compositeOperation "source-over" shadow in
  Normal shadow.

(** The calls of [_getShadowDataURL], in order. *)
Definition shadow_steps : list draw :=
  [ d_gradient ["#b3b3b3"; "#f3f3f3"] [0; 0.45314492984693877] (map lit [36; 64; 36; 6]);
    d_moveTo (lit 65) (lit 35);
    d_bezierCurveTo (map lit [65; 51; 52; 64; 36; 64]);
    d_bezierCurveTo (map lit [20; 64; 7; 51; 7; 35]);
    d_bezierCurveTo (map lit [7; 19; 20; 7; 36; 7]);
    d_bezierCurveTo (map lit [52; 7; 65; 19; 65; 35]);
    d_gradient ["#b3b3b3"; "#f1f1f1"] [0; 0.45314492984693877] (map lit [34; 59; 34; 12]);
    d_moveTo (lit 60) (lit 35);
    d_bezierCurveTo (map lit [60; 48; 48; 59; 34; 59]);
    d_bezierCurveTo (map lit [19; 59; 7; 48; 7; 35]);
    d_bezierCurveTo (map lit [7; 22; 19; 12; 34; 12]);
    d_bezierCurveTo (map lit [48; 12; 60; 22; 60; 35]);
    d_gradient ["#b3b3b3"; "#f1f1f1"] [0; 0.45314492984693877] (map lit [38; 59; 38; 12]);
    d_moveTo (lit 65) (lit 35);
    d_bezierCurveTo (map lit [65; 48; 53; 59; 38; 59]);
    d_bezierCurveTo (map lit [24; 59; 12; 48; 12; 35]);
    d_bezierCurveTo (map lit [12; 22; 24; 12; 38; 12]);
    d_bezierCurveTo (map lit [53; 12; 65; 22; 65; 35]);
    d_beginFill "#ffffff";
    d_arc (lit 36) (lit 33) (lit 25.5) (radians 0) (pi_times 2);
    d_gradient ["#f8f8f8"; "#afafaf"] [0; 1] (map lit [36; 57; 36; 11]);
    d_moveTo (lit 59) (lit 33);
    d_bezierCurveTo (map lit [59; 46; 49; 56; 36; 56]);
    d_bezierCurveTo (map lit [23; 56; 13; 46; 13; 33]);
    d_bezierCurveTo (map lit [13; 20; 23; 9; 36; 9]);
    d_bezierCurveTo (map lit [49; 9; 59; 20; 59; 33]);
    d_gradient ["#ffffff"; "#f1f1f1"] [0; 1] (map lit [36; 57; 36; 11]);
    d_moveTo (lit 59) (lit 34);
    d_bezierCurveTo (map lit [59; 47; 49; 57; 36; 57]);
    d_bezierCurveTo (map lit [23; 57; 13; 47; 13; 34]);
    d_bezierCurveTo (map lit [13; 21; 23; 11; 36; 11]);
    d_bezierCurveTo (map lit [49; 11; 59; 21; 59; 34]) ].

(** [_getHighlightDataURL]: the shape whose rendering on the scratch
    canvas is the data URL returned. *)
Definition _getHighlightDataURL (self : Plugin) : completion Shape :=
  let highlight := getShape in
  highlight <- _beginLinearGradientFill self highlight ["#333333"; "#242424"] [0; 1] (map lit [35; 8; 35; 57]) ;;
  highlight <- _moveTo self highlight (lit 44) (lit 55) ;;
  highlight <- _bezierCurveTo self highlight (map lit [42; 56; 39; 56; 36; 56]) ;;
  highlight <- _bezierCurveTo self highlight (map lit [33; 56; 30; 56; 28; 55]) ;;
  highlight <- _bezierCurveTo self highlight (map lit [20; 53; 14; 47; 12; 40]) ;;
  highlight <- _bezierCurveTo self highlight (map lit [15; 50; 24; 58; 36; 58]) ;;
  highlight <- _bezierCurveTo self highlight (map lit [46; 58; 55; 52; 59; 43]) ;;
  highlight <- _bezierCurveTo self highlight (map lit [56; 49; 50; 53; 44; 55]) ;;
  highlight <- _beginLinearGradientFill self highlight ["#525252"; "#080808"] [0; 0.5] (map lit [36; 8; 36; 56]) ;;
  highlight <- _moveTo self highlight (lit 28) (lit 55) ;;
  highlight <- _bezierCurveTo self highlight (map lit [19; 52; 13; 43; 13; 34]) ;;
  highlight <- _lineTo self highlight (lit 13) (lit 33) ;;
  highlight <- _lineTo self highlight (lit 13) (lit 33) ;;
  highlight <- _bezierCurveTo self highlight (map lit [13; 20; 23; 10; 36; 10]) ;;
  highlight <- _bezierCurveTo self highlight (map lit [49; 10; 59; 20; 59; 33]) ;;
  highlight <- _lineTo self highlight (lit 59) (lit 33) ;;
  highlight <- _lineTo self highlight (lit 59) (lit 34) ;;
  highlight <- _bezierCurveTo self highlight (map lit [59; 43; 53; 52; 44; 55]) ;;
  highlight <- _bezierCurveTo self highlight (map lit [50; 53; 56; 49; 59; 43]) ;;
  highlight <- _bezierCurveTo self highlight (map lit [60; 40; 61; 37; 61; 33]) ;;
  highlight <- _bezierCurveTo self highlight (map lit [61; 19; 50; 8; 36; 8]) ;;
  highlight <- _bezierCurveTo self highlight (map lit [22; 8; 11; 19; 11; 33]) ;;
  highlight <- _bezierCurveTo self highlight (map lit [11; 35; 11; 38; 12; 40]) ;;
  highlight <- _bezierCurveTo self highlight (map lit [14; 47; 20; 53; 28; 55]) ;;
  highlight <- _beginLinearGradientFill self highlight ["#080808"; "#000000"] [0; 0.3714524872449] (map lit [36; 56; 36; 10]) ;;
  highlight <- _moveTo self highlight (lit 59) (lit 34) ;;
  highlight <- _bezierCurveTo self highlight (map lit [59; 46; 49; 56; 36; 56]) ;;
  highlight <- _bezierCurveTo self highlight (map lit [23; 56; 13; 46; 13; 34]) ;;
  highlight <- _bezierCurveTo self highlight (map lit [13; 21; 23; 11; 36; 11]) ;;
  highlight <- _bezierCurveTo self highlight (map lit [49; 11; 59; 21; 59; 34]) ;;
  let highlight := set_compositeOperation "lighter" highlight in
  Normal highlight.

(** The calls of [_getHighlightDataURL], in order. *)
Definition highlight_steps : list draw :=
  [ d_gradient ["#333333"; "#242424"] [0; 1] (map lit [35; 8; 35; 57]);
    d_moveTo (lit 44) (lit 55);
    d_bezierCurveTo (map lit [42; 56; 39; 56; 36; 56]);
    d_bezierCurveTo (map lit [33; 56; 30; 56; 28; 55]);
    d_bezierCurveTo (map lit [20; 53; 14; 47; 12; 40]);
    d_bezierCurveTo (map lit [15; 50; 24; 58; 36; 58]);
    d_bezierCurveTo (map lit [46; 58; 55; 52; 59; 43]);
    d_bezierCurveTo (map lit [56; 49; 50; 53; 44; 55]);
    d_gradient ["#525252"; "#080808"] [0; 0.5] (map lit [36; 8; 36; 56]);
    d_moveTo (lit 28) (lit 55);
    d_bezierCurveTo (map lit [19; 52; 13; 43; 13; 34]);
    d_lineTo (lit 13) (lit 33);
    d_lineTo (lit 13) (lit 33);
    d_bezierCurveTo (map lit [13; 20; 23; 10; 36; 10]);
    d_bezierCurveTo (map lit [49; 10; 59; 20; 59; 33]);
    d_lineTo (lit 59) (lit 33);
    d_lineTo (lit 59) (lit 34);
    d_bezierCurveTo (map lit [59; 43; 53; 52; 44; 55]);
    d_bezierCurveTo (map lit [50; 53; 56; 49; 59; 43]);
    d_bezierCurveTo (map lit [60; 40; 61; 37; 61; 33]);
    d_bezierCurveTo (map lit [61; 19; 50; 8; 36; 8]);
    d_bezierCurveTo (map lit [22; 8; 11; 19; 11; 33]);
    d_bezierCurveTo (map lit [11; 35; 11; 38; 12; 40]);
    d_bezierCurveTo (map lit [14; 47; 20; 53; 28; 55]);
    d_gradient ["#080808"; "#000000"] [0; 0.3714524872449] (map lit [36; 56; 36; 10]);
    d_moveTo (lit 59) (lit 34);
    d_bezierCurveTo (map lit [59; 46; 49; 56; 36; 56]);
    d_bezierCurveTo (map lit [23; 56; 13; 46; 13; 34]);
    d_bezierCurveTo (map lit [13; 21; 23; 11; 36; 11]);
    d_bezierCurveTo (map lit [49; 11; 59; 21; 59; 34]) ].

Local Close Scope string_scope.

(** *** Sample inputs *)

Definition unclamped : list Threshold :=
  [ {| maxImageWidth := lit 300; minBrickSize := None; maxBrickSize := None |} ].

(** The default settings with another reference brick size. *)
Definition with_originalBricksize (o : double) : Settings :=
  {| s_originalBricksize := o;
     s_ratio := s_ratio defaults;
     s_thresholds := s_thresholds defaults |}.

(** *** The default table, width by width *)

(** The same double, bit for bit. *)
Definition identical (a b : double) : bool :=
  match a, b with
  | S754_zero s, S754_zero t => Bool.eqb s t
  | S754_infinity s, S754_infinity t => Bool.eqb s t
  | S754_nan, S754_nan => true
  | S754_finite s m e, S754_finite t n f =>
      Bool.eqb s t && Pos.eqb m n && Z.eqb e f
  | _, _ => false
  end.

(** The grid size of the default settings in closed form. *)
Definition default_closed_form (w : Z) : Z :=
  if (w <=? 300)%Z then 7%Z
  else if (w <=? 1200)%Z then Z.max 15 (Z.min 26 (w / 40))
  else Z.min 36 (w / 40).

Definition default_agrees (w : Z) : bool :=
  match _getGridSize w (s_ratio defaults) (s_thresholds defaults) with
  | Normal g => identical g (of_Z (default_closed_form w))
  | Throw => false
  end.

(** [p] holds of every width from 1 to [n]. *)
Fixpoint all_widths (n : nat) (p : Z -> bool) : bool :=
  match n with
  | O => true
  | S k => p (Z.of_nat n) && all_widths k p
  end.

(** *** The default artwork, size by size *)

(** The positions a call hands to [_getScaledValue]. *)
Definition coordinates (d : draw) : list double :=
  match d with
  | d_gradient _ _ positions => positions
  | d_moveTo x y | d_lineTo x y => [x; y]
  | d_bezierCurveTo positions => positions
  | d_beginFill _ => []
  | d_arc x y radius _ _ => [x; y; radius]
  end.

(** A coordinate on a brick [g] pixels wide: from 0 to [g]. *)
Definition on_brick (g x : double) : bool :=
  leb (of_Z 0) x && leb x g.

(** What [_getScaledValue] gives for [v] when the settings are the
    defaults and the grid size is [g], in the rounding mode or not. *)
Definition default_scaled (rounding : bool) (g : Z) (v : double) : double :=
  let scaled := mul v (div (of_Z g) (s_originalBricksize defaults)) in
  if rounding then Math_round scaled else scaled.

(** [v] scales onto the brick of size [g] in both modes. *)
Definition fits (g : Z) (v : double) : bool :=
  on_brick (of_Z g) (default_scaled true g v)
  && on_brick (of_Z g) (default_scaled false g v).

(** Every coordinate of both artworks fits the brick of size [g]. *)
Definition default_artwork_fits (g : Z) : bool :=
  forallb (fits g) (flat_map coordinates (shadow_steps ++ highlight_steps)).

(** Every integer from 0 to 73 fits the brick of size [g]. *)
Definition default_integers_fit (g : Z) : bool :=
  fits g (of_Z 0) && all_widths 73 (fun v => fits g (of_Z v)).

End Ieee.

(** * Properties *)

(** ** Numbers *)

Lemma Qlt_bool_iff (a b : Q) : Qlt_bool a b = true <-> a < b.
Proof.
  unfold Qlt_bool. rewrite negb_true_iff.
  destruct (Qle_bool b a) eqn:E.
  - apply Qle_bool_iff in E. split; [discriminate | intro H; lra].
  - split; [intros _ | reflexivity].
    apply Qnot_le_lt. intro H. apply Qle_bool_iff in H. congruence.
Qed.

Lemma Qlt_bool_false_iff (a b : Q) : Qlt_bool a b = false <-> b <= a.
Proof.
  unfold Qlt_bool. rewrite negb_false_iff. apply Qle_bool_iff.
Qed.

Lemma Qle_bool_false_iff (a b : Q) : Qle_bool a b = false <-> b < a.
Proof.
  rewrite <- Qlt_bool_iff. unfold Qlt_bool.
  destruct (Qle_bool a b); simpl; split; congruence.
Qed.

Lemma Qle_bool_inject_Z (a b : Z) :
  Qle_bool (inject_Z a) (inject_Z b) = (a <=? b)%Z.
Proof. unfold Qle_bool; simpl. now rewrite !Z.mul_1_r. Qed.

Lemma Qlt_bool_inject_Z (a b : Z) :
  Qlt_bool (inject_Z a) (inject_Z b) = (a <? b)%Z.
Proof.
  unfold Qlt_bool. rewrite Qle_bool_inject_Z.
  now rewrite Z.ltb_antisym.
Qed.

Lemma trunc_nonneg (x : Q) : 0 <= x -> trunc x = Qfloor x.
Proof.
  intro H. unfold trunc.
  destruct (Qlt_bool x 0) eqn:E; [|reflexivity].
  apply Qlt_bool_iff in E. lra.
Qed.

Lemma trunc_inject_Z (z : Z) : trunc (inject_Z z) = z.
Proof.
  unfold trunc. destruct (Qlt_bool (inject_Z z) 0).
  - apply Qceiling_Z.
  - apply Qfloor_Z.
Qed.

Lemma trunc_comp (x y : Q) : x == y -> trunc x = trunc y.
Proof.
  intro E. unfold trunc.
  assert (B : Qlt_bool x 0 = Qlt_bool y 0).
  { destruct (Qlt_bool y 0) eqn:Ey.
    - apply Qlt_bool_iff. apply Qlt_bool_iff in Ey. lra.
    - apply Qlt_bool_false_iff. apply Qlt_bool_false_iff in Ey. lra. }
  rewrite B. destruct (Qlt_bool y 0).
  - now apply Qceiling_comp.
  - now apply Qfloor_comp.
Qed.

(** On a non-negative number printed without an exponent, [parseInt] is
    the floor. *)
Lemma parseInt_floor (x : Q) :
  0 <= x -> prints_decimal x -> parseInt x = Qfloor x.
Proof.
  intros Hx Hd. unfold parseInt.
  destruct (Qeq_bool x 0) eqn:E0.
  - apply Qeq_bool_iff in E0. rewrite (Qfloor_comp _ _ E0). reflexivity.
  - destruct Hd as [Hz | [Hlo Hhi]].
    + apply Qeq_bool_iff in Hz. congruence.
    + assert (L : Qlt_bool (Qabs x) (1 # 10 ^ 6) = false)
        by now apply Qlt_bool_false_iff.
      assert (U : Qle_bool (10 ^ 21) (Qabs x) = false)
        by now apply Qle_bool_false_iff.
      rewrite L, U. simpl. now apply trunc_nonneg.
Qed.

(** On any number printed without an exponent, [parseInt] truncates. *)
Lemma parseInt_trunc (x : Q) : prints_decimal x -> parseInt x = trunc x.
Proof.
  intros Hd. unfold parseInt.
  destruct (Qeq_bool x 0) eqn:E0.
  - apply Qeq_bool_iff in E0. rewrite (trunc_comp _ _ E0). reflexivity.
  - destruct Hd as [Hz | [Hlo Hhi]].
    + apply Qeq_bool_iff in Hz. congruence.
    + assert (L : Qlt_bool (Qabs x) (1 # 10 ^ 6) = false)
        by now apply Qlt_bool_false_iff.
      assert (U : Qle_bool (10 ^ 21) (Qabs x) = false)
        by now apply Qle_bool_false_iff.
      now rewrite L, U.
Qed.


(** ** The leading digit *)

Lemma pow10_succ (f : nat) : pow10 (S f) == 10 * pow10 f.
Proof.
  unfold pow10. rewrite Nat2Z.inj_succ, Z.pow_succ_r by lia.
  now rewrite inject_Z_mult.
Qed.

Lemma floor_digit (a : Q) : 1 <= a -> a < 10 -> (1 <= Qfloor a <= 9)%Z.
Proof.
  intros L U. split.
  - change 1%Z with (Qfloor 1). now apply Qfloor_resp_le.
  - pose proof (Qfloor_le a) as F.
    assert (H : inject_Z (Qfloor a) < inject_Z 10) by (change (inject_Z 10) with 10; lra).
    rewrite <- Zlt_Qlt in H. lia.
Qed.

(** [lead_small] finds the digit once the fuel covers the scaling. *)
Lemma lead_small_digit (f : nat) (a : Q) :
  0 < a -> a < 1 -> 1 <= a * pow10 f -> (1 <= lead_small f a <= 9)%Z.
Proof.
  revert a. induction f as [|f IH]; intros a P U E.
  - change (pow10 0) with 1 in E. lra.
  - cbn [lead_small]. destruct (Qle_bool 1 (a * 10)) eqn:B.
    + apply Qle_bool_iff in B. apply floor_digit; lra.
    + apply Qle_bool_false_iff in B. apply IH; try lra.
      rewrite pow10_succ in E. lra.
Qed.

(** [lead_large] finds the digit once the fuel covers the scaling. *)
Lemma lead_large_digit (f : nat) (a : Q) :
  10 <= a -> a < 10 * pow10 f -> (1 <= lead_large f a <= 9)%Z.
Proof.
  revert a. induction f as [|f IH]; intros a L U.
  - change (pow10 0) with 1 in U. lra.
  - cbn [lead_large]. change (a / 10) with (a * (1 # 10)).
    rewrite pow10_succ in U.
    destruct (Qlt_bool (a * (1 # 10)) 10) eqn:B.
    + apply Qlt_bool_iff in B. apply floor_digit; lra.
    + apply Qlt_bool_false_iff in B. apply IH; lra.
Qed.

Lemma pow2_le_pow10 (k : Z) : (0 <= k -> 2 ^ k <= 10 ^ k)%Z.
Proof. intro H. apply Z.pow_le_mono_l. lia. Qed.

(** The fuel of [leading_digit] is enough: a positive number has a
    leading digit between 1 and 9. *)
Lemma leading_digit_range (a : Q) : 0 < a -> (1 <= leading_digit a <= 9)%Z.
Proof.
  intro P. unfold leading_digit.
  destruct a as [n d]. 
  assert (Hn : (0 < n)%Z).
  { unfold Qlt in P. simpl in P. lia. }
  destruct (Qlt_bool (n # d) 1) eqn:B1.
  - apply Qlt_bool_iff in B1. apply lead_small_digit; try assumption.
    cbn [Qden]. set (f := Pos.size_nat d).
    assert (S : (Zpos d < 2 ^ Z.of_nat f)%Z) by (apply Zpower2_Psize; lia).
    pose proof (pow2_le_pow10 (Z.of_nat f) (Nat2Z.is_nonneg f)) as T.
    unfold pow10, Qle, Qmult, inject_Z. cbn [Qnum Qden].
    rewrite Pos.mul_1_r. nia.
  - apply Qlt_bool_false_iff in B1.
    destruct (Qlt_bool (n # d) 10) eqn:B2.
    + apply Qlt_bool_iff in B2. now apply floor_digit.
    + apply Qlt_bool_false_iff in B2. apply lead_large_digit; [assumption|].
      cbn [Qnum].
      pose proof (Z.log2_nonneg n) as L0.
      destruct (Z.log2_spec n Hn) as [_ L].
      unfold Z.succ in L.
      unfold pow10. rewrite Z2Nat.id by lia.
      pose proof (pow2_le_pow10 (Z.log2 n + 1) ltac:(lia)) as T.
      unfold Qlt, Qmult, inject_Z. cbn [Qnum Qden].
      pose proof (Pos2Z.is_pos d). nia.
Qed.

(** On a number printed with an exponent [parseInt] yields a single
    non-zero digit with the number's sign. *)
Lemma parseInt_exponent (x : Q) :
  ~ prints_decimal x -> (1 <= Z.abs (parseInt x) <= 9)%Z.
Proof.
  intro H. unfold parseInt.
  destruct (Qeq_bool x 0) eqn:E0.
  - apply Qeq_bool_iff in E0. exfalso. apply H. now left.
  - assert (N : ~ x == 0).
    { intro Z0. apply Qeq_bool_iff in Z0. congruence. }
    assert (P : 0 < Qabs x).
    { destruct (Qlt_le_dec x 0) as [L|L].
      - rewrite Qabs_neg by lra. lra.
      - rewrite Qabs_pos by exact L.
        destruct (Qle_lt_or_eq _ _ L) as [L'|L']; [exact L'|].
        exfalso. apply N. now symmetry. }
    pose proof (leading_digit_range (Qabs x) P) as D.
    destruct (Qlt_bool (Qabs x) (1 # 10 ^ 6) || Qle_bool (10 ^ 21) (Qabs x)) eqn:B.
    + destruct (Qlt_bool x 0); lia.
    + apply orb_false_iff in B. destruct B as [B1 B2].
      apply Qlt_bool_false_iff in B1. apply Qle_bool_false_iff in B2.
      exfalso. apply H. right. now split.
Qed.

(** ** Doubles: rounding *)

Lemma fexp_normal (x : Z) :
  (Ieee.emin <= x - Ieee.prec)%Z -> fexp Ieee.prec Ieee.emax x = (x - Ieee.prec)%Z.
Proof.
  intro H. unfold fexp. change (emin Ieee.prec Ieee.emax) with Ieee.emin. lia.
Qed.

Lemma fexp_low (x : Z) :
  (x - Ieee.prec <= Ieee.emin)%Z -> fexp Ieee.prec Ieee.emax x = Ieee.emin.
Proof.
  intro H. unfold fexp. change (emin Ieee.prec Ieee.emax) with Ieee.emin. lia.
Qed.

Lemma fexp_ge (x : Z) :
  (x - Ieee.prec <= fexp Ieee.prec Ieee.emax x)%Z /\
  (Ieee.emin <= fexp Ieee.prec Ieee.emax x)%Z.
Proof.
  unfold fexp. change (emin Ieee.prec Ieee.emax) with Ieee.emin. lia.
Qed.

Lemma shr_exponent (mrs : shr_record) (e n : Z) :
  shr mrs (e + 1) n = (fst (shr mrs e n), (snd (shr mrs e n) + 1)%Z).
Proof.
  unfold shr. destruct n; cbn [fst snd]; try reflexivity.
  f_equal. lia.
Qed.

Lemma shr_exponent_ge (mrs : shr_record) (e n : Z) :
  (e <= snd (shr mrs e n))%Z /\ (e + n <= snd (shr mrs e n))%Z.
Proof.
  unfold shr. destruct n; cbn [snd]; lia.
Qed.

Lemma shr_nonpos (mrs : shr_record) (e n : Z) :
  (n <= 0)%Z -> shr mrs e n = (mrs, e).
Proof.
  intro H. unfold shr. destruct n; try reflexivity. lia.
Qed.

Lemma shr_m_of_loc (m : Z) (l : location) : shr_m (shr_record_of_loc m l) = m.
Proof. destruct l as [|[ | | ]]; reflexivity. Qed.

(** Rounding commutes with raising the exponent by one, as long as the
    number rounded is not below the normal range and the result neither
    is nor overflows. *)
Lemma binary_round_aux_shift
    (s : bool) (M E : Z) (l : location) (s' : bool) (m : positive) (e : Z) :
  (Ieee.emin <= Zdigits2 M + E - Ieee.prec)%Z ->
  binary_round_aux Ieee.prec Ieee.emax s M E l = S754_finite s' m e ->
  Zpos (digits2_pos m) = Ieee.prec ->
  (e + 1 <= Ieee.emax - Ieee.prec)%Z ->
  binary_round_aux Ieee.prec Ieee.emax s M (E + 1) l = S754_finite s' m (e + 1).
Proof.
  intros H1 R Hm He. unfold binary_round_aux, shr_fexp in *.
  rewrite fexp_normal in R by exact H1.
  rewrite fexp_normal by lia.
  replace (Zdigits2 M + (E + 1) - Ieee.prec - (E + 1))%Z
    with (Zdigits2 M + E - Ieee.prec - E)%Z by lia.
  rewrite shr_exponent.
  destruct (shr (shr_record_of_loc M l) E (Zdigits2 M + E - Ieee.prec - E))
    as [mrs1 e1] eqn:S1.
  cbn [fst snd] in *.
  assert (G1 : (Ieee.emin <= e1)%Z).
  { pose proof (shr_exponent_ge (shr_record_of_loc M l) E
                  (Zdigits2 M + E - Ieee.prec - E)) as [A B].
    rewrite S1 in A, B. cbn [snd] in A, B. lia. }
  set (m1 := round_nearest_even (shr_m mrs1) (loc_of_shr_record mrs1)) in *.
  destruct (Z_le_gt_dec Ieee.emin (Zdigits2 m1 + e1 - Ieee.prec)) as [H2|H2].
  - rewrite fexp_normal in R by exact H2.
    rewrite fexp_normal by lia.
    replace (Zdigits2 m1 + (e1 + 1) - Ieee.prec - (e1 + 1))%Z
      with (Zdigits2 m1 + e1 - Ieee.prec - e1)%Z by lia.
    rewrite shr_exponent.
    destruct (shr (shr_record_of_loc m1 loc_Exact) e1
                (Zdigits2 m1 + e1 - Ieee.prec - e1)) as [mrs2 e2] eqn:S2.
    cbn [fst snd] in *.
    destruct (shr_m mrs2) as [|m2|m2]; try discriminate R.
    destruct (Z.leb_spec e2 (Ieee.emax - Ieee.prec)); [|discriminate R].
    injection R as <- <- <-.
    destruct (Z.leb_spec (e2 + 1) (Ieee.emax - Ieee.prec)); [reflexivity | lia].
  - exfalso.
    rewrite fexp_low in R by lia.
    rewrite shr_nonpos in R by lia.
    cbn [shr_m shr_record_of_loc] in R.
    destruct m1 as [|m2|m2] eqn:Em; try discriminate R.
    destruct (Z.leb_spec e1 (Ieee.emax - Ieee.prec)); [|discriminate R].
    injection R as _ <- _.
    cbn [Zdigits2] in H2. lia.
Qed.

(** A full mantissa within the exponent range is left as it is. *)
Lemma binary_round_aux_id (s : bool) (m : positive) (e : Z) :
  Zpos (digits2_pos m) = Ieee.prec ->
  (Ieee.emin <= e)%Z -> (e <= Ieee.emax - Ieee.prec)%Z ->
  binary_round_aux Ieee.prec Ieee.emax s (Zpos m) e loc_Exact = S754_finite s m e.
Proof.
  intros Hm L U. unfold binary_round_aux, shr_fexp.
  cbn [Zdigits2]. rewrite Hm.
  rewrite fexp_normal by lia.
  replace (Ieee.prec + e - Ieee.prec - e)%Z with 0%Z by lia.
  cbn [shr shr_record_of_loc loc_of_shr_record shr_m round_nearest_even Zdigits2].
  rewrite Hm. rewrite fexp_normal by lia.
  replace (Ieee.prec + e - Ieee.prec - e)%Z with 0%Z by lia.
  cbn [shr shr_record_of_loc shr_m].
  destruct (Z.leb_spec e (Ieee.emax - Ieee.prec)); [reflexivity | lia].
Qed.

(** Rounding an exact multiple of 2^52 of a full mantissa gives the
    mantissa back, or an infinity when the exponent is too large. *)
Lemma binary_round_aux_exact (s : bool) (m : positive) (e : Z) :
  Zpos (digits2_pos m) = Ieee.prec ->
  (Ieee.emin <= e)%Z ->
  binary_round_aux Ieee.prec Ieee.emax s (Zpos (4503599627370496 * m)) (e - 52) loc_Exact
    = if Z.leb e (Ieee.emax - Ieee.prec) then S754_finite s m e else S754_infinity s.
Proof.
  intros Hm L. unfold binary_round_aux, shr_fexp.
  assert (D : Zdigits2 (Zpos (4503599627370496 * m)) = 105%Z).
  { cbn [Zdigits2 Pos.mul digits2_pos]. unfold Ieee.prec in Hm.
    injection Hm as Hm. rewrite Hm. reflexivity. }
  rewrite D. rewrite fexp_normal by (unfold Ieee.prec; lia).
  replace (105 + (e - 52) - Ieee.prec - (e - 52))%Z with 52%Z by (unfold Ieee.prec; lia).
  cbn [shr shr_record_of_loc iter_pos Pos.mul shr_1 orb].
  cbn [loc_of_shr_record shr_m round_nearest_even].
  cbn [Zdigits2]. rewrite Hm.
  rewrite fexp_normal by lia.
  replace (Ieee.prec + (e - 52 + 52) - Ieee.prec - (e - 52 + 52))%Z with 0%Z by lia.
  cbn [shr shr_record_of_loc shr_m].
  replace (e - 52 + 52)%Z with e by lia. reflexivity.
Qed.

(** Doubling a normal double raises its exponent, or overflows. *)
Lemma mul_two_cases (s : bool) (m : positive) (e : Z) :
  Zpos (digits2_pos m) = Ieee.prec -> (Ieee.emin <= e)%Z ->
  Ieee.mul (Ieee.lit 2) (S754_finite s m e)
    = if Z.leb (e + 1) (Ieee.emax - Ieee.prec)
      then S754_finite s m (e + 1) else S754_infinity s.
Proof.
  intros Hm L.
  change (Ieee.mul (Ieee.lit 2) (S754_finite s m e))
    with (binary_round_aux Ieee.prec Ieee.emax s (Zpos (4503599627370496 * m))
            (-51 + e) loc_Exact).
  replace (-51 + e)%Z with (e + 1 - 52)%Z by lia.
  apply binary_round_aux_exact; [exact Hm | lia].
Qed.

Lemma mul_two (s : bool) (m : positive) (e : Z) :
  Zpos (digits2_pos m) = Ieee.prec ->
  (Ieee.emin <= e)%Z -> (e + 1 <= Ieee.emax - Ieee.prec)%Z ->
  Ieee.mul (Ieee.lit 2) (S754_finite s m e) = S754_finite s m (e + 1).
Proof.
  intros Hm L U. rewrite mul_two_cases by assumption.
  destruct (Z.leb_spec (e + 1) (Ieee.emax - Ieee.prec)); [reflexivity | lia].
Qed.

Lemma digits2_size (p : positive) : digits2_pos p = Pos.size p.
Proof. induction p; cbn; now rewrite ?IHp. Qed.

Lemma digits2_log2 (p : positive) :
  Zpos (digits2_pos p) = (Z.log2 (Zpos p) + 1)%Z.
Proof.
  rewrite digits2_size. destruct p; cbn; lia.
Qed.

Lemma digits2_mul (a b : positive) :
  (Zpos (digits2_pos a) + Zpos (digits2_pos b) - 1
     <= Zpos (digits2_pos (a * b)))%Z.
Proof.
  rewrite !digits2_log2.
  pose proof (Z.log2_mul_below (Zpos a) (Zpos b) ltac:(lia) ltac:(lia)) as H.
  change (Zpos a * Zpos b)%Z with (Zpos (a * b)) in H. lia.
Qed.

Lemma normal_inv (x : Ieee.double) :
  Ieee.normal x = true ->
  exists s m e, x = S754_finite s m e /\ Zpos (digits2_pos m) = Ieee.prec /\
    (Ieee.emin <= e <= Ieee.emax - Ieee.prec)%Z.
Proof.
  destruct x as [| | |s m e]; try discriminate. cbn [Ieee.normal]. intro N.
  apply andb_true_iff in N. destruct N as [N U].
  apply andb_true_iff in N. destruct N as [D L].
  apply Z.eqb_eq in D. apply Z.leb_le in L, U.
  exists s, m, e. repeat split; assumption.
Qed.

(** *** The mantissa of a rounded result *)

Lemma shr_1_digits (mrs : shr_record) :
  (0 <= shr_m mrs)%Z ->
  Zdigits2 (shr_m (shr_1 mrs)) = Z.max 0 (Zdigits2 (shr_m mrs) - 1) /\
  (0 <= shr_m (shr_1 mrs))%Z.
Proof.
  destruct mrs as [m r s]. cbn [shr_m]. intro H.
  destruct m as [|[p|p|]|p]; cbn [shr_1 shr_m Zdigits2 digits2_pos]; try lia.
Qed.

Lemma iter_shr_1_digits (n : positive) (mrs : shr_record) :
  (0 <= shr_m mrs)%Z ->
  Zdigits2 (shr_m (iter_pos shr_1 n mrs)) = Z.max 0 (Zdigits2 (shr_m mrs) - Zpos n) /\
  (0 <= shr_m (iter_pos shr_1 n mrs))%Z.
Proof.
  revert mrs. induction n as [n IH|n IH|]; intros mrs H; cbn [iter_pos].
  - destruct (shr_1_digits mrs H) as [D1 P1].
    destruct (IH _ P1) as [D2 P2]. destruct (IH _ P2) as [D3 P3].
    split; [|exact P3]. rewrite D3, D2, D1. lia.
  - destruct (IH _ H) as [D2 P2]. destruct (IH _ P2) as [D3 P3].
    split; [|exact P3]. rewrite D3, D2. lia.
  - apply shr_1_digits. exact H.
Qed.

Lemma shr_digits (mrs : shr_record) (e n : Z) :
  (0 <= shr_m mrs)%Z ->
  (Zdigits2 (shr_m mrs) - Ieee.prec <= n)%Z ->
  (Zdigits2 (shr_m (fst (shr mrs e n))) <= Ieee.prec)%Z /\
  (0 <= shr_m (fst (shr mrs e n)))%Z.
Proof.
  intros P H. unfold shr. destruct n as [|p|p]; cbn [fst].
  - split; [lia | exact P].
  - destruct (iter_shr_1_digits p mrs P) as [D Q]. split; [|exact Q].
    rewrite D. unfold Ieee.prec in *. lia.
  - split; [lia | exact P].
Qed.

Lemma round_nearest_even_nonneg (m : Z) (l : location) :
  (0 <= m)%Z -> (0 <= round_nearest_even m l)%Z.
Proof.
  intro H. unfold round_nearest_even.
  destruct l as [|[ | | ]]; try destruct (Z.even m); lia.
Qed.

(** Whatever is rounded, a finite result has a mantissa of at most 53
    bits. *)
Lemma binary_round_aux_mantissa
    (s : bool) (M E : Z) (l : location) (s' : bool) (m : positive) (e : Z) :
  (0 <= M)%Z ->
  binary_round_aux Ieee.prec Ieee.emax s M E l = S754_finite s' m e ->
  (Zpos (digits2_pos m) <= Ieee.prec)%Z.
Proof.
  intros P R. unfold binary_round_aux, shr_fexp in R.
  destruct (shr (shr_record_of_loc M l) E
              (fexp Ieee.prec Ieee.emax (Zdigits2 M + E) - E)) as [mrs1 e1] eqn:S1.
  assert (P1 : (0 <= shr_m mrs1)%Z).
  { pose proof (shr_digits (shr_record_of_loc M l) E
                  (fexp Ieee.prec Ieee.emax (Zdigits2 M + E) - E)) as H.
    rewrite shr_m_of_loc, S1 in H. cbn [fst] in H.
    apply H; [exact P|]. pose proof (fexp_ge (Zdigits2 M + E)). lia. }
  set (m1 := round_nearest_even (shr_m mrs1) (loc_of_shr_record mrs1)) in *.
  assert (Q1 : (0 <= m1)%Z) by (apply round_nearest_even_nonneg; exact P1).
  pose proof (shr_digits (shr_record_of_loc m1 loc_Exact) e1
                (fexp Ieee.prec Ieee.emax (Zdigits2 m1 + e1) - e1)) as H.
  rewrite shr_m_of_loc in H.
  destruct (shr (shr_record_of_loc m1 loc_Exact) e1
              (fexp Ieee.prec Ieee.emax (Zdigits2 m1 + e1) - e1)) as [mrs2 e2] eqn:S2.
  cbn [fst] in H.
  destruct H as [D _]; [exact Q1 | pose proof (fexp_ge (Zdigits2 m1 + e1)); lia |].
  destruct (shr_m mrs2) as [|m2|m2]; try discriminate R.
  destruct (Z.leb e2 (Ieee.emax - Ieee.prec)); [|discriminate R].
  injection R as _ <- _. exact D.
Qed.

(** A finite result has an exponent at least the one rounded from. *)
Lemma binary_round_aux_exponent
    (s : bool) (M E : Z) (l : location) (s' : bool) (m : positive) (e : Z) :
  binary_round_aux Ieee.prec Ieee.emax s M E l = S754_finite s' m e -> (E <= e)%Z.
Proof.
  intro R. unfold binary_round_aux, shr_fexp in R.
  pose proof (shr_exponent_ge (shr_record_of_loc M l) E
                (fexp Ieee.prec Ieee.emax (Zdigits2 M + E) - E)) as [A _].
  destruct (shr (shr_record_of_loc M l) E
              (fexp Ieee.prec Ieee.emax (Zdigits2 M + E) - E)) as [mrs1 e1].
  cbn [snd] in A.
  set (m1 := round_nearest_even (shr_m mrs1) (loc_of_shr_record mrs1)) in *.
  pose proof (shr_exponent_ge (shr_record_of_loc m1 loc_Exact) e1
                (fexp Ieee.prec Ieee.emax (Zdigits2 m1 + e1) - e1)) as [B _].
  destruct (shr (shr_record_of_loc m1 loc_Exact) e1
              (fexp Ieee.prec Ieee.emax (Zdigits2 m1 + e1) - e1)) as [mrs2 e2].
  cbn [snd] in B.
  destruct (shr_m mrs2) as [|m2|m2]; try discriminate R.
  destruct (Z.leb e2 (Ieee.emax - Ieee.prec)); [|discriminate R].
  injection R as _ _ <-. lia.
Qed.

(** A finite product has a mantissa of at most 53 bits. *)
Lemma mul_mantissa (x y : Ieee.double) (s : bool) (m : positive) (e : Z) :
  Ieee.mul x y = S754_finite s m e -> (Zpos (digits2_pos m) <= Ieee.prec)%Z.
Proof.
  destruct x as [sx|sx| |sx mx ex], y as [sy|sy| |sy my ey];
    cbn; try discriminate.
  apply binary_round_aux_mantissa. lia.
Qed.


Lemma Zdigits2_log2 (m : Z) :
  (0 < m)%Z -> Zdigits2 m = (Z.log2 m + 1)%Z.
Proof.
  destruct m as [|p|p]; try lia. intros _. apply digits2_log2.
Qed.

Lemma round_nearest_even_digits (m : Z) (l : location) :
  (0 < m)%Z ->
  (Zdigits2 m <= Zdigits2 (round_nearest_even m l) <= Zdigits2 m + 1)%Z.
Proof.
  intro H.
  assert (S : (Zdigits2 m <= Zdigits2 (m + 1) <= Zdigits2 m + 1)%Z).
  { rewrite !Zdigits2_log2 by lia.
    pose proof (Z.log2_le_mono m (m + 1) ltac:(lia)).
    pose proof (Z.log2_succ_le m). unfold Z.succ in *. lia. }
  unfold round_nearest_even.
  destruct l as [|[ | | ]]; try destruct (Z.even m); lia.
Qed.

(** A number of more than 53 bits that is not below the normal range
    rounds to a normal double or overflows. *)
Lemma binary_round_aux_normal (s : bool) (M : positive) (E : Z) (l : location) :
  (Ieee.prec < Zpos (digits2_pos M))%Z ->
  (Ieee.emin <= Zpos (digits2_pos M) + E - Ieee.prec)%Z ->
  match binary_round_aux Ieee.prec Ieee.emax s (Zpos M) E l with
  | S754_finite s' m e => Ieee.normal (S754_finite s' m e) = true
  | S754_infinity _ => True
  | _ => False
  end.
Proof.
  intros HD H1. unfold binary_round_aux, shr_fexp.
  cbn [Zdigits2].
  rewrite fexp_normal by exact H1.
  set (D := Zpos (digits2_pos M)) in *.
  destruct (D + E - Ieee.prec - E)%Z as [|n1|n1] eqn:N1; try lia.
  cbn [shr].
  pose proof (iter_shr_1_digits n1 (shr_record_of_loc (Zpos M) l)) as T.
  rewrite shr_m_of_loc in T. destruct T as [T1 T2]; [lia|].
  cbn [Zdigits2] in T1. fold D in T1.
  set (mrs1 := iter_pos shr_1 n1 (shr_record_of_loc (Zpos M) l)) in *.
  assert (P1 : (0 < shr_m mrs1)%Z).
  { destruct (shr_m mrs1) as [|q|q]; [cbn [Zdigits2] in T1|lia|lia].
    unfold Ieee.prec in *. lia. }
  pose proof (round_nearest_even_digits (shr_m mrs1) (loc_of_shr_record mrs1) P1) as G.
  pose proof (round_nearest_even_nonneg (shr_m mrs1) (loc_of_shr_record mrs1)
                ltac:(lia)) as Q1.
  set (m1 := round_nearest_even (shr_m mrs1) (loc_of_shr_record mrs1)) in *.
  assert (D1 : (Ieee.prec <= Zdigits2 m1 <= Ieee.prec + 1)%Z)
    by (unfold Ieee.prec in *; lia).
  rewrite fexp_normal by lia.
  destruct (Zdigits2 m1 + (E + Z.pos n1) - Ieee.prec - (E + Z.pos n1))%Z
    as [|n2|n2] eqn:N2; try lia; cbn [shr].
  - rewrite shr_m_of_loc.
    destruct m1 as [|q|q] eqn:Em; cbn [Zdigits2] in *;
      [unfold Ieee.prec in D1; lia | | lia].
    destruct (Z.leb_spec (E + Z.pos n1) (Ieee.emax - Ieee.prec)); [|exact I].
    cbn [Ieee.normal].
    apply andb_true_iff. split; [apply andb_true_iff; split|].
    + apply Z.eqb_eq. lia.
    + apply Z.leb_le. lia.
    + now apply Z.leb_le.
  - pose proof (iter_shr_1_digits n2 (shr_record_of_loc m1 loc_Exact)) as U.
    rewrite shr_m_of_loc in U. destruct U as [U1 U2]; [exact Q1|].
    destruct (shr_m (iter_pos shr_1 n2 (shr_record_of_loc m1 loc_Exact)))
      as [|q|q] eqn:Eq; cbn [Zdigits2] in U1;
      [unfold Ieee.prec in *; lia | | lia].
    destruct (Z.leb_spec (E + Z.pos n1 + Z.pos n2) (Ieee.emax - Ieee.prec)); [|exact I].
    cbn [Ieee.normal].
    apply andb_true_iff. split; [apply andb_true_iff; split|].
    + apply Z.eqb_eq. lia.
    + apply Z.leb_le. lia.
    + now apply Z.leb_le.
Qed.

(** *** Products *)

Lemma digits2_upper (p : positive) : (Zpos p < 2 ^ Zpos (digits2_pos p))%Z.
Proof.
  rewrite digits2_log2.
  pose proof (Z.log2_spec (Zpos p) ltac:(lia)) as [_ U].
  unfold Z.succ in U. exact U.
Qed.

(** The magnitude of a finite double. *)
Lemma to_Q_abs (s : bool) (m : positive) (e : Z) :
  Qabs ((if s then - inject_Z (Zpos m) else inject_Z (Zpos m)) * 2 ^ e)
    == inject_Z (Zpos m) * 2 ^ e.
Proof.
  assert (T : 0 < 2 ^ e) by (now apply Qpower_0_lt).
  rewrite Qabs_Qmult, (Qabs_pos (2 ^ e)) by lra.
  destruct s; [rewrite Qabs_opp|]; rewrite Qabs_pos; try reflexivity;
    change 0 with (inject_Z 0); rewrite <- Zle_Qle; lia.
Qed.

(** An exact product of at least 2^-1022, in terms of the mantissas. *)
Lemma product_not_subnormal_digits
    (sv : bool) (mv : positive) (ev : Z) (sb : bool) (mb : positive) (eb : Z) :
  Ieee.product_not_subnormal (S754_finite sv mv ev) (S754_finite sb mb eb) ->
  (Ieee.emin <= Zpos (digits2_pos (mv * mb)) + (ev + eb) - Ieee.prec)%Z.
Proof.
  unfold Ieee.product_not_subnormal. cbn [Ieee.to_Q]. intro H.
  rewrite Qabs_Qmult, !to_Q_abs in H.
  set (D := Zpos (digits2_pos (mv * mb))).
  assert (U : inject_Z (Zpos mv) * 2 ^ ev * (inject_Z (Zpos mb) * 2 ^ eb)
              < 2 ^ (D + (ev + eb))).
  { assert (E : inject_Z (Zpos mv) * 2 ^ ev * (inject_Z (Zpos mb) * 2 ^ eb)
                == inject_Z (Zpos (mv * mb)) * 2 ^ (ev + eb)).
    { rewrite Pos2Z.inj_mul, inject_Z_mult, (Qpower_plus 2 ev eb) by discriminate.
      ring. }
    rewrite E, (Qpower_plus 2 D (ev + eb)) by discriminate.
    apply Qmult_lt_compat_r; [now apply Qpower_0_lt|].
    rewrite <- (Zpower_Qpower 2 D) by (unfold D; lia).
    rewrite <- Zlt_Qlt. apply digits2_upper. }
  assert (L : 2 ^ (-1022) < 2 ^ (D + (ev + eb))) by (eapply Qle_lt_trans; eassumption).
  apply Qpower_lt_compat_l_inv in L; [|reflexivity].
  unfold Ieee.emin, Ieee.prec. lia.
Qed.

(** A finite product of two normal doubles whose exact product is at
    least 2^-1022 is normal. *)
Lemma mul_normal (v br : Ieee.double) :
  Ieee.normal v = true -> Ieee.normal br = true ->
  Ieee.product_not_subnormal v br ->
  Ieee.is_finite (Ieee.mul v br) = true ->
  Ieee.normal (Ieee.mul v br) = true.
Proof.
  intros Nv Nb Hp F.
  destruct (normal_inv v Nv) as (sv & mv & ev & -> & Dv & Lv).
  destruct (normal_inv br Nb) as (sb & mb & eb & -> & Db & Lb).
  pose proof (product_not_subnormal_digits _ _ _ _ _ _ Hp) as H1.
  change (Ieee.mul (S754_finite sv mv ev) (S754_finite sb mb eb))
    with (binary_round_aux Ieee.prec Ieee.emax (xorb sv sb) (Zpos (mv * mb))
            (ev + eb) loc_Exact) in *.
  assert (HD : (Ieee.prec < Zpos (digits2_pos (mv * mb)))%Z).
  { pose proof (digits2_mul mv mb). unfold Ieee.prec in *. lia. }
  pose proof (binary_round_aux_normal (xorb sv sb) (mv * mb) (ev + eb) loc_Exact
                HD H1) as G.
  destruct (binary_round_aux Ieee.prec Ieee.emax (xorb sv sb) (Zpos (mv * mb))
              (ev + eb) loc_Exact) as [s|s| |s m e];
    try discriminate F; [contradiction | exact G].
Qed.

(** A normal double whose double is finite is below the topmost binade. *)
Lemma mul_two_finite (x : Ieee.double) :
  Ieee.normal x = true -> Ieee.is_finite (Ieee.mul (Ieee.lit 2) x) = true ->
  (Ieee.exponent x + 1 <= Ieee.emax - Ieee.prec)%Z.
Proof.
  intros N F. destruct (normal_inv x N) as (s & m & e & -> & D & L).
  rewrite mul_two_cases in F by (assumption || lia).
  cbn [Ieee.exponent].
  destruct (Z.leb_spec (e + 1) (Ieee.emax - Ieee.prec)); [assumption | discriminate F].
Qed.

Lemma mul_two_finite_arg (x : Ieee.double) :
  Ieee.is_finite (Ieee.mul (Ieee.lit 2) x) = true -> Ieee.is_finite x = true.
Proof.
  destruct x as [s|s| |s m e]; try reflexivity; intro F; vm_compute in F; discriminate F.
Qed.

(** Doubling one factor doubles the product, when both factors are
    normal, the exact product is at least 2^-1022 and neither the doubled
    factor nor the doubled product overflows. *)
Lemma mul_two_assoc (v br : Ieee.double) :
  Ieee.normal v = true -> Ieee.normal br = true ->
  Ieee.product_not_subnormal v br ->
  Ieee.is_finite (Ieee.mul (Ieee.lit 2) v) = true ->
  Ieee.is_finite (Ieee.mul (Ieee.lit 2) (Ieee.mul v br)) = true ->
  Ieee.mul (Ieee.mul (Ieee.lit 2) v) br = Ieee.mul (Ieee.lit 2) (Ieee.mul v br).
Proof.
  intros Nv Nb Hs Fv Fp.
  pose proof (mul_normal v br Nv Nb Hs (mul_two_finite_arg _ Fp)) as Np.
  pose proof (mul_two_finite v Nv Fv) as Ev.
  pose proof (mul_two_finite _ Np Fp) as Ep.
  destruct (normal_inv v Nv) as (sv & mv & ev & -> & Dv & Lv).
  destruct (normal_inv br Nb) as (sb & mb & eb & -> & Db & Lb).
  pose proof (product_not_subnormal_digits _ _ _ _ _ _ Hs) as H1.
  destruct (normal_inv _ Np) as (s & m & e & Hp & Dp & Lp).
  rewrite Hp in *. cbn [Ieee.exponent] in *.
  rewrite (mul_two sv mv ev Dv ltac:(lia) ltac:(lia)).
  rewrite (mul_two s m e Dp ltac:(lia) ltac:(lia)).
  change (Ieee.mul (S754_finite sv mv (ev + 1)) (S754_finite sb mb eb))
    with (binary_round_aux Ieee.prec Ieee.emax (xorb sv sb) (Zpos (mv * mb))
            (ev + 1 + eb) loc_Exact).
  change (Ieee.mul (S754_finite sv mv ev) (S754_finite sb mb eb))
    with (binary_round_aux Ieee.prec Ieee.emax (xorb sv sb) (Zpos (mv * mb))
            (ev + eb) loc_Exact) in Hp.
  replace (ev + 1 + eb)%Z with (ev + eb + 1)%Z by lia.
  apply binary_round_aux_shift; [|exact Hp|exact Dp|lia].
  cbn [Zdigits2]. exact H1.
Qed.

(** *** Integers as doubles *)

Lemma iter_xO_digits (k p : positive) :
  Zpos (digits2_pos (Pos.iter xO p k)) = (Zpos (digits2_pos p) + Zpos k)%Z.
Proof.
  induction k as [|k IH] using Pos.peano_ind.
  - cbn. lia.
  - rewrite Pos.iter_succ. cbn [digits2_pos]. lia.
Qed.

Lemma iter_xO_value (k p : positive) :
  Zpos (Pos.iter xO p k) = (Zpos p * 2 ^ Zpos k)%Z.
Proof.
  induction k as [|k IH] using Pos.peano_ind.
  - cbn. lia.
  - rewrite Pos.iter_succ, Pos2Z.inj_succ, Z.pow_succ_r by lia.
    rewrite Pos2Z.inj_xO, IH. ring.
Qed.

Lemma digits2_bound (p : positive) :
  (Zpos (digits2_pos p) <= Ieee.prec)%Z <-> (Zpos p < 2 ^ 53)%Z.
Proof.
  rewrite digits2_log2. unfold Ieee.prec.
  rewrite (Z.log2_lt_pow2 (Zpos p) 53) by lia. lia.
Qed.

(** An integer of at most 53 bits is its own double: the mantissa is the
    integer shifted to 53 bits. *)
Lemma binary_round_small (s : bool) (p : positive) :
  (Zpos (digits2_pos p) <= Ieee.prec)%Z ->
  exists mz : positive,
    binary_round Ieee.prec Ieee.emax s p 0
      = S754_finite s mz (Zpos (digits2_pos p) - Ieee.prec) /\
    Zpos mz = (Zpos p * 2 ^ (Ieee.prec - Zpos (digits2_pos p)))%Z.
Proof.
  intro D. unfold binary_round, shl_align.
  rewrite fexp_normal by (unfold Ieee.emin, Ieee.prec in *; lia).
  destruct (Zpos (digits2_pos p) + 0 - Ieee.prec - 0)%Z as [|k|k] eqn:K.
  - exists p. split.
    + rewrite binary_round_aux_id by (unfold Ieee.emin, Ieee.emax, Ieee.prec in *; lia).
      f_equal. lia.
    + replace (Ieee.prec - Zpos (digits2_pos p))%Z with 0%Z by lia. lia.
  - lia.
  - exists (Pos.iter xO p k). split.
    + replace (Zpos (digits2_pos p) + 0 - Ieee.prec)%Z
        with (Zpos (digits2_pos p) - Ieee.prec)%Z by lia.
      apply binary_round_aux_id.
      * rewrite iter_xO_digits. lia.
      * unfold Ieee.emin, Ieee.prec in *. lia.
      * unfold Ieee.emax, Ieee.prec in *. lia.
    + rewrite iter_xO_value. f_equal. f_equal. lia.
Qed.

(** The value of a mantissa shifted left and scaled back. *)
Lemma scaled_back (z k : Z) :
  (0 <= k)%Z -> inject_Z (z * 2 ^ k) * 2 ^ (- k) == inject_Z z.
Proof.
  intro H. rewrite inject_Z_mult, Zpower_Qpower by exact H.
  change (inject_Z 2) with 2.
  rewrite <- Qmult_assoc, <- Qpower_plus by discriminate.
  replace (k + - k)%Z with 0%Z by lia. cbn. ring.
Qed.

Lemma of_Z_small (n : Z) :
  (n <> 0)%Z -> (Z.abs n < 2 ^ 53)%Z ->
  exists (mz : positive) (k : Z),
    Ieee.of_Z n = S754_finite (Z.ltb n 0) mz (- k) /\
    (0 <= k)%Z /\ Zpos mz = (Z.abs n * 2 ^ k)%Z.
Proof.
  intros N B. unfold Ieee.of_Z, binary_normalize.
  assert (R : forall s p, (Zpos p < 2 ^ 53)%Z ->
            exists (mz : positive) (k : Z),
              binary_round Ieee.prec Ieee.emax s p 0 = S754_finite s mz (- k) /\
              (0 <= k)%Z /\ Zpos mz = (Zpos p * 2 ^ k)%Z).
  { intros s p Hp. apply digits2_bound in Hp.
    destruct (binary_round_small s p Hp) as (mz & E & V).
    exists mz, (Ieee.prec - Zpos (digits2_pos p))%Z.
    split; [rewrite E; f_equal; lia|]. split; [lia | exact V]. }
  destruct n as [|p|p]; [congruence| |].
  - exact (R false p B).
  - exact (R true p B).
Qed.

Lemma of_Z_value (n : Z) :
  (n <> 0)%Z -> (Z.abs n < 2 ^ 53)%Z ->
  exists z : Q, Ieee.to_Q (Ieee.of_Z n) = Some z /\ z == inject_Z n.
Proof.
  intros N B. destruct (of_Z_small n N B) as (mz & k & E & K & V).
  rewrite E. cbn [Ieee.to_Q]. eexists. split; [reflexivity|].
  rewrite V. destruct (Z.ltb_spec n 0) as [L|L].
  - rewrite <- inject_Z_opp.
    replace (- (Z.abs n * 2 ^ k))%Z with (n * 2 ^ k)%Z by (rewrite Z.abs_neq by lia; ring).
    now apply scaled_back.
  - rewrite Z.abs_eq by lia. now apply scaled_back.
Qed.

(** The double of any integer is an integer, unless it is infinite. *)
Lemma of_Z_whole (n : Z) : Ieee.whole (Ieee.of_Z n).
Proof.
  unfold Ieee.whole. intro F.
  destruct (Z.eq_dec n 0) as [->|N]; [reflexivity|].
  destruct (Z_lt_le_dec (Z.abs n) (2 ^ 53)) as [B|B].
  - destruct (of_Z_small n N B) as (mz & k & E & K & V).
    rewrite E. cbn [Ieee.is_integer]. apply orb_true_iff. right.
    apply Z.eqb_eq. rewrite Z.opp_involutive, V. apply Z.mod_mul.
    pose proof (Z.pow_pos_nonneg 2 k). lia.
  - assert (R : forall s p, (2 ^ 53 <= Zpos p)%Z ->
               Ieee.is_finite (binary_round Ieee.prec Ieee.emax s p 0) = true ->
               Ieee.is_integer (binary_round Ieee.prec Ieee.emax s p 0) = true).
    { intros s p Hp. unfold binary_round, shl_align.
      assert (D : (Ieee.prec < Zpos (digits2_pos p))%Z).
      { destruct (Z_lt_le_dec Ieee.prec (Zpos (digits2_pos p))) as [G|G]; [exact G|].
        apply digits2_bound in G. lia. }
      rewrite fexp_normal by (unfold Ieee.emin, Ieee.prec in *; lia).
      destruct (Zpos (digits2_pos p) + 0 - Ieee.prec - 0)%Z as [|k|k] eqn:K; try lia.
      destruct (binary_round_aux Ieee.prec Ieee.emax s (Zpos p) 0 loc_Exact)
        as [| | |s' m e] eqn:A; try reflexivity; try discriminate.
      intros _. apply binary_round_aux_exponent in A.
      cbn [Ieee.is_integer]. apply orb_true_iff. left. now apply Z.leb_le. }
    unfold Ieee.of_Z, binary_normalize in *.
    destruct n as [|p|p]; [congruence| |]; apply R; (lia || exact F).
Qed.

(** *** [Math.round] *)

(** [Math.round] gives an integer, unless its argument is not finite. *)
Lemma Math_round_whole (x : Ieee.double) : Ieee.whole (Ieee.Math_round x).
Proof.
  destruct x as [s|s| |s m e]; try (intro F; (reflexivity || discriminate F)).
  unfold Ieee.Math_round.
  destruct (Ieee.is_integer (S754_finite s m e)) eqn:I; [intros _; exact I|].
  unfold Ieee.integral. destruct (Z.eqb _ 0); [intros _; reflexivity|].
  apply of_Z_whole.
Qed.

(** The value of an integral double is an integer. *)
Lemma integer_value (s : bool) (m : positive) (e : Z) :
  Ieee.is_integer (S754_finite s m e) = true ->
  exists n : Z,
    (if s then - inject_Z (Zpos m) else inject_Z (Zpos m)) * 2 ^ e == inject_Z n.
Proof.
  cbn [Ieee.is_integer]. intro I. apply orb_true_iff in I.
  destruct I as [I|I].
  - apply Z.leb_le in I.
    exists ((if s then - Zpos m else Zpos m) * 2 ^ e)%Z.
    rewrite inject_Z_mult, Zpower_Qpower by exact I.
    change (inject_Z 2) with 2. destruct s; [rewrite inject_Z_opp|]; reflexivity.
  - apply Z.eqb_eq in I.
    destruct (Z_le_gt_dec 0 e) as [P|P].
    + exists ((if s then - Zpos m else Zpos m) * 2 ^ e)%Z.
      rewrite inject_Z_mult, Zpower_Qpower by exact P.
      change (inject_Z 2) with 2. destruct s; [rewrite inject_Z_opp|]; reflexivity.
    + assert (Pw : (0 < 2 ^ (- e))%Z) by (apply Z.pow_pos_nonneg; lia).
      apply Z.div_exact in I; [|lia].
      set (k := (Zpos m / 2 ^ (- e))%Z) in *.
      exists (if s then - k else k)%Z.
      rewrite I, (Z.mul_comm (2 ^ (- e)) k).
      destruct s.
      * rewrite <- inject_Z_opp.
        replace (- (k * 2 ^ (- e)))%Z with (- k * 2 ^ (- e))%Z by ring.
        pose proof (scaled_back (- k) (- e) ltac:(lia)) as H.
        rewrite Z.opp_involutive in H. exact H.
      * pose proof (scaled_back k (- e) ltac:(lia)) as H.
        rewrite Z.opp_involutive in H. exact H.
Qed.

(** A double with a fractional part is below 2^52 in magnitude. *)
Lemma fraction_bound (s : bool) (m : positive) (e : Z) :
  (Zpos (digits2_pos m) <= Ieee.prec)%Z -> (e < 0)%Z ->
  - 4503599627370496
    < (if s then - inject_Z (Zpos m) else inject_Z (Zpos m)) * 2 ^ e
    < 4503599627370496.
Proof.
  intros D E. apply digits2_bound in D.
  assert (T0 : 0 < 2 ^ e) by (now apply Qpower_0_lt).
  assert (T1 : 2 ^ e <= 1 # 2).
  { change (1 # 2) with (2 ^ (-1)). apply Qpower_le_compat_l; [lia|discriminate]. }
  assert (M0 : 0 < inject_Z (Zpos m)) by reflexivity.
  assert (M1 : inject_Z (Zpos m) <= 9007199254740991).
  { change 9007199254740991 with (inject_Z 9007199254740991).
    rewrite <- Zle_Qle. change (2 ^ 53)%Z with 9007199254740992%Z in D. lia. }
  set (t := 2 ^ e) in *. set (M := inject_Z (Zpos m)) in *.
  destruct s; split; nra.
Qed.

(** [Math.round] of a double with a mantissa of at most 53 bits is the
    integer nearest to it, the upper one on a tie. *)
Lemma Math_round_nearest (s : bool) (m : positive) (e : Z) :
  (Zpos (digits2_pos m) <= Ieee.prec)%Z ->
  Ieee.nearest_integer (S754_finite s m e) (Ieee.Math_round (S754_finite s m e)).
Proof.
  intro D. unfold Ieee.nearest_integer, Ieee.Math_round. cbn [Ieee.to_Q].
  set (q := (if s then - inject_Z (Zpos m) else inject_Z (Zpos m)) * 2 ^ e).
  destruct (Ieee.is_integer (S754_finite s m e)) eqn:I.
  - destruct (integer_value s m e I) as [n Hn]. fold q in Hn.
    exists n, q. cbn [Ieee.to_Q]. split; [reflexivity|].
    split; [exact Hn|]. rewrite <- Hn. split; lra.
  - assert (E : (e < 0)%Z).
    { cbn [Ieee.is_integer] in I. apply orb_false_iff in I.
      destruct I as [I _]. now apply Z.leb_gt in I. }
    pose proof (fraction_bound s m e D E) as [B0 B1]. fold q in B0, B1.
    set (n := Qfloor (q + (1 # 2))).
    pose proof (Qfloor_le (q + (1 # 2))) as L.
    pose proof (Qlt_floor (q + (1 # 2))) as U.
    fold n in L, U. rewrite inject_Z_plus in U. change (inject_Z 1) with 1 in U.
    unfold Ieee.integral.
    destruct (Z.eqb_spec n 0) as [Z0|N0].
    + exists n, 0. cbn [Ieee.to_Q]. split; [reflexivity|].
      split; [rewrite Z0; reflexivity|]. split; lra.
    + assert (Bn : (Z.abs n < 2 ^ 53)%Z).
      { assert (A1 : inject_Z n < inject_Z 4503599627370497).
        { change (inject_Z 4503599627370497) with 4503599627370497. lra. }
        assert (A2 : inject_Z (-4503599627370497) < inject_Z n).
        { change (inject_Z (-4503599627370497)) with (-4503599627370497). lra. }
        rewrite <- Zlt_Qlt in A1, A2.
        change (2 ^ 53)%Z with 9007199254740992%Z. lia. }
      destruct (of_Z_value n N0 Bn) as (z & Hz & Ez).
      exists n, z. split; [exact Hz|]. split; [exact Ez|]. split; lra.
Qed.

(** The same for any product. *)
Lemma Math_round_mul_nearest (x y : Ieee.double) :
  Ieee.nearest_integer (Ieee.mul x y) (Ieee.Math_round (Ieee.mul x y)).
Proof.
  destruct (Ieee.mul x y) as [s|s| |s m e] eqn:P.
  - unfold Ieee.nearest_integer. cbn [Ieee.to_Q Ieee.Math_round].
    exists 0%Z, 0. split; [reflexivity|]. split; [reflexivity|].
    split; [reflexivity | discriminate].
  - reflexivity.
  - reflexivity.
  - apply Math_round_nearest. exact (mul_mantissa x y s m e P).
Qed.

(** ** Grid sizer *)

Section GridSizer.

Variable w : Z.

Let fits (t : Threshold) : bool := Qle_bool (inject_Z w) (maxImageWidth t).

(** Once a match is recorded the loop changes nothing. *)
Lemma scan_matched (ths : list Threshold) (st : scan) :
  hasThresholdMatch st = true -> fold_left (scan_body w) ths st = st.
Proof.
  revert st. induction ths as [|t ths IH]; intros st H; simpl; [reflexivity|].
  unfold scan_body at 2. rewrite H. simpl. now apply IH.
Qed.

(** The loop records the first entry that fits. *)
Lemma scan_find (ths : list Threshold) (st : scan) :
  hasThresholdMatch st = false ->
  fold_left (scan_body w) ths st =
    match find fits ths with
    | Some t => {| hasThresholdMatch := true; threshold := Some t |}
    | None => st
    end.
Proof.
  revert st. induction ths as [|t ths IH]; intros st H; simpl; [reflexivity|].
  unfold scan_body at 2. rewrite H. simpl. unfold fits at 1.
  destruct (Qle_bool (inject_Z w) (maxImageWidth t)).
  - now apply scan_matched.
  - now apply IH.
Qed.

Lemma last_cons (u d : Threshold) (l : list Threshold) :
  last (u :: l) d = last l u.
Proof.
  revert u d. induction l as [|v l IH]; intros u d; [reflexivity|].
  change (last (u :: v :: l) d) with (last (v :: l) d).
  now rewrite !IH.
Qed.

Lemma nth_error_last (t : Threshold) (ts : list Threshold) :
  nth_error (t :: ts) (length (t :: ts) - 1) = Some (last ts t).
Proof.
  simpl length. rewrite Nat.sub_succ, Nat.sub_0_r.
  revert t. induction ts as [|u ts IH]; intro t; [reflexivity|].
  simpl length. simpl nth_error. rewrite IH. now rewrite last_cons.
Qed.

Lemma selected_threshold_spec (ths : list Threshold) :
  selected_threshold w ths = spec_select w ths.
Proof.
  unfold selected_threshold, spec_select.
  rewrite scan_find by reflexivity. fold fits.
  destruct (find fits ths) as [t|]; simpl; [reflexivity|].
  destruct ths as [|t ts]; [reflexivity|].
  apply nth_error_last.
Qed.

End GridSizer.

Lemma clamp_spec (t : Threshold) (raw : Q) : clamp t raw = spec_clamp t raw.
Proof.
  unfold clamp, spec_clamp.
  destruct (maxBrickSize t), (minBrickSize t); reflexivity.
Qed.

Lemma spec_select_nonempty (w : Z) (ths : list Threshold) :
  ths <> [] -> exists t, spec_select w ths = Some t.
Proof.
  intro H. unfold spec_select.
  destruct (find _ ths) as [t|]; [now exists t|].
  destruct ths as [|t ts]; [congruence|]. now eexists.
Qed.

(** The code against the specified selection and clamp, for any raw size. *)
Lemma getGridSize_of_raw (w : Z) (r : Q) (ths : list Threshold) :
  _getGridSize w r ths =
    match spec_gridSize_of (parseInt (inject_Z w * r)) w ths with
    | Some g => Normal g
    | None => Throw
    end.
Proof.
  unfold _getGridSize, spec_gridSize_of.
  rewrite selected_threshold_spec.
  destruct (spec_select w ths) as [t|]; simpl; [|reflexivity].
  now rewrite clamp_spec.
Qed.

(** ** Grid sizer on doubles *)

Section DoubleGridSizer.

Variable w : Ieee.double.

Let fits (t : Ieee.Threshold) : bool := Ieee.leb w (Ieee.maxImageWidth t).

(** Once a match is recorded the loop changes nothing. *)
Lemma double_scan_matched (ths : list Ieee.Threshold) (st : Ieee.scan) :
  Ieee.hasThresholdMatch st = true -> fold_left (Ieee.scan_body w) ths st = st.
Proof.
  revert st. induction ths as [|t ths IH]; intros st H; simpl; [reflexivity|].
  unfold Ieee.scan_body at 2. rewrite H. simpl. now apply IH.
Qed.

(** The loop records the first entry that fits. *)
Lemma double_scan_find (ths : list Ieee.Threshold) (st : Ieee.scan) :
  Ieee.hasThresholdMatch st = false ->
  fold_left (Ieee.scan_body w) ths st =
    match find fits ths with
    | Some t => {| Ieee.hasThresholdMatch := true; Ieee.threshold := Some t |}
    | None => st
    end.
Proof.
  revert st. induction ths as [|t ths IH]; intros st H; simpl; [reflexivity|].
  unfold Ieee.scan_body at 2. rewrite H. simpl. unfold fits at 1.
  destruct (Ieee.leb w (Ieee.maxImageWidth t)).
  - now apply double_scan_matched.
  - now apply IH.
Qed.

End DoubleGridSizer.

Lemma last_cons_any {A : Type} (u d : A) (l : list A) :
  last (u :: l) d = last l u.
Proof.
  revert u d. induction l as [|v l IH]; intros u d; [reflexivity|].
  change (last (u :: v :: l) d) with (last (v :: l) d).
  now rewrite !IH.
Qed.

Lemma nth_error_last_any {A : Type} (t : A) (ts : list A) :
  nth_error (t :: ts) (length (t :: ts) - 1) = Some (last ts t).
Proof.
  simpl length. rewrite Nat.sub_succ, Nat.sub_0_r.
  revert t. induction ts as [|u ts IH]; intro t; [reflexivity|].
  simpl length. simpl nth_error. rewrite IH. now rewrite last_cons_any.
Qed.

Lemma double_selected_threshold_spec (w : Z) (ths : list Ieee.Threshold) :
  Ieee.selected_threshold (Ieee.of_Z w) ths = Ieee.spec_select w ths.
Proof.
  unfold Ieee.selected_threshold, Ieee.spec_select.
  rewrite double_scan_find by reflexivity.
  destruct (find _ ths) as [t|]; simpl; [reflexivity|].
  destruct ths as [|t ts]; [reflexivity|].
  apply nth_error_last_any.
Qed.

Lemma double_clamp_spec (t : Ieee.Threshold) (raw : Ieee.double) :
  Ieee.clamp t raw = Ieee.spec_clamp t raw.
Proof.
  unfold Ieee.clamp, Ieee.spec_clamp.
  destruct (Ieee.maxBrickSize t), (Ieee.minBrickSize t); reflexivity.
Qed.

Lemma double_spec_select_nonempty (w : Z) (ths : list Ieee.Threshold) :
  ths <> [] -> exists t, Ieee.spec_select w ths = Some t.
Proof.
  intro H. unfold Ieee.spec_select.
  destruct (find _ ths) as [t|]; [now exists t|].
  destruct ths as [|t ts]; [congruence|]. now eexists.
Qed.

(** The code against the specified selection and clamp, for any raw size. *)
Lemma double_getGridSize_of_raw (w : Z) (r : Ieee.double) (ths : list Ieee.Threshold) :
  Ieee._getGridSize w r ths =
    match Ieee.spec_gridSize_of (Ieee.parseInt (Ieee.mul (Ieee.of_Z w) r)) w ths with
    | Some g => Normal g
    | None => Throw
    end.
Proof.
  unfold Ieee._getGridSize, Ieee.spec_gridSize_of.
  rewrite double_selected_threshold_spec.
  destruct (Ieee.spec_select w ths) as [t|]; simpl; [|reflexivity].
  now rewrite double_clamp_spec.
Qed.

(** On a number that is not negative and is printed without an exponent
    [parseInt] is [Math.floor]. *)
Lemma parseInt_plain (x : Ieee.double) :
  Ieee.plain_nonneg x = true -> Ieee.parseInt x = Ieee.Math_floor x.
Proof.
  destruct x as [[|]|s| |[|] m e]; try discriminate; [reflexivity|].
  cbn [Ieee.plain_nonneg]. intro H. unfold Ieee.parseInt. rewrite H.
  reflexivity.
Qed.

(** The numbers printed without an exponent, at the ends of their range;
    there the shortest decimal has its [n] above -6 and at most 21, and
    beyond them it has not. *)
Example plain_nonneg_range :
  Ieee.plain_nonneg (Ieee.lit 0) = true /\
  Ieee.plain_nonneg (Ieee.lit 0.000001) = true /\
  Ieee.plain_nonneg (Ieee.lit 0.0000009) = false /\
  Ieee.plain_nonneg (Ieee.of_Z (10 ^ 21 - 100000)) = true /\
  Ieee.plain_nonneg (Ieee.of_Z (10 ^ 21)) = false /\
  Ieee.plain_nonneg (Ieee.lit (-1)) = false /\
  Ieee.of_Z (10 ^ 21 - 100000) = S754_finite false 7629394531249999 17 /\
  option_map Ieee.d_n (Ieee.shortest 7629394531249999 17) = Some 21%Z /\
  Ieee.of_Z (10 ^ 21) = S754_finite false 7629394531250000 17 /\
  option_map Ieee.d_n (Ieee.shortest 7629394531250000 17) = Some 22%Z /\
  Ieee.lit 0.000001 = S754_finite false 4722366482869645 (-72) /\
  option_map Ieee.d_n (Ieee.shortest 4722366482869645 (-72)) = Some (-5)%Z /\
  option_map Ieee.d_n (Ieee.shortest 4722366482869644 (-72)) = Some (-6)%Z.
Proof. repeat split; vm_compute; reflexivity. Qed.

(** C1 (as amended): for every image width, ratio and non-empty threshold
    sequence, [_getGridSize] returns the clamp, by the first threshold
    whose [maxImageWidth >= w] or else by the last one, max before min and
    at most one of them, of [raw = parseInt(w * r)], the product being the
    double the engine computes; and that [raw] is [floor(w * r)] whenever
    the product is not negative and is printed without an exponent, in
    which case the result is the specified grid size. *)
Theorem getGridSize_spec (w : Z) (r : Ieee.double) (ths : list Ieee.Threshold) :
  ths <> [] ->
  exists g,
    Ieee._getGridSize w r ths = Normal g /\
    Ieee.spec_gridSize_of (Ieee.parseInt (Ieee.mul (Ieee.of_Z w) r)) w ths = Some g /\
    (Ieee.plain_nonneg (Ieee.mul (Ieee.of_Z w) r) = true ->
     Ieee.parseInt (Ieee.mul (Ieee.of_Z w) r)
       = Ieee.Math_floor (Ieee.mul (Ieee.of_Z w) r) /\
     Ieee.spec_gridSize w r ths = Some g).
Proof.
  intro Hne. rewrite double_getGridSize_of_raw.
  destruct (double_spec_select_nonempty w ths Hne) as [t Ht].
  unfold Ieee.spec_gridSize, Ieee.spec_gridSize_of. rewrite Ht. simpl.
  eexists. split; [reflexivity|]. split; [reflexivity|].
  intro Hp. rewrite (parseInt_plain _ Hp). split; reflexivity.
Qed.

Lemma getGridSize_spec_witness :
  Ieee.s_thresholds Ieee.defaults <> [] /\
  Ieee.plain_nonneg (Ieee.mul (Ieee.of_Z 280) (Ieee.s_ratio Ieee.defaults)) = true /\
  exists g,
    Ieee._getGridSize 280 (Ieee.s_ratio Ieee.defaults)
      (Ieee.s_thresholds Ieee.defaults) = Normal g /\
    Ieee.spec_gridSize_of
      (Ieee.parseInt (Ieee.mul (Ieee.of_Z 280) (Ieee.s_ratio Ieee.defaults)))
      280 (Ieee.s_thresholds Ieee.defaults) = Some g /\
    Ieee.parseInt (Ieee.mul (Ieee.of_Z 280) (Ieee.s_ratio Ieee.defaults))
      = Ieee.Math_floor (Ieee.mul (Ieee.of_Z 280) (Ieee.s_ratio Ieee.defaults)) /\
    Ieee.spec_gridSize 280 (Ieee.s_ratio Ieee.defaults)
      (Ieee.s_thresholds Ieee.defaults) = Some g.
Proof.
  assert (N : Ieee.s_thresholds Ieee.defaults <> []) by discriminate.
  assert (P : Ieee.plain_nonneg
                (Ieee.mul (Ieee.of_Z 280) (Ieee.s_ratio Ieee.defaults)) = true)
    by (vm_compute; reflexivity).
  split; [exact N|]. split; [exact P|].
  destruct (getGridSize_spec 280 (Ieee.s_ratio Ieee.defaults)
              (Ieee.s_thresholds Ieee.defaults) N) as (g & H1 & H2 & H3).
  exists g. split; [exact H1|]. split; [exact H2|]. exact (H3 P).
Defined.

(** C1 (as stated) fails where [parseInt] is not the floor.  With a
    negative ratio it truncates toward zero: width 100 and ratio -0.025
    give the product -2.5, the code returns -2, the claim -3.  With a
    product below 1e-6, printed with an exponent, it reads the leading
    digit: width 1 and ratio 9e-7 give 9, the claim 0. *)
Lemma getGridSize_not_floor :
  Ieee._getGridSize 100 (Ieee.lit (-0.025)) Ieee.unclamped = Normal (Ieee.lit (-2)) /\
  Ieee.spec_gridSize 100 (Ieee.lit (-0.025)) Ieee.unclamped = Some (Ieee.lit (-3)) /\
  Ieee.lit (-2) <> Ieee.lit (-3) /\
  Ieee._getGridSize 1 (Ieee.lit 0.0000009) Ieee.unclamped = Normal (Ieee.lit 9) /\
  Ieee.spec_gridSize 1 (Ieee.lit 0.0000009) Ieee.unclamped = Some (Ieee.lit 0) /\
  Ieee.lit 9 <> Ieee.lit 0.
Proof.
  split; [vm_compute; reflexivity|]. split; [vm_compute; reflexivity|].
  split; [vm_compute; discriminate|].
  split; [vm_compute; reflexivity|]. split; [vm_compute; reflexivity|].
  vm_compute; discriminate.
Qed.

(** The product is the rounded one: 3 * 0.3333333333333333 is exactly 1
    and 100 * 0.29 is 28.999999999999996, so the raw sizes are 1 and 28;
    and a product that overflows gives [NaN], which no clamp changes. *)
Example getGridSize_rounded_product :
  Ieee._getGridSize 3 (Ieee.lit 0.3333333333333333) Ieee.unclamped
    = Normal (Ieee.lit 1) /\
  Ieee._getGridSize 100 (Ieee.lit 0.29) Ieee.unclamped = Normal (Ieee.lit 28) /\
  Ieee._getGridSize 1000 (Ieee.of_Z (10 ^ 306)) (Ieee.s_thresholds Ieee.defaults)
    = Normal Ieee.NaN.
Proof. repeat split; vm_compute; reflexivity. Qed.

(** The scenarios of the default table, on doubles. *)
Example default_scenarios_double :
  Ieee._getGridSize 280 (Ieee.s_ratio Ieee.defaults) (Ieee.s_thresholds Ieee.defaults)
    = Normal (Ieee.lit 7) /\
  Ieee._getGridSize 301 (Ieee.s_ratio Ieee.defaults) (Ieee.s_thresholds Ieee.defaults)
    = Normal (Ieee.lit 15) /\
  Ieee._getGridSize 1000 (Ieee.s_ratio Ieee.defaults) (Ieee.s_thresholds Ieee.defaults)
    = Normal (Ieee.lit 25) /\
  Ieee._getGridSize 2000 (Ieee.s_ratio Ieee.defaults) (Ieee.s_thresholds Ieee.defaults)
    = Normal (Ieee.lit 36).
Proof. repeat split; vm_compute; reflexivity. Qed.

(** *** The default table on doubles *)

Lemma identical_eq (a b : Ieee.double) : Ieee.identical a b = true -> a = b.
Proof.
  destruct a as [s|s| |s m e], b as [t|t| |t n f]; cbn; try discriminate.
  - intro H. apply Bool.eqb_prop in H. now subst.
  - intro H. apply Bool.eqb_prop in H. now subst.
  - reflexivity.
  - intro H. apply andb_true_iff in H. destruct H as [H H3].
    apply andb_true_iff in H. destruct H as [H1 H2].
    apply Bool.eqb_prop in H1. apply Pos.eqb_eq in H2. apply Z.eqb_eq in H3.
    now subst.
Qed.

Lemma all_widths_spec (n : nat) (p : Z -> bool) :
  Ieee.all_widths n p = true ->
  forall w, (0 < w <= Z.of_nat n)%Z -> p w = true.
Proof.
  induction n as [|n IH]; intros H w Hw; [lia|].
  cbn [Ieee.all_widths] in H. apply andb_true_iff in H. destruct H as [H1 H2].
  destruct (Z.eq_dec w (Z.of_nat (S n))) as [->|N]; [exact H1|].
  apply IH; [exact H2 | lia].
Qed.


(** Only one clamp is applied: when the max clamp fires, the min bound is
    not enforced on its result. *)
Example clamp_max_only :
  clamp {| maxImageWidth := 300; minBrickSize := Some 10; maxBrickSize := Some 5 |} 7 = 5.
Proof. reflexivity. Qed.

(** *** The default table *)

Lemma default_thresholds : s_thresholds defaults = [th1; th2; th3].
Proof. reflexivity. Qed.

(** C6: with the default settings width 280 gives raw size 7, which
    neither clamp of threshold 1 changes, hence grid size 7; width 300
    selects threshold 1 and width 301 threshold 2, where raw size 7 is
    raised to the minimum 15. *)
Theorem scenario_width_280 :
  parseInt (280 * s_ratio defaults) = 7%Z /\
  selected_threshold 280 (s_thresholds defaults) = Some th1 /\
  Qlt_bool 15 7 = false /\ Qlt_bool 7 7 = false /\
  _getGridSize 280 (s_ratio defaults) (s_thresholds defaults) = Normal 7 /\
  selected_threshold 300 (s_thresholds defaults) = Some th1 /\
  selected_threshold 301 (s_thresholds defaults) = Some th2 /\
  parseInt (301 * s_ratio defaults) = 7%Z /\
  Qlt_bool 7 15 = true /\
  _getGridSize 301 (s_ratio defaults) (s_thresholds defaults) = Normal 15.
Proof. repeat split. Qed.

(** C7: with the default settings width 2000 matches no threshold, the
    last one (maximum 36) is used, and raw size 50 is cut to 36. *)
Theorem scenario_width_2000 :
  hasThresholdMatch
    (fold_left (scan_body 2000) (s_thresholds defaults) scan_start) = false /\
  selected_threshold 2000 (s_thresholds defaults) = Some th3 /\
  maxBrickSize th3 = Some 36 /\
  parseInt (2000 * s_ratio defaults) = 50%Z /\
  _getGridSize 2000 (s_ratio defaults) (s_thresholds defaults) = Normal 36.
Proof. repeat split. Qed.

(** Scenario B of the specification: width 1000 gives 25, unclamped. *)
Example scenario_width_1000 :
  _getGridSize 1000 (s_ratio defaults) (s_thresholds defaults) = Normal 25.
Proof. reflexivity. Qed.

(** With the default ratio the raw size of a width below 4e22 is the
    integer quotient by 40. *)
Lemma default_raw (w : Z) :
  (0 < w < 4 * 10 ^ 22)%Z ->
  parseInt (inject_Z w * s_ratio defaults) = (w / 40)%Z.
Proof.
  intros [Hlo Hhi].
  change (s_ratio defaults) with (1 # 40).
  assert (U : inject_Z w < inject_Z (4 * 10 ^ 22)).
  { rewrite <- Zlt_Qlt. exact Hhi. }
  assert (I : 1 <= inject_Z w).
  { change 1 with (inject_Z 1). rewrite <- Zle_Qle. lia. }
  change (inject_Z (4 * 10 ^ 22)) with 40000000000000000000000 in U.
  rewrite parseInt_floor.
  - unfold Qfloor, Qmult, inject_Z, Qnum, Qden.
    now rewrite Z.mul_1_r.
  - lra.
  - right. rewrite Qabs_pos by lra.
    change (1 # 10 ^ 6) with (1 # 1000000).
    change (10 ^ 21) with 1000000000000000000000.
    split; lra.
Qed.

Lemma getGridSize_default_bounds (w : Z) :
  (0 < w < 4 * 10 ^ 22)%Z ->
  exists g : Z,
    _getGridSize w (s_ratio defaults) (s_thresholds defaults) = Normal (inject_Z g) /\
    (7 <= g <= 36)%Z.
Proof.
  intros Hw. unfold _getGridSize.
  rewrite selected_threshold_spec, (default_raw w Hw), default_thresholds.
  set (raw := (w / 40)%Z).
  unfold spec_select. cbn [find maxImageWidth th1 th2 th3 last].
  change 300 with (inject_Z 300). change 1200 with (inject_Z 1200).
  change 1600 with (inject_Z 1600).
  rewrite !Qle_bool_inject_Z.
  destruct (Z.leb_spec w 300) as [H1|H1];
    [| destruct (Z.leb_spec w 1200) as [H2|H2];
       [| destruct (Z.leb_spec w 1600) as [H3|H3] ] ];
    unfold clamp; cbn [maxBrickSize minBrickSize th1 th2 th3];
    change 15 with (inject_Z 15); change 7 with (inject_Z 7);
    change 26 with (inject_Z 26); change 36 with (inject_Z 36);
    rewrite ?Qlt_bool_inject_Z;
    repeat match goal with
    | |- context [(?a <? ?b)%Z] => destruct (Z.ltb_spec a b)
    end;
    eexists; (split; [reflexivity|]); subst raw;
    try lia.
  all: try (assert (w / 40 <= 7)%Z by (apply Z.div_le_upper_bound; lia));
       try (assert (7 <= w / 40)%Z by (apply Z.div_le_lower_bound; lia));
       try (assert (30 <= w / 40)%Z by (apply Z.div_le_lower_bound; lia));
       try lia.
Qed.

(** ** Remainders and the stage *)

Lemma rem_defined (x y : Q) :
  ~ y == 0 -> Js.rem x y = Some (x - y * inject_Z (trunc (x / y))).
Proof.
  intro H. unfold Js.rem.
  destruct (Qeq_bool y 0) eqn:E; [|reflexivity].
  apply Qeq_bool_iff in E. contradiction.
Qed.

(** Taking the remainder off a number leaves a multiple of the divisor. *)
Lemma rem_of_stage (x y : Q) :
  ~ y == 0 ->
  exists r, Js.rem (x - (x - y * inject_Z (trunc (x / y)))) y = Some r /\ r == 0.
Proof.
  intro H. rewrite rem_defined by exact H.
  eexists. split; [reflexivity|].
  set (q := trunc (x / y)).
  assert (E : (x - (x - y * inject_Z q)) / y == inject_Z q) by (field; exact H).
  rewrite (trunc_comp _ _ E), trunc_inject_Z. ring.
Qed.

(** On integers with a positive divisor the truncated quotient is
    [Z.quot], so the remainder is [Z.rem]. *)
Lemma trunc_div_Z (a b : Z) :
  (0 < b)%Z -> trunc (inject_Z a / inject_Z b) = Z.quot a b.
Proof.
  intro Hb.
  assert (Pb : 0 < inject_Z b).
  { change 0 with (inject_Z 0). now rewrite <- Zlt_Qlt. }
  destruct (Z_lt_le_dec a 0) as [Ha|Ha].
  - assert (N : inject_Z a / inject_Z b < 0).
    { apply Qlt_shift_div_r; [exact Pb|].
      rewrite Qmult_0_l. change 0 with (inject_Z 0). now rewrite <- Zlt_Qlt. }
    unfold trunc. apply Qlt_bool_iff in N. rewrite N.
    unfold Qceiling.
    assert (E : - (inject_Z a / inject_Z b) == inject_Z (- a) / inject_Z b).
    { rewrite inject_Z_opp. field. lra. }
    rewrite (Qfloor_comp _ _ E), <- Zdiv_Qdiv.
    rewrite <- Z.quot_div_nonneg by lia.
    rewrite Z.quot_opp_l by lia. lia.
  - rewrite trunc_nonneg.
    + rewrite <- Zdiv_Qdiv. symmetry. apply Z.quot_div_nonneg; lia.
    + apply Qle_shift_div_l; [exact Pb|].
      rewrite Qmult_0_l. change 0 with (inject_Z 0). now rewrite <- Zle_Qle.
Qed.

Lemma stage_integer (a : Z) (y : Q) (g : Z) :
  y == inject_Z g -> (0 < g)%Z ->
  inject_Z a - (inject_Z a - y * inject_Z (trunc (inject_Z a / y)))
    == inject_Z (a - Z.rem a g).
Proof.
  intros E Hg.
  assert (T : trunc (inject_Z a / y) = Z.quot a g).
  { rewrite <- (trunc_div_Z a g Hg). apply trunc_comp. now rewrite E. }
  rewrite T, E.
  assert (R : (a - Z.rem a g = g * Z.quot a g)%Z).
  { pose proof (Z.quot_rem' a g). lia. }
  rewrite R, inject_Z_mult. ring.
Qed.

(** What [init] stores when it starts a run. *)
Lemma init_started (el : Element) (st : Settings) (flag : option bool) (w : World) :
  init el st flag = Started w ->
  truthy flag = false /\
  _getGridSize (width el) (s_ratio st) (s_thresholds st) = Normal (gridSize (self w)) /\
  element (self w) = el /\
  thresholds (self w) = s_thresholds st /\
  brickRatio (self w) = Js.div (gridSize (self w)) (s_originalBricksize st) /\
  stageWidth (self w) =
    Js.sub (inject_Z (width el)) (Js.rem (inject_Z (width el)) (gridSize (self w))) /\
  stageHeight (self w) =
    Js.sub (inject_Z (height el)) (Js.rem (inject_Z (height el)) (gridSize (self w))) /\
  processing w = Some true /\
  pending w = [onLoad; onLoadError; onEffectError] /\
  load_handler w = None /\
  loading w = 0%nat /\
  trace w = [imageProcessor (gridSize (self w)) (stageWidth (self w)) (stageHeight (self w))].
Proof.
  unfold init. destruct (truthy flag); [discriminate|].
  destruct (_getGridSize _ _ _) as [g|]; [|discriminate].
  intro H. injection H as <-. cbn. repeat split.
Qed.

(** C5: when the grid size computed at initialisation is a positive
    integer [g], the stage width and height are the element's width and
    height less their remainders by [g], and both are multiples of the
    grid size: [stageWidth % gridSize] and [stageHeight % gridSize] are 0. *)
Theorem stage_multiple_of_gridSize
    (el : Element) (st : Settings) (flag : option bool) (w : World) (g : Z) :
  init el st flag = Started w ->
  gridSize (self w) == inject_Z g -> (0 < g)%Z ->
  exists sw sh rw rh,
    stageWidth (self w) = Some sw /\
    stageHeight (self w) = Some sh /\
    sw == inject_Z (width el - Z.rem (width el) g) /\
    sh == inject_Z (height el - Z.rem (height el) g) /\
    Js.rem sw (gridSize (self w)) = Some rw /\ rw == 0 /\
    Js.rem sh (gridSize (self w)) = Some rh /\ rh == 0.
Proof.
  intros Hi Hg Hpos.
  destruct (init_started _ _ _ _ Hi) as (_ & _ & _ & _ & _ & Hw & Hh & _).
  assert (Hn : ~ gridSize (self w) == 0).
  { rewrite Hg. change 0 with (inject_Z 0). rewrite inject_Z_injective. lia. }
  rewrite Hw, Hh, !rem_defined by exact Hn. cbn [Js.sub].
  destruct (rem_of_stage (inject_Z (width el)) _ Hn) as (rw & Erw & Zrw).
  destruct (rem_of_stage (inject_Z (height el)) _ Hn) as (rh & Erh & Zrh).
  do 2 eexists. exists rw, rh.
  split; [reflexivity|]. split; [reflexivity|].
  split; [now apply stage_integer|]. split; [now apply stage_integer|].
  repeat split; assumption.
Qed.

Lemma stage_multiple_of_gridSize_witness :
  exists w sw sh rw rh,
    init el280 defaults None = Started w /\
    gridSize (self w) == inject_Z 7 /\
    stageWidth (self w) = Some sw /\
    stageHeight (self w) = Some sh /\
    sw == inject_Z (280 - Z.rem 280 7) /\
    sh == inject_Z (200 - Z.rem 200 7) /\
    Js.rem sw (gridSize (self w)) = Some rw /\ rw == 0 /\
    Js.rem sh (gridSize (self w)) = Some rh /\ rh == 0.
Proof.
  eexists.
  destruct (stage_multiple_of_gridSize el280 defaults None _ 7 eq_refl)
    as (sw & sh & rw & rh & H); [reflexivity | reflexivity |].
  exists sw, sh, rw, rh.
  split; [reflexivity|]. split; [reflexivity|]. exact H.
Defined.

(** C10: with the default settings every positive image width yields an
    integer grid size between 7 and 36, so the remainders that derive the
    stage dimensions never have a zero divisor. *)
Theorem default_gridSize_range (w : Z) :
  unsigned_long w -> (0 < w)%Z ->
  exists g : Z,
    _getGridSize w (s_ratio defaults) (s_thresholds defaults) = Normal (inject_Z g) /\
    (7 <= g <= 36)%Z /\
    forall x : Q, exists r : Q, Js.rem x (inject_Z g) = Some r.
Proof.
  intros [_ Hu] Hpos.
  destruct (getGridSize_default_bounds w) as (g & Hg & Hb).
  { split; [exact Hpos|]. eapply Z.lt_trans; [exact Hu|]. reflexivity. }
  exists g. split; [exact Hg|]. split; [exact Hb|].
  intro x. eexists. apply rem_defined.
  change 0 with (inject_Z 0). rewrite inject_Z_injective. lia.
Qed.

Lemma default_gridSize_range_witness :
  unsigned_long 1000 /\ (0 < 1000)%Z /\
  exists g : Z,
    _getGridSize 1000 (s_ratio defaults) (s_thresholds defaults) = Normal (inject_Z g) /\
    (7 <= g <= 36)%Z /\
    forall x : Q, exists r : Q, Js.rem x (inject_Z g) = Some r.
Proof.
  assert (U : unsigned_long 1000) by (unfold unsigned_long; lia).
  assert (P : (0 < 1000)%Z) by lia.
  split; [exact U|]. split; [exact P|].
  exact (default_gridSize_range 1000 U P).
Defined.

(** Beyond the range of image widths the bound is lost: 4e22 / 40 is
    printed as [1e+21], which [parseInt] reads as 1. *)
Example gridSize_beyond_unsigned_long :
  _getGridSize (4 * 10 ^ 22) (s_ratio defaults) (s_thresholds defaults) = Normal 1.
Proof. reflexivity. Qed.

(** ** Shape scaler *)

Example init_el2000 :
  exists w, new_Plugin el2000 no_options None = Started w /\ self w = self2000.
Proof. eexists. split; reflexivity. Qed.

(** ** Shape scaler on doubles *)

(** What [init] stores when it starts a run. *)
Lemma double_init_started
    (el : Element) (st : Ieee.Settings) (flag : option bool) (self : Ieee.Plugin) :
  Ieee.init el st flag = Ieee.Started self ->
  truthy flag = false /\
  Ieee._getGridSize (width el) (Ieee.s_ratio st) (Ieee.s_thresholds st)
    = Normal (Ieee.gridSize self) /\
  Ieee.element self = el /\
  Ieee.thresholds self = Ieee.s_thresholds st /\
  Ieee.brickRatio self = Ieee.div (Ieee.gridSize self) (Ieee.s_originalBricksize st) /\
  Ieee.stageWidth self =
    Ieee.sub (Ieee.of_Z (width el)) (Ieee.rem (Ieee.of_Z (width el)) (Ieee.gridSize self)) /\
  Ieee.stageHeight self =
    Ieee.sub (Ieee.of_Z (height el)) (Ieee.rem (Ieee.of_Z (height el)) (Ieee.gridSize self)).
Proof.
  unfold Ieee.init. destruct (truthy flag); [discriminate|].
  destruct (Ieee._getGridSize _ _ _) as [g|]; [|discriminate].
  intro H. injection H as <-. repeat split.
Qed.

(** C2 (as amended): [_getScaledValue] returns [v * brickRatio], the
    product being the double the engine computes, rounded to the nearest
    integer exactly when the stage width, that is the image width less
    its remainder by the grid size, is at most the first threshold's
    [maxImageWidth], and the unrounded product otherwise. *)
Theorem getScaledValue_spec
    (el : Element) (st : Ieee.Settings) (flag : option bool) (self : Ieee.Plugin)
    (first : Ieee.Threshold) (rest : list Ieee.Threshold) (v : Ieee.double) :
  Ieee.init el st flag = Ieee.Started self ->
  Ieee.s_thresholds st = first :: rest ->
  Ieee.stageWidth self =
    Ieee.sub (Ieee.of_Z (width el))
             (Ieee.rem (Ieee.of_Z (width el)) (Ieee.gridSize self)) /\
  Ieee.brickRatio self = Ieee.div (Ieee.gridSize self) (Ieee.s_originalBricksize st) /\
  Ieee._getScaledValue self v =
    Normal (if Ieee.leb (Ieee.stageWidth self) (Ieee.maxImageWidth first)
            then Ieee.Math_round (Ieee.mul v (Ieee.brickRatio self))
            else Ieee.mul v (Ieee.brickRatio self)) /\
  Ieee.nearest_integer (Ieee.mul v (Ieee.brickRatio self))
    (Ieee.Math_round (Ieee.mul v (Ieee.brickRatio self))).
Proof.
  intros Hi Ht.
  destruct (double_init_started _ _ _ _ Hi) as (_ & _ & _ & Hth & Hb & Hw & _).
  split; [exact Hw|]. split; [exact Hb|].
  split; [|apply Math_round_mul_nearest].
  unfold Ieee._getScaledValue. rewrite Hth, Ht. reflexivity.
Qed.

Lemma getScaledValue_spec_witness :
  exists self,
    Ieee.init el280 Ieee.defaults None = Ieee.Started self /\
    Ieee.stageWidth self = Ieee.lit 280 /\
    Ieee._getScaledValue self (Ieee.lit 10) = Normal (Ieee.lit 1).
Proof.
  match eval vm_compute in (Ieee.init el280 Ieee.defaults None) with
  | Ieee.Started ?p =>
      exists p;
      assert (I : Ieee.init el280 Ieee.defaults None = Ieee.Started p)
        by (vm_compute; reflexivity);
      destruct (getScaledValue_spec el280 Ieee.defaults None p
                  {| Ieee.maxImageWidth := Ieee.lit 300;
                     Ieee.minBrickSize := Some (Ieee.lit 7);
                     Ieee.maxBrickSize := Some (Ieee.lit 15) |}
                  (tl (Ieee.s_thresholds Ieee.defaults)) (Ieee.lit 10) I eq_refl)
        as (Hs & _ & Hv & _);
      split; [exact I|]; split;
        [ rewrite Hs; vm_compute; reflexivity
        | rewrite Hv; vm_compute; reflexivity ]
  end.
Defined.

(** C2 (as stated) fails: an image 301 wide is wider than the first
    threshold's 300, yet its stage is 300 wide and the scaler rounds:
    the value 1 gives 0 where the claim has 15/73. *)
Lemma getScaledValue_rounds_wide_image :
  exists self,
    Ieee.init el301 Ieee.defaults None = Ieee.Started self /\
    Ieee.leb (Ieee.of_Z (width el301)) (Ieee.lit 300) = false /\
    Ieee.stageWidth self = Ieee.lit 300 /\
    Ieee._getScaledValue self (Ieee.lit 1) = Normal (Ieee.lit 0) /\
    Ieee.spec_scale self (Ieee.lit 1) = Some (Ieee.div (Ieee.lit 15) (Ieee.lit 73)) /\
    Ieee.lit 0 <> Ieee.div (Ieee.lit 15) (Ieee.lit 73).
Proof.
  match eval vm_compute in (Ieee.init el301 Ieee.defaults None) with
  | Ieee.Started ?p => exists p
  end.
  repeat split; vm_compute; (reflexivity || discriminate).
Qed.

(** The product is rounded before [Math.round] sees it: with reference
    brick size 110 an image 280 wide has brick ratio 7/110, and 55 scales
    to 3, the product being just below 3.5 where the exact one is 3.5. *)
Example getScaledValue_rounded_product :
  exists self,
    Ieee.init el280 (Ieee.with_originalBricksize (Ieee.lit 110)) None
      = Ieee.Started self /\
    Ieee.brickRatio self = Ieee.div (Ieee.lit 7) (Ieee.lit 110) /\
    Ieee.ltb (Ieee.mul (Ieee.lit 55) (Ieee.brickRatio self)) (Ieee.lit 3.5) = true /\
    Ieee._getScaledValue self (Ieee.lit 55) = Normal (Ieee.lit 3).
Proof.
  match eval vm_compute in
        (Ieee.init el280 (Ieee.with_originalBricksize (Ieee.lit 110)) None) with
  | Ieee.Started ?p => exists p
  end.
  repeat split; vm_compute; reflexivity.
Qed.

(** C8 (as amended): when the stage width is not at most the first
    threshold's [maxImageWidth] the scaler does not round, and it is
    linear as long as nothing underflows or overflows: for a normal [v]
    and a normal brick ratio whose exact product is at least 2^-1022, and
    such that neither [2 * v] nor twice the scaled value overflows,
    [_getScaledValue (2 * v)] is twice [_getScaledValue v], itself
    [v * brickRatio]. *)
Theorem getScaledValue_linear
    (self : Ieee.Plugin) (first : Ieee.Threshold) (rest : list Ieee.Threshold)
    (v : Ieee.double) :
  Ieee.thresholds self = first :: rest ->
  Ieee.leb (Ieee.stageWidth self) (Ieee.maxImageWidth first) = false ->
  Ieee.normal v = true ->
  Ieee.normal (Ieee.brickRatio self) = true ->
  Ieee.product_not_subnormal v (Ieee.brickRatio self) ->
  Ieee.is_finite (Ieee.mul (Ieee.lit 2) v) = true ->
  Ieee.is_finite (Ieee.mul (Ieee.lit 2) (Ieee.mul v (Ieee.brickRatio self))) = true ->
  exists a b,
    Ieee._getScaledValue self (Ieee.mul (Ieee.lit 2) v) = Normal a /\
    Ieee._getScaledValue self v = Normal b /\
    a = Ieee.mul (Ieee.lit 2) b /\ b = Ieee.mul v (Ieee.brickRatio self).
Proof.
  intros Ht Hl Nv Nb Hs Fv Fp.
  unfold Ieee._getScaledValue. rewrite Ht, Hl.
  do 2 eexists. split; [reflexivity|]. split; [reflexivity|].
  split; [|reflexivity]. now apply mul_two_assoc.
Qed.

Lemma getScaledValue_linear_witness :
  exists self a b,
    Ieee.init el2000 Ieee.defaults None = Ieee.Started self /\
    Ieee._getScaledValue self (Ieee.mul (Ieee.lit 2) (Ieee.lit 10)) = Normal a /\
    Ieee._getScaledValue self (Ieee.lit 10) = Normal b /\
    a = Ieee.mul (Ieee.lit 2) b /\ b = Ieee.mul (Ieee.lit 10) (Ieee.brickRatio self).
Proof.
  match eval vm_compute in (Ieee.init el2000 Ieee.defaults None) with
  | Ieee.Started ?p =>
      exists p;
      assert (I : Ieee.init el2000 Ieee.defaults None = Ieee.Started p)
        by (vm_compute; reflexivity);
      destruct (getScaledValue_linear p
                  {| Ieee.maxImageWidth := Ieee.lit 300;
                     Ieee.minBrickSize := Some (Ieee.lit 7);
                     Ieee.maxBrickSize := Some (Ieee.lit 15) |}
                  (tl (Ieee.s_thresholds Ieee.defaults)) (Ieee.lit 10))
        as (a & b & H);
        [ vm_compute; reflexivity | vm_compute; reflexivity
        | vm_compute; reflexivity | vm_compute; reflexivity
        | vm_compute; discriminate
        | vm_compute; reflexivity | vm_compute; reflexivity | ];
      exists a, b; split; [exact I | exact H]
  end.
Defined.

(** C8 (as stated) fails twice over.  An image 301 wide counts as large
    by its width, yet its stage is 300 wide, the scaler rounds, and
    doubling is lost: 4 scales to 1 while 2 scales to 0.  And without
    rounding doubling is lost to underflow: on the 2000-wide image the
    smallest double scales to 0, but twice it scales to itself. *)
Lemma getScaledValue_not_linear_wide_image :
  exists self self',
    Ieee.init el301 Ieee.defaults None = Ieee.Started self /\
    Ieee.leb (Ieee.of_Z (width el301)) (Ieee.lit 300) = false /\
    Ieee._getScaledValue self (Ieee.mul (Ieee.lit 2) (Ieee.lit 2)) = Normal (Ieee.lit 1) /\
    Ieee._getScaledValue self (Ieee.lit 2) = Normal (Ieee.lit 0) /\
    Ieee.lit 1 <> Ieee.mul (Ieee.lit 2) (Ieee.lit 0) /\
    Ieee.init el2000 Ieee.defaults None = Ieee.Started self' /\
    Ieee.leb (Ieee.stageWidth self') (Ieee.lit 300) = false /\
    Ieee._getScaledValue self' (Ieee.mul (Ieee.lit 2) (S754_finite false 1 (-1074)))
      = Normal (S754_finite false 1 (-1074)) /\
    Ieee._getScaledValue self' (S754_finite false 1 (-1074)) = Normal (Ieee.lit 0) /\
    S754_finite false 1 (-1074) <> Ieee.mul (Ieee.lit 2) (Ieee.lit 0).
Proof.
  match eval vm_compute in (Ieee.init el301 Ieee.defaults None) with
  | Ieee.Started ?p => exists p
  end.
  match eval vm_compute in (Ieee.init el2000 Ieee.defaults None) with
  | Ieee.Started ?p => exists p
  end.
  repeat split; vm_compute; (reflexivity || discriminate).
Qed.

(** ** Error handlers *)

(** C3: on an effect error the controller stores [false] in the page's
    flag and does nothing else: nothing is added to the trace, so no
    "image:brickified" is triggered and nothing is drawn, and no callback
    is handed out. *)
Theorem onEffectError_clears_flag_only (w : World) :
  processing (_onEffectError w) = Some false /\
  trace (_onEffectError w) = trace w /\
  existsb (is_trigger "image:brickified") (trace (body onEffectError (emit [Fired onEffectError] w)))
    = existsb (is_trigger "image:brickified") (trace w) /\
  existsb is_drawing (trace (body onEffectError (emit [Fired onEffectError] w)))
    = existsb is_drawing (trace w) /\
  pending (_onEffectError w) = pending w /\
  load_handler (_onEffectError w) = load_handler w /\
  loading (_onEffectError w) = loading w /\
  self (_onEffectError w) = self w.
Proof.
  cbn. rewrite !existsb_app. cbn. rewrite !orb_false_r. repeat split.
Qed.

(** C4: on an image load error the element gets width 34, height 34 and
    the broken-image icon as its source; the page's flag is left as it
    is, so a flag set by [init] stays set. *)
Theorem onImageError_placeholder (w : World) :
  width (element (self (_onImageError w))) = 34%Z /\
  height (element (self (_onImageError w))) = 34%Z /\
  src (element (self (_onImageError w))) = broken_image_icon /\
  String.length broken_image_icon = 606%nat /\
  processing (_onImageError w) = processing w /\
  processing (body onLoadError (set_processing (Some true) w)) = Some true /\
  trace (_onImageError w) = trace w.
Proof. repeat split. Qed.

(** After [init], an image load error leaves the page busy. *)
Lemma onImageError_leaves_busy
    (el : Element) (st : Settings) (flag : option bool) (w w' : World) :
  init el st flag = Started w -> fire onLoadError w = Some w' ->
  processing w' = Some true.
Proof.
  intros Hi Hf.
  destruct (init_started _ _ _ _ Hi) as (_ & _ & _ & _ & _ & _ & _ & Hp & _).
  unfold fire in Hf. destruct (in_dec _ _ _); [|discriminate].
  injection Hf as <-. exact Hp.
Qed.

(** ** The paint pipeline *)

Lemma occurs_app_l (p : action -> bool) (tr acts : list action) :
  occurs p tr -> occurs p (tr ++ acts).
Proof.
  unfold occurs. intro H. rewrite existsb_app, H. reflexivity.
Qed.

Lemma occurs_app_r (p : action -> bool) (tr acts : list action) :
  existsb p acts = true -> occurs p (tr ++ acts).
Proof.
  unfold occurs. intro H. rewrite existsb_app, H. apply orb_true_r.
Qed.

Lemma precedes_nil (p q : action -> bool) : precedes p q [].
Proof.
  intros l1 b l2 E. destruct l1; discriminate E.
Qed.

(** Appending actions keeps the order if, whenever one of them satisfies
    [q], a [p] action has occurred before. *)
Lemma precedes_app (p q : action -> bool) (tr acts : list action) :
  precedes p q tr ->
  (existsb q acts = true -> occurs p tr) ->
  precedes p q (tr ++ acts).
Proof.
  intros H Hq l1 b l2 E Hb.
  apply app_eq_app in E. destruct E as [l [[E1 E2] | [E1 E2]]].
  - destruct l as [|b' l].
    + rewrite app_nil_r in E1. subst l1. simpl in E2.
      assert (Q : existsb q acts = true).
      { rewrite <- E2. simpl. now rewrite Hb. }
      apply Hq, existsb_exists in Q. exact Q.
    + simpl in E2. injection E2 as Eb El. subst b'.
      exact (H l1 b l E1 Hb).
  - assert (Q : existsb q acts = true).
    { rewrite E2, existsb_app. simpl. rewrite Hb. now rewrite orb_true_r. }
    apply Hq, existsb_exists in Q. destruct Q as (a & Ia & Pa).
    exists a. split; [|exact Pa]. rewrite E1. apply in_or_app. now left.
Qed.

Ltac order_step :=
  repeat match goal with
  | |- precedes _ _ (_ ++ _) => apply precedes_app
  | |- existsb _ _ = true -> _ => cbn; try discriminate; intros _
  | |- occurs _ (_ ++ _) =>
      first [ apply occurs_app_r; reflexivity | apply occurs_app_l ]
  end; try assumption.

Lemma pipeline_inv_fire (c : callback) (w w' : World) :
  pipeline_inv w -> fire c w = Some w' -> pipeline_inv w'.
Proof.
  intros [(O1 & O2 & O3 & O4 & O5 & O6 & O7) In1 In2 In3 Ih] F.
  destruct c; cbn in F;
    try (destruct (in_dec callback_eq_dec _ (pending w)) as [Hin|]; [|discriminate]);
    try (destruct (loading w) as [|n] eqn:Hl; [discriminate|]);
    injection F as <-.
  - (* onLoad *)
    split; cbn.
    + repeat split; order_step.
    + intros _. order_step.
    + intros [H|H]; [discriminate|]. apply in_remove in H. order_step. tauto.
    + intros [H|H]; [discriminate|]. apply in_remove in H. order_step. tauto.
    + intros op H. destruct (Ih op H) as (A & [B | (B & C & D)]).
      * split; [order_step | now left].
      * split; [order_step | right; repeat split; order_step].
  - (* onLoadError *)
    split; cbn.
    + repeat split; order_step.
    + intro H. apply in_remove in H. order_step. tauto.
    + intro H. apply in_remove in H. order_step. tauto.
    + intro H. apply in_remove in H. order_step. tauto.
    + intros op H. destruct (Ih op H) as (A & [B | (B & C & D)]).
      * split; [order_step | now left].
      * split; [order_step | right; repeat split; order_step].
  - (* onEffectError *)
    split; cbn.
    + repeat split; order_step.
    + intro H. order_step. tauto.
    + intro H. order_step. tauto.
    + intro H. order_step. tauto.
    + intros op H. destruct (Ih op H) as (A & [B | (B & C & D)]).
      * split; [order_step | now left].
      * split; [order_step | right; repeat split; order_step].
  - (* removenoise_callback *)
    split; cbn.
    + repeat split; order_step. now apply In1.
    + intros [H|H]; [discriminate|]. apply in_remove in H. destruct H as [_ H]. congruence.
    + intros _. order_step.
    + intros [H|H]; [discriminate|]. apply in_remove in H. order_step. tauto.
    + intros op H. destruct (Ih op H) as (A & [B | (B & C & D)]).
      * split; [order_step | now left].
      * split; [order_step | right; repeat split; order_step].
  - (* mosaic_timeout *)
    split; cbn.
    + repeat split; order_step. now apply In2.
    + intros [H|H]; [discriminate|]. apply in_remove in H. order_step. tauto.
    + intros [H|H]; [discriminate|]. apply in_remove in H. destruct H as [_ H]. congruence.
    + intros _. order_step.
    + intros op H. destruct (Ih op H) as (A & [B | (B & C & D)]).
      * split; [order_step | now left].
      * split; [order_step | right; repeat split; order_step].
  - (* mosaic_callback *)
    split; cbn.
    + repeat split; order_step. now apply In3.
    + intro H. apply in_remove in H. order_step. tauto.
    + intro H. apply in_remove in H. order_step. tauto.
    + intro H. apply in_remove in H. destruct H as [_ H]. congruence.
    + intros op H. injection H as <-. split; [order_step | now left].
  - (* scratch_load *)
    cbn. destruct (load_handler w) as [op|] eqn:Hh.
    + destruct (Ih op eq_refl) as (A & [-> | (-> & C & D)]).
      * split; cbn.
        -- repeat split; order_step.
        -- intro H. order_step. tauto.
        -- intro H. order_step. tauto.
        -- intro H. order_step. tauto.
        -- intros op H. injection H as <-.
           split; [order_step | right; repeat split; order_step].
      * split; cbn.
        -- repeat split; order_step.
        -- intro H. order_step. tauto.
        -- intro H. order_step. tauto.
        -- intro H. order_step. tauto.
        -- intros op H. discriminate H.
    + split; cbn; rewrite ?Hh.
      * repeat split; order_step.
      * intro H. order_step. tauto.
      * intro H. order_step. tauto.
      * intro H. order_step. tauto.
      * intros op H. discriminate H.
Qed.

Lemma pipeline_inv_init (el : Element) (st : Settings) (flag : option bool) (w : World) :
  init el st flag = Started w -> pipeline_inv w.
Proof.
  intro Hi.
  destruct (init_started _ _ _ _ Hi)
    as (_ & _ & _ & _ & _ & _ & _ & _ & Hp & Hh & _ & Ht).
  split; rewrite ?Hp, ?Hh, ?Ht.
  - change [imageProcessor (gridSize (self w)) (stageWidth (self w)) (stageHeight (self w))]
      with ([] ++ [imageProcessor (gridSize (self w)) (stageWidth (self w)) (stageHeight (self w))]).
    repeat split; apply precedes_app;
      try apply precedes_nil; cbn; discriminate.
  - cbn. intros [H|[H|[H|[]]]]; discriminate H.
  - cbn. intros [H|[H|[H|[]]]]; discriminate H.
  - cbn. intros [H|[H|[H|[]]]]; discriminate H.
  - intros op H. discriminate H.
Qed.

Lemma pipeline_inv_run (cs : list callback) (w w' : World) :
  pipeline_inv w -> run cs w = Some w' -> pipeline_inv w'.
Proof.
  revert w. induction cs as [|c cs IH]; intros w Hinv Hr; simpl in Hr.
  - injection Hr as <-. exact Hinv.
  - destruct (fire c w) as [w1|] eqn:F; [|discriminate].
    apply (IH w1); [|exact Hr]. exact (pipeline_inv_fire c w w1 Hinv F).
Qed.

(** Such a run goes through, draws both passes and ends with the flag
    cleared and the completion event. *)
Lemma complete_run_trace (el : Element) (st : Settings) (flag : option bool) (w0 : World) :
  init el st flag = Started w0 ->
  exists w1,
    run complete_run w0 = Some w1 /\
    processing w1 = Some false /\
    trace w1 =
      trace w0 ++
      [ Fired onLoad; applyEffect "removenoise";
        Fired removenoise_callback; setTimeout 100;
        Fired mosaic_timeout; applyEffect "mosaic";
        Fired mosaic_callback; stage_addChild; on_load; attr_src ShadowDataURL;
        Fired scratch_load;
        fillRect "multiply" (stageWidth (self w0)) (stageHeight (self w0));
        scratch_addChild; buildGrid (gridSize (self w0)) "#c0c0c0" (1 # 2);
        attr_src HighlightDataURL;
        Fired scratch_load;
        fillRect "lighter" (stageWidth (self w0)) (stageHeight (self w0));
        off_load; attr_src StageDataURL; moveOnscreen; destroy;
        trigger "image:brickified" ].
Proof.
  intro Hi.
  destruct (init_started _ _ _ _ Hi)
    as (_ & _ & _ & _ & _ & _ & _ & _ & Hp & Hh & Hl & Ht).
  destruct w0 as [s p pe lh lo tr]. cbn in Hp, Hh, Hl, Ht. subst pe lh lo tr.
  match goal with
  | |- exists w1, run ?cs ?w = Some w1 /\ _ =>
      match eval vm_compute in (run cs w) with
      | Some ?w1 => exists w1
      end
  end.
  split; [|split]; vm_compute; reflexivity.
Qed.

(** C9: in every run started by [init], whatever callbacks the
    environment runs and in whatever order it can, the mosaic effect is
    started only after the noise removal's callback has run, the shadow
    pass is drawn only after the mosaic's callback has run, and the
    highlight pass only after the shadow pass and its grid; each stage is
    started only once the callback handed out by its predecessor has run,
    and a run that meets no error goes through all of them. *)
Theorem pipeline_stages_ordered
    (el : Element) (st : Settings) (flag : option bool)
    (w0 : World) (cs : list callback) (w : World) :
  init el st flag = Started w0 ->
  run cs w0 = Some w ->
  pipeline_order (trace w) /\
  exists w1, run complete_run w0 = Some w1 /\
    occurs (is_pass "lighter") (trace w1) /\
    occurs (is_trigger "image:brickified") (trace w1) /\
    processing w1 = Some false.
Proof.
  intros Hi Hr. split.
  - apply (inv_order w).
    apply (pipeline_inv_run cs w0 w); [|exact Hr].
    exact (pipeline_inv_init el st flag w0 Hi).
  - destruct (complete_run_trace el st flag w0 Hi) as (w1 & R & P & T).
    exists w1. split; [exact R|].
    split; [|split; [|exact P]]; rewrite T; apply occurs_app_r; reflexivity.
Qed.

Lemma pipeline_stages_ordered_witness :
  exists w0 w,
    init el280 defaults None = Started w0 /\
    run complete_run w0 = Some w /\
    pipeline_order (trace w).
Proof.
  match eval vm_compute in (init el280 defaults None) with
  | Started ?w0 =>
      match eval vm_compute in (run complete_run w0) with
      | Some ?w =>
          exists w0, w;
          assert (I : init el280 defaults None = Started w0)
            by (vm_compute; reflexivity);
          assert (R : run complete_run w0 = Some w)
            by (vm_compute; reflexivity);
          split; [exact I|]; split; [exact R|];
          exact (proj1 (pipeline_stages_ordered el280 defaults None w0
                          complete_run w I R))
      end
  end.
Defined.

(** A callback that was not handed out cannot run: the mosaic's callback
    before the mosaic effect was applied, or a "load" before any source
    was assigned. *)
Example mosaic_callback_not_enabled :
  exists w0, init el280 defaults None = Started w0 /\
    run [onLoad; mosaic_callback] w0 = None /\
    run [onLoad; removenoise_callback; scratch_load] w0 = None.
Proof. eexists. repeat split. Qed.

(** * Further properties *)

(** ** Grid sizer *)

Lemma getGridSize_throws_iff_empty_aux (w : Z) (r : Q) (ths : list Threshold) :
  _getGridSize w r ths = Throw -> ths = [].
Proof.
  rewrite getGridSize_of_raw. unfold spec_gridSize_of.
  intro H. destruct ths as [|t ts]; [reflexivity|].
  destruct (spec_select_nonempty w (t :: ts)) as [u Hu]; [discriminate|].
  rewrite Hu in H. discriminate H.
Qed.

(** X1: [_getGridSize] throws exactly on an empty threshold array. *)
Theorem getGridSize_throws_iff_empty (w : Z) (r : Q) (ths : list Threshold) :
  _getGridSize w r ths = Throw <-> ths = [].
Proof.
  split.
  - apply getGridSize_throws_iff_empty_aux.
  - intros ->. reflexivity.
Qed.

(** *** Comparisons *)

Lemma SFcompare_antisym (a b : Ieee.double) (c : comparison) :
  SFcompare a b = Some c -> SFcompare b a = Some (CompOpp c).
Proof.
  destruct a as [sa|sa| |sa ma ea], b as [sb|sb| |sb mb eb]; cbn;
    try discriminate;
    try (destruct sa; intro H; injection H as <-; reflexivity);
    try (destruct sb; intro H; injection H as <-; reflexivity);
    try (destruct sa, sb; intro H; injection H as <-; reflexivity).
  intro H. injection H as <-. f_equal.
  rewrite (Z.compare_antisym ea eb).
  destruct sa, sb; try reflexivity;
    destruct (ea ?= eb)%Z; cbn; try reflexivity;
    rewrite (Pos.compare_cont_antisym ma mb Eq); reflexivity.
Qed.

Lemma SFcompare_refl (a : Ieee.double) :
  Ieee.is_nan a = false -> SFcompare a a = Some Eq.
Proof.
  destruct a as [s|s| |s m e]; cbn; try discriminate; intros _.
  - reflexivity.
  - now destruct s.
  - rewrite Z.compare_refl, Pos.compare_cont_refl. now destruct s.
Qed.

Lemma SFcompare_defined (a b : Ieee.double) :
  Ieee.is_nan a = false -> Ieee.is_nan b = false ->
  exists c, SFcompare a b = Some c.
Proof.
  destruct a as [sa|sa| |sa ma ea], b as [sb|sb| |sb mb eb]; cbn;
    try discriminate; intros _ _; eexists; reflexivity.
Qed.

Lemma leb_refl (a : Ieee.double) : Ieee.is_nan a = false -> Ieee.leb a a = true.
Proof.
  intro H. unfold Ieee.leb, SFleb. now rewrite SFcompare_refl.
Qed.

(** Two numbers are comparable: if [a < b] is false then [b <= a]. *)
Lemma ltb_false_leb (a b : Ieee.double) :
  Ieee.is_nan a = false -> Ieee.is_nan b = false ->
  Ieee.ltb a b = false -> Ieee.leb b a = true.
Proof.
  intros Na Nb H. destruct (SFcompare_defined a b Na Nb) as [c Hc].
  unfold Ieee.ltb, SFltb in H. unfold Ieee.leb, SFleb.
  rewrite Hc in H. rewrite (SFcompare_antisym a b c Hc).
  destruct c; (reflexivity || discriminate).
Qed.

(** *** Bounds *)

Lemma double_clamp_upper (th : Ieee.Threshold) (raw mx : Ieee.double) :
  Ieee.is_nan raw = false -> Ieee.is_nan mx = false ->
  (forall mn, Ieee.minBrickSize th = Some mn -> Ieee.leb mn mx = true) ->
  Ieee.maxBrickSize th = Some mx -> Ieee.leb (Ieee.clamp th raw) mx = true.
Proof.
  intros Nr Nx Hwf Hmx. unfold Ieee.clamp. rewrite Hmx.
  destruct (Ieee.ltb mx raw) eqn:B; [now apply leb_refl|].
  pose proof (ltb_false_leb mx raw Nx Nr B) as L.
  destruct (Ieee.minBrickSize th) as [mn|]; [|exact L].
  destruct (Ieee.ltb raw mn); [now apply Hwf | exact L].
Qed.

Lemma double_clamp_lower (th : Ieee.Threshold) (raw mn : Ieee.double) :
  Ieee.is_nan raw = false -> Ieee.is_nan mn = false ->
  (forall mx, Ieee.maxBrickSize th = Some mx -> Ieee.leb mn mx = true) ->
  Ieee.minBrickSize th = Some mn -> Ieee.leb mn (Ieee.clamp th raw) = true.
Proof.
  intros Nr Nn Hwf Hmn. unfold Ieee.clamp. rewrite Hmn.
  assert (O : Ieee.leb mn (if Ieee.ltb raw mn then mn else raw) = true).
  { destruct (Ieee.ltb raw mn) eqn:B; [now apply leb_refl|].
    exact (ltb_false_leb raw mn Nr Nn B). }
  destruct (Ieee.maxBrickSize th) as [mx|]; [|exact O].
  destruct (Ieee.ltb mx raw); [now apply Hwf | exact O].
Qed.

(** X2: when the raw size [parseInt(w * ratio)] is a number and the
    selected threshold's minimum does not exceed its maximum, the grid
    size respects each bound the threshold defines as a number. *)
Theorem getGridSize_within_bounds
    (w : Z) (r : Ieee.double) (ths : list Ieee.Threshold)
    (th : Ieee.Threshold) (g : Ieee.double) :
  Ieee.selected_threshold (Ieee.of_Z w) ths = Some th ->
  Ieee.is_nan (Ieee.parseInt (Ieee.mul (Ieee.of_Z w) r)) = false ->
  (forall mn mx, Ieee.minBrickSize th = Some mn -> Ieee.maxBrickSize th = Some mx ->
                 Ieee.leb mn mx = true) ->
  Ieee._getGridSize w r ths = Normal g ->
  (forall mx, Ieee.maxBrickSize th = Some mx -> Ieee.is_nan mx = false ->
              Ieee.leb g mx = true) /\
  (forall mn, Ieee.minBrickSize th = Some mn -> Ieee.is_nan mn = false ->
              Ieee.leb mn g = true).
Proof.
  intros Hs Hn Hwf Hg. unfold Ieee._getGridSize in Hg. rewrite Hs in Hg.
  injection Hg as <-. split.
  - intros mx Hmx Nx. apply double_clamp_upper; try assumption.
    intros mn Hmn. exact (Hwf mn mx Hmn Hmx).
  - intros mn Hmn Nn. apply double_clamp_lower; try assumption.
    intros mx Hmx. exact (Hwf mn mx Hmn Hmx).
Qed.

Lemma getGridSize_within_bounds_witness :
  exists g,
    Ieee._getGridSize 1000 (Ieee.lit 0.1) (Ieee.s_thresholds Ieee.defaults) = Normal g /\
    Ieee.leb g (Ieee.lit 26) = true /\ Ieee.leb (Ieee.lit 15) g = true.
Proof.
  set (th2 := {| Ieee.maxImageWidth := Ieee.lit 1200;
                 Ieee.minBrickSize := Some (Ieee.lit 15);
                 Ieee.maxBrickSize := Some (Ieee.lit 26) |}).
  assert (S : Ieee.selected_threshold (Ieee.of_Z 1000)
                (Ieee.s_thresholds Ieee.defaults) = Some th2)
    by (vm_compute; reflexivity).
  assert (N : Ieee.is_nan (Ieee.parseInt (Ieee.mul (Ieee.of_Z 1000) (Ieee.lit 0.1)))
              = false) by (vm_compute; reflexivity).
  assert (W : forall mn mx, Ieee.minBrickSize th2 = Some mn ->
                            Ieee.maxBrickSize th2 = Some mx -> Ieee.leb mn mx = true).
  { intros mn mx Hn Hx. injection Hn as <-. injection Hx as <-.
    vm_compute. reflexivity. }
  assert (G : Ieee._getGridSize 1000 (Ieee.lit 0.1) (Ieee.s_thresholds Ieee.defaults)
              = Normal (Ieee.lit 26)) by (vm_compute; reflexivity).
  destruct (getGridSize_within_bounds 1000 (Ieee.lit 0.1)
              (Ieee.s_thresholds Ieee.defaults) th2 (Ieee.lit 26) S N W G) as [U L].
  exists (Ieee.lit 26). split; [exact G|].
  split; [apply (U (Ieee.lit 26) eq_refl) | apply (L (Ieee.lit 15) eq_refl)];
    vm_compute; reflexivity.
Defined.

(** Outside these conditions no bound holds: a threshold whose minimum
    exceeds its maximum raises raw size 3 to the minimum 10, above the
    maximum 5; and a raw size that is [NaN] stays [NaN], which is not at
    most 36. *)
Example getGridSize_out_of_bounds :
  Ieee.clamp {| Ieee.maxImageWidth := Ieee.lit 300;
                Ieee.minBrickSize := Some (Ieee.lit 10);
                Ieee.maxBrickSize := Some (Ieee.lit 5) |} (Ieee.lit 3) = Ieee.lit 10 /\
  Ieee._getGridSize 1000 (Ieee.of_Z (10 ^ 306)) (Ieee.s_thresholds Ieee.defaults)
    = Normal Ieee.NaN /\
  Ieee.leb Ieee.NaN (Ieee.lit 36) = false.
Proof. repeat split; vm_compute; reflexivity. Qed.

(** The default table, evaluated on doubles for every width from 1 to
    8192, is the closed form. *)
Lemma default_table_checked :
  Ieee.all_widths (Z.to_nat 8192) Ieee.default_agrees = true.
Proof. vm_compute; reflexivity. Qed.

(** X21: with the default settings the rounding of the product never
    shows: for every image width from 1 to 8192 the grid size computed on
    doubles is the closed form on integers, 7 up to width 300, [w div 40]
    kept within 15..26 up to width 1200, and [w div 40] capped at 36
    beyond. *)
Theorem default_gridSize_on_doubles (w : Z) :
  (0 < w <= 8192)%Z ->
  Ieee._getGridSize w (Ieee.s_ratio Ieee.defaults) (Ieee.s_thresholds Ieee.defaults)
    = Normal (Ieee.of_Z (Ieee.default_closed_form w)).
Proof.
  intro Hw.
  pose proof (all_widths_spec _ _ default_table_checked w ltac:(lia)) as H.
  unfold Ieee.default_agrees in H.
  destruct (Ieee._getGridSize w (Ieee.s_ratio Ieee.defaults)
              (Ieee.s_thresholds Ieee.defaults)) as [g|]; [|discriminate H].
  f_equal. now apply identical_eq.
Qed.

Lemma default_gridSize_on_doubles_witness :
  (0 < 1000 <= 8192)%Z /\
  Ieee._getGridSize 1000 (Ieee.s_ratio Ieee.defaults) (Ieee.s_thresholds Ieee.defaults)
    = Normal (Ieee.of_Z 25).
Proof.
  assert (H : (0 < 1000 <= 8192)%Z) by lia.
  split; [exact H|].
  exact (default_gridSize_on_doubles 1000 H).
Defined.


(** The default table in closed form, for widths below 4e22. *)
Lemma getGridSize_default_cases (w : Z) :
  (0 < w < 4 * 10 ^ 22)%Z ->
  exists g : Z,
    _getGridSize w (s_ratio defaults) (s_thresholds defaults) = Normal (inject_Z g) /\
    ((w <= 300 /\ g = 7) \/
     (300 < w <= 1200 /\ g = Z.max 15 (Z.min 26 (w / 40))) \/
     (1200 < w /\ g = Z.min 36 (w / 40)))%Z.
Proof.
  intros Hw. unfold _getGridSize.
  rewrite selected_threshold_spec, (default_raw w Hw), default_thresholds.
  set (raw := (w / 40)%Z).
  unfold spec_select. cbn [find maxImageWidth th1 th2 th3 last].
  change 300 with (inject_Z 300). change 1200 with (inject_Z 1200).
  change 1600 with (inject_Z 1600).
  rewrite !Qle_bool_inject_Z.
  destruct (Z.leb_spec w 300) as [H1|H1];
    [| destruct (Z.leb_spec w 1200) as [H2|H2];
       [| destruct (Z.leb_spec w 1600) as [H3|H3] ] ];
    unfold clamp; cbn [maxBrickSize minBrickSize th1 th2 th3];
    change 15 with (inject_Z 15); change 7 with (inject_Z 7);
    change 26 with (inject_Z 26); change 36 with (inject_Z 36);
    rewrite ?Qlt_bool_inject_Z;
    repeat match goal with
    | |- context [(?a <? ?b)%Z] => destruct (Z.ltb_spec a b)
    end;
    eexists; (split; [reflexivity|]); subst raw;
    try (assert (w / 40 < 8)%Z by (apply Z.div_lt_upper_bound; lia));
    lia.
Qed.

Lemma unsigned_long_below (w : Z) :
  unsigned_long w -> (0 < w)%Z -> (0 < w < 4 * 10 ^ 22)%Z.
Proof.
  intros [_ Hu] Hp. split; [exact Hp|].
  eapply Z.lt_trans; [exact Hu|]. reflexivity.
Qed.

(** X3: the default settings in closed form: a positive width up to 300
    gives 7; up to 1200 it gives [w div 40] kept within 15..26; beyond, it
    gives [w div 40] capped at 36. *)
Theorem default_gridSize_closed_form (w : Z) :
  unsigned_long w -> (0 < w)%Z ->
  _getGridSize w (s_ratio defaults) (s_thresholds defaults) =
    Normal (inject_Z
      (if (w <=? 300)%Z then 7
       else if (w <=? 1200)%Z then Z.max 15 (Z.min 26 (w / 40))
       else Z.min 36 (w / 40))%Z).
Proof.
  intros Hu Hp.
  destruct (getGridSize_default_cases w (unsigned_long_below w Hu Hp))
    as (g & Hg & Hc).
  rewrite Hg. do 2 f_equal.
  destruct (Z.leb_spec w 300); [lia|].
  destruct (Z.leb_spec w 1200); lia.
Qed.

Lemma default_gridSize_closed_form_witness :
  unsigned_long 1000 /\ (0 < 1000)%Z /\
  _getGridSize 1000 (s_ratio defaults) (s_thresholds defaults) = Normal 25.
Proof.
  assert (U : unsigned_long 1000) by (unfold unsigned_long; lia).
  assert (P : (0 < 1000)%Z) by lia.
  split; [exact U|]. split; [exact P|].
  exact (default_gridSize_closed_form 1000 U P).
Defined.

(** X4: with the default settings a wider image never gets a smaller grid
    size. *)
Theorem default_gridSize_monotone (w1 w2 : Z) (g1 g2 : Q) :
  unsigned_long w1 -> unsigned_long w2 -> (0 < w1 <= w2)%Z ->
  _getGridSize w1 (s_ratio defaults) (s_thresholds defaults) = Normal g1 ->
  _getGridSize w2 (s_ratio defaults) (s_thresholds defaults) = Normal g2 ->
  g1 <= g2.
Proof.
  intros U1 U2 [P L] H1 H2.
  destruct (getGridSize_default_cases w1 (unsigned_long_below w1 U1 P))
    as (a & Ha & Ca).
  destruct (getGridSize_default_cases w2 (unsigned_long_below w2 U2 ltac:(lia)))
    as (b & Hb & Cb).
  rewrite Ha in H1. rewrite Hb in H2.
  injection H1 as <-. injection H2 as <-.
  rewrite <- Zle_Qle.
  assert (D : (w1 / 40 <= w2 / 40)%Z) by (apply Z.div_le_mono; lia).
  assert (T : (1200 < w2 -> 30 <= w2 / 40)%Z)
    by (intro; apply Z.div_le_lower_bound; lia).
  lia.
Qed.

Lemma default_gridSize_monotone_witness :
  exists g1 g2,
    _getGridSize 280 (s_ratio defaults) (s_thresholds defaults) = Normal g1 /\
    _getGridSize 2000 (s_ratio defaults) (s_thresholds defaults) = Normal g2 /\
    g1 <= g2.
Proof.
  assert (U1 : unsigned_long 280) by (unfold unsigned_long; lia).
  assert (U2 : unsigned_long 2000) by (unfold unsigned_long; lia).
  assert (O : (0 < 280 <= 2000)%Z) by lia.
  exists 7, 36. split; [reflexivity|]. split; [reflexivity|].
  exact (default_gridSize_monotone 280 2000 7 36 U1 U2 O eq_refl eq_refl).
Defined.

(** ** Stage and brick ratio *)

Lemma stage_crop (a g : Z) (y : Q) :
  y == inject_Z g -> (0 < g)%Z -> (0 <= a)%Z ->
  exists s,
    Js.sub (inject_Z a) (Js.rem (inject_Z a) y) = Some s /\
    0 <= s /\ s <= inject_Z a /\ inject_Z a - s < inject_Z g.
Proof.
  intros E Hg Ha.
  assert (N : ~ y == 0).
  { rewrite E. change 0 with (inject_Z 0). rewrite inject_Z_injective. lia. }
  rewrite rem_defined by exact N. cbn [Js.sub].
  eexists. split; [reflexivity|].
  rewrite (stage_integer a y g E Hg).
  pose proof (Z.rem_bound_pos a g Ha Hg) as [R0 R1].
  pose proof (Z.rem_le a g Ha Hg) as R2.
  unfold Qminus at 1. rewrite <- inject_Z_opp, <- inject_Z_plus.
  change 0 with (inject_Z 0). rewrite <- !Zle_Qle, <- Zlt_Qlt.
  revert R0 R1 R2. generalize (Z.rem a g). intros; lia.
Qed.

(** X5: when the grid size is a positive integer [g] and the element's
    width and height are not negative, the stage is cropped by less than
    one brick in each direction: [0 <= stageWidth <= width] with
    [width - stageWidth < g], and likewise for the height. *)
Theorem stage_crops_less_than_a_brick
    (el : Element) (st : Settings) (flag : option bool) (w : World) (g : Z) :
  init el st flag = Started w ->
  gridSize (self w) == inject_Z g -> (0 < g)%Z ->
  (0 <= width el)%Z -> (0 <= height el)%Z ->
  exists sw sh,
    stageWidth (self w) = Some sw /\ stageHeight (self w) = Some sh /\
    0 <= sw /\ sw <= inject_Z (width el) /\ inject_Z (width el) - sw < inject_Z g /\
    0 <= sh /\ sh <= inject_Z (height el) /\ inject_Z (height el) - sh < inject_Z g.
Proof.
  intros Hi E Hg Hw Hh.
  destruct (init_started _ _ _ _ Hi) as (_ & _ & _ & _ & _ & Sw & Sh & _).
  destruct (stage_crop (width el) g _ E Hg Hw) as (sw & E1 & A1 & A2 & A3).
  destruct (stage_crop (height el) g _ E Hg Hh) as (sh & E2 & B1 & B2 & B3).
  exists sw, sh. rewrite Sw, Sh. repeat split; assumption.
Qed.

Lemma stage_crops_less_than_a_brick_witness :
  exists w sw sh,
    init el301 defaults None = Started w /\
    stageWidth (self w) = Some sw /\ stageHeight (self w) = Some sh /\
    0 <= sw /\ sw <= 301 /\ 301 - sw < 15 /\
    0 <= sh /\ sh <= 200 /\ 200 - sh < 15.
Proof.
  match eval vm_compute in (init el301 defaults None) with
  | Started ?w0 =>
      exists w0;
      assert (I : init el301 defaults None = Started w0) by (vm_compute; reflexivity);
      destruct (stage_crops_less_than_a_brick el301 defaults None w0 15 I)
        as (sw & sh & H); [reflexivity | lia | cbn; lia | cbn; lia |];
      exists sw, sh; split; [exact I | exact H]
  end.
Defined.

(** X6: with the default settings and the flag clear, [init] on an image
    of positive width always starts a run: it does not throw, it sets the
    flag, and the brick ratio lies between 7/73 and 36/73, so the artwork
    is always scaled down. *)
Theorem default_init_starts (el : Element) (flag : option bool) :
  unsigned_long (width el) -> (0 < width el)%Z -> truthy flag = false ->
  exists w br,
    new_Plugin el no_options flag = Started w /\
    processing w = Some true /\
    brickRatio (self w) = Some br /\ 7 # 73 <= br /\ br <= 36 # 73.
Proof.
  intros Hu Hp Hf.
  destruct (getGridSize_default_bounds (width el) (unsigned_long_below _ Hu Hp))
    as (g & Hg & Hb).
  unfold new_Plugin, init. change (extend defaults no_options) with defaults.
  rewrite Hf, Hg. eexists. eexists. split; [reflexivity|]. cbn.
  split; [reflexivity|]. split; [reflexivity|].
  unfold Qdiv. change (/ 73) with (1 # 73).
  assert (L : inject_Z 7 <= inject_Z g) by (rewrite <- Zle_Qle; lia).
  assert (U : inject_Z g <= inject_Z 36) by (rewrite <- Zle_Qle; lia).
  change (inject_Z 7) with 7 in L. change (inject_Z 36) with 36 in U.
  split; lra.
Qed.

Lemma default_init_starts_witness :
  exists w br,
    new_Plugin el280 no_options None = Started w /\
    processing w = Some true /\
    brickRatio (self w) = Some br /\ 7 # 73 <= br /\ br <= 36 # 73.
Proof.
  assert (U : unsigned_long (width el280)) by (unfold unsigned_long; cbn; lia).
  assert (P : (0 < width el280)%Z) by (cbn; lia).
  exact (default_init_starts el280 None U P eq_refl).
Defined.

(** ** Shape scaler *)

Lemma started_thresholds_nonempty
    (el : Element) (st : Settings) (flag : option bool) (w : World) :
  init el st flag = Started w -> thresholds (self w) <> [].
Proof.
  intros Hi E.
  destruct (init_started _ _ _ _ Hi) as (_ & Hg & _ & Ht & _).
  rewrite Ht in E. rewrite E in Hg. discriminate Hg.
Qed.

(** X7: on the instance of a started run [_getScaledValue] never throws:
    an empty threshold array, the one input on which it would, already
    made [init] throw. *)
Theorem getScaledValue_total_after_init
    (el : Element) (st : Settings) (flag : option bool) (w : World) (v : Q) :
  init el st flag = Started w ->
  exists r, _getScaledValue (self w) v = Normal r.
Proof.
  intro Hi. pose proof (started_thresholds_nonempty _ _ _ _ Hi) as N.
  unfold _getScaledValue. destruct (thresholds (self w)); [congruence|].
  eexists. reflexivity.
Qed.

Lemma getScaledValue_total_after_init_witness :
  exists w r,
    init el280 defaults None = Started w /\
    _getScaledValue (self w) 36 = Normal r.
Proof.
  match eval vm_compute in (init el280 defaults None) with
  | Started ?w0 =>
      exists w0;
      assert (I : init el280 defaults None = Started w0) by (vm_compute; reflexivity);
      destruct (getScaledValue_total_after_init el280 defaults None w0 36 I) as (r & H);
      exists r; split; [exact I | exact H]
  end.
Defined.

Lemma Math_round_monotone (x y : Q) : x <= y -> Math_round x <= Math_round y.
Proof.
  intro H. unfold Math_round. rewrite <- Zle_Qle.
  apply Qfloor_resp_le. lra.
Qed.

(** The scaled value on an instance with a finite brick ratio. *)
Lemma getScaledValue_value
    (self : Plugin) (first : Threshold) (rest : list Threshold) (br v : Q) :
  thresholds self = first :: rest -> brickRatio self = Some br ->
  _getScaledValue self v =
    Normal (Some (if Js.le (stageWidth self) (maxImageWidth first)
                  then Math_round (v * br) else v * br)).
Proof.
  intros Ht Hb. unfold _getScaledValue. rewrite Ht, Hb. cbn [option_map].
  now destruct (Js.le _ _).
Qed.

(** X8: with a brick ratio that is not negative the scaler preserves
    order, in the rounding mode as in the other: [v1 <= v2] gives
    [_getScaledValue v1 <= _getScaledValue v2]. *)
Theorem getScaledValue_monotone
    (self : Plugin) (first : Threshold) (rest : list Threshold) (br v1 v2 : Q) :
  thresholds self = first :: rest -> brickRatio self = Some br ->
  0 <= br -> v1 <= v2 ->
  exists a b,
    _getScaledValue self v1 = Normal (Some a) /\
    _getScaledValue self v2 = Normal (Some b) /\ a <= b.
Proof.
  intros Ht Hb P L.
  rewrite !(getScaledValue_value self first rest br) by assumption.
  do 2 eexists. split; [reflexivity|]. split; [reflexivity|].
  assert (M : v1 * br <= v2 * br) by (apply Qmult_le_compat_r; assumption).
  destruct (Js.le _ _); [now apply Math_round_monotone | exact M].
Qed.

Lemma getScaledValue_monotone_witness :
  exists a b,
    _getScaledValue self2000 12 = Normal (Some a) /\
    _getScaledValue self2000 65 = Normal (Some b) /\ a <= b.
Proof.
  assert (P : 0 <= 36 # 73) by (apply Qle_bool_iff; reflexivity).
  assert (L : 12 <= 65) by (apply Qle_bool_iff; reflexivity).
  exact (getScaledValue_monotone self2000 th1 [th2; th3] (36 # 73) 12 65
           eq_refl eq_refl P L).
Defined.

(** ** Brick artwork *)

Section Artwork.

Variable self : Ieee.Plugin.
Variable first : Ieee.Threshold.
Variable rest : list Ieee.Threshold.
Hypothesis Hthresholds : Ieee.thresholds self = first :: rest.

Let f (v : Ieee.double) : Ieee.double := Ieee.scaler self first v.

Lemma getScaledValue_scaler (v : Ieee.double) :
  Ieee._getScaledValue self v = Normal (f v).
Proof.
  unfold Ieee._getScaledValue, f, Ieee.scaler. rewrite Hthresholds. reflexivity.
Qed.

Lemma scaled_positions_value (ps : list Ieee.double) :
  Ieee.scaled_positions self ps = Normal (map f ps).
Proof.
  induction ps as [|p ps IH]; [reflexivity|].
  cbn [Ieee.scaled_positions map]. rewrite getScaledValue_scaler, IH. reflexivity.
Qed.

Lemma draw_step_value (shape : Ieee.Shape) (d : Ieee.draw) :
  Ieee.draw_step self shape d
    = Normal (Ieee.graphics_call (Ieee.scaled_call f d) shape).
Proof.
  destruct d; cbn [Ieee.draw_step Ieee.scaled_call];
    unfold Ieee._beginLinearGradientFill, Ieee._moveTo, Ieee._lineTo,
           Ieee._bezierCurveTo, Ieee._arc;
    rewrite ?scaled_positions_value, ?getScaledValue_scaler; reflexivity.
Qed.

Lemma draw_all_value (ds : list Ieee.draw)
    (k : Ieee.Shape -> completion Ieee.Shape) (shape : Ieee.Shape) :
  Ieee.draw_all self ds k shape =
    k {| Ieee.graphics := Ieee.graphics shape ++ map (Ieee.scaled_call f) ds;
         Ieee.compositeOperation := Ieee.compositeOperation shape |}.
Proof.
  revert shape. induction ds as [|d ds IH]; intro shape.
  - cbn. rewrite app_nil_r. now destruct shape.
  - cbn [Ieee.draw_all map]. rewrite draw_step_value. cbn [Ieee.bind].
    rewrite IH. cbn. now rewrite <- app_assoc.
Qed.

Lemma element_at_map (ps : list Ieee.double) (k : nat) (P : Ieee.double -> Prop) :
  (k < length ps)%nat -> (forall v, P (f v)) ->
  Ieee.arg_is P (Ieee.element_at (map f ps) k).
Proof.
  intros Hk Hall. unfold Ieee.element_at.
  destruct (nth_error (map f ps) k) as [v|] eqn:E.
  - rewrite nth_error_map in E.
    destruct (nth_error ps k) as [p|] eqn:Ep; [|discriminate].
    injection E as <-. exists (f p). split; [reflexivity | apply Hall].
  - apply nth_error_None in E. rewrite length_map in E. lia.
Qed.

(** A call with the right number of positions passes only scaled
    numbers. *)
Lemma scaled_call_numbers (P : Ieee.double -> Prop) (d : Ieee.draw) :
  Ieee.arity_ok d = true -> (forall v, P (f v)) ->
  Forall (Ieee.arg_is P) (Ieee.call_numbers (Ieee.scaled_call f d)).
Proof.
  intros Ha Hall.
  assert (One : forall v, Ieee.arg_is P (Ieee.Number (f v))).
  { intro v. exists (f v). split; [reflexivity | apply Hall]. }
  destruct d; cbn [Ieee.scaled_call Ieee.call_numbers Ieee.arity_ok] in *;
    try (apply Nat.eqb_eq in Ha);
    repeat constructor; try apply One; apply element_at_map;
    try assumption; lia.
Qed.

Lemma scaled_calls_numbers (P : Ieee.double -> Prop) (ds : list Ieee.draw) :
  forallb Ieee.arity_ok ds = true -> (forall v, P (f v)) ->
  Forall (fun c => Forall (Ieee.arg_is P) (Ieee.call_numbers c))
         (map (Ieee.scaled_call f) ds).
Proof.
  induction ds as [|d ds IH]; intros Ha Hall; [constructor|].
  cbn [forallb] in Ha. apply andb_true_iff in Ha. destruct Ha as [Ha Has].
  cbn [map]. constructor; [now apply scaled_call_numbers | now apply IH].
Qed.

(** The two builders: the shapes they return. *)
Lemma getShadowDataURL_value :
  Ieee._getShadowDataURL self =
    Normal {| Ieee.graphics := map (Ieee.scaled_call f) Ieee.shadow_steps;
              Ieee.compositeOperation := Some "source-over"%string |}.
Proof.
  change (Ieee._getShadowDataURL self)
    with (Ieee.draw_all self Ieee.shadow_steps
            (fun s => Normal (Ieee.set_compositeOperation "source-over" s))
            Ieee.getShape).
  rewrite draw_all_value. reflexivity.
Qed.

Lemma getHighlightDataURL_value :
  Ieee._getHighlightDataURL self =
    Normal {| Ieee.graphics := map (Ieee.scaled_call f) Ieee.highlight_steps;
              Ieee.compositeOperation := Some "lighter"%string |}.
Proof.
  change (Ieee._getHighlightDataURL self)
    with (Ieee.draw_all self Ieee.highlight_steps
            (fun s => Normal (Ieee.set_compositeOperation "lighter" s))
            Ieee.getShape).
  rewrite draw_all_value. reflexivity.
Qed.

(** Both builders, for a property of every scaled value. *)
Lemma builders_numbers (P : Ieee.double -> Prop) :
  (forall v, P (Ieee.scaler self first v)) ->
  exists shadow highlight,
    Ieee._getShadowDataURL self = Normal shadow /\
    Ieee._getHighlightDataURL self = Normal highlight /\
    Ieee.compositeOperation shadow = Some "source-over"%string /\
    Ieee.compositeOperation highlight = Some "lighter"%string /\
    length (Ieee.graphics shadow) = 32%nat /\
    length (Ieee.graphics highlight) = 30%nat /\
    Ieee.all_numbers P shadow /\ Ieee.all_numbers P highlight.
Proof.
  intro HP.
  rewrite getShadowDataURL_value, getHighlightDataURL_value.
  do 2 eexists. split; [reflexivity|]. split; [reflexivity|].
  split; [reflexivity|]. split; [reflexivity|].
  split; [reflexivity|]. split; [reflexivity|].
  unfold Ieee.all_numbers. cbn [Ieee.graphics].
  split; apply scaled_calls_numbers; try reflexivity; exact HP.
Qed.

(** The same for a property of the values the coordinates of the calls
    scale to. *)
Lemma element_at_map_in (ps : list Ieee.double) (k : nat) (P : Ieee.double -> Prop) :
  (k < length ps)%nat -> (forall v, In v ps -> P (f v)) ->
  Ieee.arg_is P (Ieee.element_at (map f ps) k).
Proof.
  intros Hk Hall. unfold Ieee.element_at.
  destruct (nth_error (map f ps) k) as [v|] eqn:E.
  - rewrite nth_error_map in E.
    destruct (nth_error ps k) as [p|] eqn:Ep; [|discriminate].
    injection E as <-. exists (f p). split; [reflexivity|].
    apply Hall. eapply nth_error_In. exact Ep.
  - apply nth_error_None in E. rewrite length_map in E. lia.
Qed.

Lemma scaled_call_coordinates (P : Ieee.double -> Prop) (d : Ieee.draw) :
  Ieee.arity_ok d = true ->
  (forall v, In v (Ieee.coordinates d) -> P (f v)) ->
  Forall (Ieee.arg_is P) (Ieee.call_numbers (Ieee.scaled_call f d)).
Proof.
  intros Ha Hall.
  assert (One : forall v, In v (Ieee.coordinates d) -> Ieee.arg_is P (Ieee.Number (f v))).
  { intros v Hv. exists (f v). split; [reflexivity | now apply Hall]. }
  destruct d; cbn [Ieee.scaled_call Ieee.call_numbers Ieee.arity_ok Ieee.coordinates] in *;
    try (apply Nat.eqb_eq in Ha);
    repeat constructor;
    try (apply One; cbn; tauto);
    apply element_at_map_in; try assumption; lia.
Qed.

Lemma scaled_calls_coordinates (P : Ieee.double -> Prop) (ds : list Ieee.draw) :
  forallb Ieee.arity_ok ds = true ->
  (forall v, In v (flat_map Ieee.coordinates ds) -> P (f v)) ->
  Forall (fun c => Forall (Ieee.arg_is P) (Ieee.call_numbers c))
         (map (Ieee.scaled_call f) ds).
Proof.
  induction ds as [|d ds IH]; intros Ha Hall; [constructor|].
  cbn [forallb] in Ha. apply andb_true_iff in Ha. destruct Ha as [Ha Has].
  cbn [map]. cbn [flat_map] in Hall. constructor.
  - apply scaled_call_coordinates; [exact Ha|].
    intros v Hv. apply Hall, in_or_app. now left.
  - apply IH; [exact Has|].
    intros v Hv. apply Hall, in_or_app. now right.
Qed.

(** Both builders, for a property of the values their coordinates scale
    to. *)
Lemma builders_coordinates (P : Ieee.double -> Prop) :
  (forall v,
      In v (flat_map Ieee.coordinates (Ieee.shadow_steps ++ Ieee.highlight_steps)) ->
      P (Ieee.scaler self first v)) ->
  exists shadow highlight,
    Ieee._getShadowDataURL self = Normal shadow /\
    Ieee._getHighlightDataURL self = Normal highlight /\
    Ieee.all_numbers P shadow /\ Ieee.all_numbers P highlight.
Proof.
  intro HP.
  rewrite getShadowDataURL_value, getHighlightDataURL_value.
  do 2 eexists. split; [reflexivity|]. split; [reflexivity|].
  unfold Ieee.all_numbers. cbn [Ieee.graphics].
  split; apply scaled_calls_coordinates; try reflexivity;
    intros v Hv; apply HP; rewrite flat_map_app; apply in_or_app;
    [now left | now right].
Qed.

End Artwork.

Lemma double_started_thresholds_nonempty
    (el : Element) (st : Ieee.Settings) (flag : option bool) (self : Ieee.Plugin) :
  Ieee.init el st flag = Ieee.Started self -> Ieee.thresholds self <> [].
Proof.
  intros Hi E.
  destruct (double_init_started _ _ _ _ Hi) as (_ & Hg & _ & Ht & _).
  rewrite Ht in E. rewrite E in Hg. discriminate Hg.
Qed.

(** X10: on a started run both artwork builders return a shape without
    throwing, the shadow with blend mode "source-over" after 32 drawing
    calls and the highlight with "lighter" after 30, and every coordinate
    they hand to the drawing library is a number, none is [undefined]:
    each is a value that [_getScaledValue] returned. *)
Theorem artwork_built
    (el : Element) (st : Ieee.Settings) (flag : option bool) (self : Ieee.Plugin) :
  Ieee.init el st flag = Ieee.Started self ->
  exists shadow highlight,
    Ieee._getShadowDataURL self = Normal shadow /\
    Ieee._getHighlightDataURL self = Normal highlight /\
    Ieee.compositeOperation shadow = Some "source-over"%string /\
    Ieee.compositeOperation highlight = Some "lighter"%string /\
    length (Ieee.graphics shadow) = 32%nat /\
    length (Ieee.graphics highlight) = 30%nat /\
    Ieee.all_numbers
      (fun x => exists v, Ieee._getScaledValue self v = Normal x) shadow /\
    Ieee.all_numbers
      (fun x => exists v, Ieee._getScaledValue self v = Normal x) highlight.
Proof.
  intro Hi.
  pose proof (double_started_thresholds_nonempty _ _ _ _ Hi) as N.
  destruct (Ieee.thresholds self) as [|first rest] eqn:Ht; [congruence|].
  apply (builders_numbers self first rest Ht).
  intro v. exists v. apply (getScaledValue_scaler self first rest Ht).
Qed.

Lemma artwork_built_witness :
  exists self shadow highlight,
    Ieee.init el280 Ieee.defaults None = Ieee.Started self /\
    Ieee._getShadowDataURL self = Normal shadow /\
    Ieee._getHighlightDataURL self = Normal highlight /\
    Ieee.compositeOperation shadow = Some "source-over"%string /\
    Ieee.compositeOperation highlight = Some "lighter"%string /\
    length (Ieee.graphics shadow) = 32%nat /\
    length (Ieee.graphics highlight) = 30%nat /\
    Ieee.all_numbers
      (fun x => exists v, Ieee._getScaledValue self v = Normal x) shadow /\
    Ieee.all_numbers
      (fun x => exists v, Ieee._getScaledValue self v = Normal x) highlight.
Proof.
  match eval vm_compute in (Ieee.init el280 Ieee.defaults None) with
  | Ieee.Started ?p =>
      exists p;
      assert (I : Ieee.init el280 Ieee.defaults None = Ieee.Started p)
        by (vm_compute; reflexivity);
      destruct (artwork_built el280 Ieee.defaults None p I) as (sh & hl & H);
      exists sh, hl; split; [exact I | exact H]
  end.
Defined.

(** X11: in the rounding mode, that is when the stage width is at most
    the first threshold's [maxImageWidth], every coordinate of both
    artworks is an integer, unless it is not finite. *)
Theorem artwork_on_pixel_grid
    (self : Ieee.Plugin) (first : Ieee.Threshold) (rest : list Ieee.Threshold) :
  Ieee.thresholds self = first :: rest ->
  Ieee.leb (Ieee.stageWidth self) (Ieee.maxImageWidth first) = true ->
  exists shadow highlight,
    Ieee._getShadowDataURL self = Normal shadow /\
    Ieee._getHighlightDataURL self = Normal highlight /\
    Ieee.all_numbers Ieee.whole shadow /\
    Ieee.all_numbers Ieee.whole highlight.
Proof.
  intros Ht Hl.
  destruct (builders_numbers self first rest Ht Ieee.whole)
    as (sh & hl & H1 & H2 & _ & _ & _ & _ & A1 & A2).
  - intro v. unfold Ieee.scaler. rewrite Hl. apply Math_round_whole.
  - exists sh, hl. repeat split; assumption.
Qed.

Lemma artwork_on_pixel_grid_witness :
  exists self shadow highlight,
    Ieee.init el280 Ieee.defaults None = Ieee.Started self /\
    Ieee._getShadowDataURL self = Normal shadow /\
    Ieee._getHighlightDataURL self = Normal highlight /\
    Ieee.all_numbers Ieee.whole shadow /\
    Ieee.all_numbers Ieee.whole highlight.
Proof.
  match eval vm_compute in (Ieee.init el280 Ieee.defaults None) with
  | Ieee.Started ?p =>
      exists p;
      assert (I : Ieee.init el280 Ieee.defaults None = Ieee.Started p)
        by (vm_compute; reflexivity);
      destruct (artwork_on_pixel_grid p
                  {| Ieee.maxImageWidth := Ieee.lit 300;
                     Ieee.minBrickSize := Some (Ieee.lit 7);
                     Ieee.maxBrickSize := Some (Ieee.lit 15) |}
                  (tl (Ieee.s_thresholds Ieee.defaults)))
        as (sh & hl & H);
        [ vm_compute; reflexivity | vm_compute; reflexivity | ];
      exists sh, hl; split; [exact I | exact H]
  end.
Defined.

(** The positions of the shadow's first gradient, (36, 64) to (36, 6) on
    the reference brick: on the 280-wide image they are rounded onto the
    7-pixel brick, on the 2000-wide image they are fractions. *)
Example artwork_first_gradient :
  exists self self',
    Ieee.init el280 Ieee.defaults None = Ieee.Started self /\
    Ieee.scaled_positions self (map Ieee.lit [36; 64; 36; 6])
      = Normal (map Ieee.lit [3; 6; 3; 1]) /\
    Ieee.init el2000 Ieee.defaults None = Ieee.Started self' /\
    Ieee.scaled_positions self' (map Ieee.lit [36; 64; 36; 6])
      = Normal (map (fun v => Ieee.mul v (Ieee.div (Ieee.lit 36) (Ieee.lit 73)))
                    (map Ieee.lit [36; 64; 36; 6])).
Proof.
  match eval vm_compute in (Ieee.init el280 Ieee.defaults None) with
  | Ieee.Started ?p => exists p
  end.
  match eval vm_compute in (Ieee.init el2000 Ieee.defaults None) with
  | Ieee.Started ?p => exists p
  end.
  repeat split; vm_compute; reflexivity.
Qed.

(** The coordinates need not stay on the brick, nor be finite.  With
    reference brick size 15 an image 1240 wide has grid size 31, and the
    reference size itself scales to a number above 31, by one unit in the
    last place; with reference brick size 1/1e306 the brick ratio of the
    280-wide image is about 7e306 and 65 scales to [Infinity], which
    [Math.round] leaves as it is. *)
Example scaled_value_off_the_brick :
  exists self x self',
    Ieee.init {| width := 1240; height := 800; src := "photo.jpg" |}
      (Ieee.with_originalBricksize (Ieee.lit 15)) None = Ieee.Started self /\
    Ieee.gridSize self = Ieee.lit 31 /\
    Ieee._getScaledValue self (Ieee.lit 15) = Normal x /\
    Ieee.ltb (Ieee.gridSize self) x = true /\
    Ieee.init el280
      (Ieee.with_originalBricksize (Ieee.div (Ieee.lit 1) (Ieee.of_Z (10 ^ 306)))) None
      = Ieee.Started self' /\
    Ieee.leb (Ieee.stageWidth self') (Ieee.lit 300) = true /\
    Ieee._getScaledValue self' (Ieee.lit 65) = Normal (S754_infinity false).
Proof.
  match eval vm_compute in
        (Ieee.init {| width := 1240; height := 800; src := "photo.jpg" |}
           (Ieee.with_originalBricksize (Ieee.lit 15)) None) with
  | Ieee.Started ?p =>
      exists p;
      match eval vm_compute in (Ieee._getScaledValue p (Ieee.lit 15)) with
      | Normal ?y => exists y
      end
  end.
  match eval vm_compute in
        (Ieee.init el280
           (Ieee.with_originalBricksize (Ieee.div (Ieee.lit 1) (Ieee.of_Z (10 ^ 306))))
           None) with
  | Ieee.Started ?p => exists p
  end.
  repeat split; vm_compute; reflexivity.
Qed.

(** ** The default settings: everything stays on the brick *)

(** For each grid size of the default table, 7 to 36, every coordinate of
    both artworks and every integer from 0 to 73 scale onto the brick, in
    both modes. *)
Lemma default_sizes_checked :
  Ieee.all_widths 36
    (fun g => (g <? 7)%Z
              || (Ieee.default_artwork_fits g && Ieee.default_integers_fit g)) = true.
Proof. vm_compute; reflexivity. Qed.

Lemma default_closed_form_range (w : Z) :
  (7 <= Ieee.default_closed_form w <= 36)%Z.
Proof.
  unfold Ieee.default_closed_form.
  destruct (w <=? 300)%Z; [lia|].
  destruct (Z.leb_spec w 1200) as [L|L]; [lia|].
  assert (30 <= w / 40)%Z by (apply Z.div_le_lower_bound; lia). lia.
Qed.

Lemma default_size_checked (g : Z) :
  (7 <= g <= 36)%Z ->
  Ieee.default_artwork_fits g = true /\ Ieee.default_integers_fit g = true.
Proof.
  intro Hg.
  pose proof (all_widths_spec _ _ default_sizes_checked g ltac:(lia)) as H.
  cbv beta in H. apply orb_true_iff in H. destruct H as [H|H].
  - apply Z.ltb_lt in H. lia.
  - now apply andb_true_iff in H.
Qed.

(** What [init] stores for the default settings and a width from 1 to
    8192: a grid size of the table, and the scaler of that size. *)
Lemma default_started_scaler (el : Element) (self : Ieee.Plugin) :
  (0 < width el <= 8192)%Z ->
  Ieee.init el Ieee.defaults None = Ieee.Started self ->
  exists g first rest,
    (7 <= g <= 36)%Z /\
    Ieee.gridSize self = Ieee.of_Z g /\
    Ieee.thresholds self = first :: rest /\
    forall v, exists rounding,
      Ieee.scaler self first v = Ieee.default_scaled rounding g v.
Proof.
  intros Hw Hi.
  destruct (double_init_started _ _ _ _ Hi) as (_ & Hg & _ & Ht & Hb & _).
  pose proof (all_widths_spec _ _ default_table_checked (width el) ltac:(lia)) as A.
  unfold Ieee.default_agrees in A. rewrite Hg in A. apply identical_eq in A.
  exists (Ieee.default_closed_form (width el)).
  destruct (Ieee.s_thresholds Ieee.defaults) as [|first rest] eqn:E;
    [discriminate E|].
  exists first, rest.
  split; [apply default_closed_form_range|].
  split; [exact A|]. split; [exact Ht|].
  intro v.
  exists (Ieee.leb (Ieee.stageWidth self) (Ieee.maxImageWidth first)).
  unfold Ieee.scaler, Ieee.default_scaled. rewrite Hb, A. reflexivity.
Qed.

Lemma fits_on_brick (g : Z) (v : Ieee.double) (rounding : bool) :
  Ieee.fits g v = true ->
  Ieee.on_brick (Ieee.of_Z g) (Ieee.default_scaled rounding g v) = true.
Proof.
  unfold Ieee.fits. intro H. apply andb_true_iff in H.
  destruct rounding; tauto.
Qed.

(** X9: with the default settings and an image from 1 to 8192 pixels
    wide, every integer from 0 to the reference brick size 73 is scaled
    by [_getScaledValue] to a number from 0 to the grid size, in the
    rounding mode and outside it. *)
Theorem default_scaled_value_in_brick
    (el : Element) (self : Ieee.Plugin) (v : Z) :
  (0 < width el <= 8192)%Z ->
  (0 <= v <= 73)%Z ->
  Ieee.init el Ieee.defaults None = Ieee.Started self ->
  exists x,
    Ieee._getScaledValue self (Ieee.of_Z v) = Normal x /\
    Ieee.on_brick (Ieee.gridSize self) x = true.
Proof.
  intros Hw Hv Hi.
  destruct (default_started_scaler el self Hw Hi)
    as (g & first & rest & Hg & Gs & Ht & Sc).
  exists (Ieee.scaler self first (Ieee.of_Z v)).
  split; [apply (getScaledValue_scaler self first rest Ht)|].
  destruct (Sc (Ieee.of_Z v)) as [b ->]. rewrite Gs.
  apply fits_on_brick.
  destruct (default_size_checked g Hg) as [_ F].
  unfold Ieee.default_integers_fit in F. apply andb_true_iff in F.
  destruct F as [F0 F].
  destruct (Z.eq_dec v 0) as [->|N]; [exact F0|].
  exact (all_widths_spec _ _ F v ltac:(lia)).
Qed.

Lemma default_scaled_value_in_brick_witness :
  exists self x,
    Ieee.init el2000 Ieee.defaults None = Ieee.Started self /\
    Ieee._getScaledValue self (Ieee.of_Z 73) = Normal x /\
    Ieee.on_brick (Ieee.gridSize self) x = true.
Proof.
  match eval vm_compute in (Ieee.init el2000 Ieee.defaults None) with
  | Ieee.Started ?p =>
      exists p;
      assert (I : Ieee.init el2000 Ieee.defaults None = Ieee.Started p)
        by (vm_compute; reflexivity);
      assert (W : (0 < width el2000 <= 8192)%Z) by (cbn; lia);
      assert (V : (0 <= 73 <= 73)%Z) by lia;
      destruct (default_scaled_value_in_brick el2000 p 73 W V I) as (x & H);
      exists x; split; [exact I | exact H]
  end.
Defined.

(** X22: with the default settings and an image from 1 to 8192 pixels
    wide, every coordinate that the two artwork builders hand to the
    drawing library lies between 0 and the grid size, so the artwork
    stays on the scratch canvas, which is one brick wide and high. *)
Theorem default_artwork_on_brick (el : Element) (self : Ieee.Plugin) :
  (0 < width el <= 8192)%Z ->
  Ieee.init el Ieee.defaults None = Ieee.Started self ->
  exists shadow highlight,
    Ieee._getShadowDataURL self = Normal shadow /\
    Ieee._getHighlightDataURL self = Normal highlight /\
    Ieee.all_numbers
      (fun x => Ieee.on_brick (Ieee.gridSize self) x = true) shadow /\
    Ieee.all_numbers
      (fun x => Ieee.on_brick (Ieee.gridSize self) x = true) highlight.
Proof.
  intros Hw Hi.
  destruct (default_started_scaler el self Hw Hi)
    as (g & first & rest & Hg & Gs & Ht & Sc).
  apply (builders_coordinates self first rest Ht).
  intros v Hv. destruct (Sc v) as [b ->]. rewrite Gs.
  apply fits_on_brick.
  destruct (default_size_checked g Hg) as [F _].
  unfold Ieee.default_artwork_fits in F.
  rewrite forallb_forall in F. now apply F.
Qed.

Lemma default_artwork_on_brick_witness :
  exists self shadow highlight,
    Ieee.init el2000 Ieee.defaults None = Ieee.Started self /\
    Ieee._getShadowDataURL self = Normal shadow /\
    Ieee._getHighlightDataURL self = Normal highlight /\
    Ieee.all_numbers
      (fun x => Ieee.on_brick (Ieee.gridSize self) x = true) shadow /\
    Ieee.all_numbers
      (fun x => Ieee.on_brick (Ieee.gridSize self) x = true) highlight.
Proof.
  match eval vm_compute in (Ieee.init el2000 Ieee.defaults None) with
  | Ieee.Started ?p =>
      exists p;
      assert (I : Ieee.init el2000 Ieee.defaults None = Ieee.Started p)
        by (vm_compute; reflexivity);
      assert (W : (0 < width el2000 <= 8192)%Z) by (cbn; lia);
      destruct (default_artwork_on_brick el2000 p W I) as (sh & hl & H);
      exists sh, hl; split; [exact I | exact H]
  end.
Defined.

(** ** The run as a whole *)

(** A property kept by every move of the environment holds throughout a
    run. *)
Lemma run_invariant (I : World -> Prop) :
  (forall c w w', I w -> fire c w = Some w' -> I w') ->
  forall cs w w', I w -> run cs w = Some w' -> I w'.
Proof.
  intros Step cs. induction cs as [|c cs IH]; intros w w' Hw Hr; simpl in Hr.
  - injection Hr as <-. exact Hw.
  - destruct (fire c w) as [w1|] eqn:F; [|discriminate].
    exact (IH w1 w' (Step c w w1 Hw F) Hr).
Qed.

(** The cases of [fire]: the callback that ran and the world it ran in. *)
Ltac fire_cases F :=
  match type of F with
  | fire ?c ?w = Some _ =>
      destruct c; cbn [fire] in F;
      try (destruct (in_dec callback_eq_dec _ (pending w)) as [Hin|]; [|discriminate F]);
      try (destruct (loading w) as [|n] eqn:Hl; [discriminate F|]);
      injection F as <-
  end.

Lemma scratch_onload_cases (op : string) (w : World) :
  (op = "multiply"%string /\
   scratch_onload op w =
     scratch_attr_src HighlightDataURL
       (set_load_handler (Some "lighter"%string)
          (emit [scratch_addChild; buildGrid (gridSize (self w)) "#c0c0c0" (1 # 2)]
             (emit [fillRect op (stageWidth (self w)) (stageHeight (self w))] w)))) \/
  (op = "lighter"%string /\
   scratch_onload op w =
     emit [trigger "image:brickified"]
       (_setProcessing false
          (emit [moveOnscreen; destroy]
             (scratch_attr_src StageDataURL
                (set_load_handler None
                   (emit [off_load]
                      (emit [fillRect op (stageWidth (self w)) (stageHeight (self w))] w))))))) \/
  (op <> "multiply"%string /\ op <> "lighter"%string /\
   scratch_onload op w =
     emit [fillRect op (stageWidth (self w)) (stageHeight (self w))] w).
Proof.
  unfold scratch_onload.
  destruct (String.eqb op "multiply") eqn:E1.
  - left. apply String.eqb_eq in E1. now split.
  - destruct (String.eqb op "lighter") eqn:E2.
    + right. left. apply String.eqb_eq in E2. now split.
    + right. right. apply String.eqb_neq in E1. apply String.eqb_neq in E2.
      now repeat split.
Qed.

Lemma is_pass_other (op x : string) (a b : option Q) :
  op <> x -> is_pass x (fillRect op a b) = false.
Proof. intro H. cbn. now apply String.eqb_neq. Qed.

(** *** The flag *)

(** X15: after [init] and an image load error alone the page stays busy:
    [init] for any other element and settings is deferred. *)
Theorem image_error_blocks_later_runs
    (el : Element) (st : Settings) (flag : option bool) (w0 w1 : World)
    (el' : Element) (st' : Settings) :
  init el st flag = Started w0 ->
  fire onLoadError w0 = Some w1 ->
  width (element (self w1)) = 34%Z /\
  init el' st' (_isProcessing w1) = Deferred.
Proof.
  intros Hi F.
  destruct (init_started _ _ _ _ Hi)
    as (_ & _ & _ & _ & _ & _ & _ & Hp & _).
  unfold fire in F. destruct (in_dec _ _ _); [|discriminate].
  injection F as <-. split; [reflexivity|].
  unfold _isProcessing. cbn. rewrite Hp. reflexivity.
Qed.

Lemma image_error_blocks_later_runs_witness :
  exists w0 w1,
    init el280 defaults None = Started w0 /\
    fire onLoadError w0 = Some w1 /\
    width (element (self w1)) = 34%Z /\
    init el2000 defaults (_isProcessing w1) = Deferred.
Proof.
  match eval vm_compute in (init el280 defaults None) with
  | Started ?w0 =>
      match eval vm_compute in (fire onLoadError w0) with
      | Some ?w =>
          exists w0, w;
          assert (I : init el280 defaults None = Started w0)
            by (vm_compute; reflexivity);
          assert (R : fire onLoadError w0 = Some w)
            by (vm_compute; reflexivity);
          split; [exact I|]; split; [exact R|];
          exact (image_error_blocks_later_runs el280 defaults None w0 w
                   el2000 defaults I R)
      end
  end.
Defined.

(** *** Phases *)

Lemma in_remove_iff (x c : callback) (l : list callback) :
  In x (remove callback_eq_dec c l) <-> In x l /\ x <> c.
Proof.
  split; [apply in_remove | intros [H N]; now apply in_in_remove].
Qed.

Lemma count_app (p : action -> bool) (tr acts : list action) :
  count p (tr ++ acts) = (count p tr + count p acts)%nat.
Proof. unfold count. now rewrite filter_app, length_app. Qed.

Lemma count_existsb (p : action -> bool) (tr : list action) :
  existsb p tr = negb (Nat.eqb (count p tr) 0).
Proof.
  unfold count. induction tr as [|a tr IH]; [reflexivity|].
  cbn. destruct (p a); [reflexivity | exact IH].
Qed.

Lemma tail_after_app (p : action -> bool) (tr acts : list action) :
  tail_after p (tr ++ acts) =
    if existsb p tr then tail_after p tr ++ acts else tail_after p acts.
Proof.
  induction tr as [|a tr IH]; [reflexivity|].
  cbn. destruct (p a); [reflexivity | exact IH].
Qed.

Ltac phase_contradiction :=
  match goal with
  | Hin : In ?c (pending _), H : In ?c (pending _) <-> _ |- _ =>
      apply H in Hin; discriminate Hin
  end.

Ltac phase_field :=
  cbn [pending load_handler trace self processing loading
       body _process _onImageError _onEffectError removenoise_done mosaic_start
       _paintBrickPattern scratch_attr_src hand_out emit set_pending set_self
       set_processing set_load_handler set_loading _setProcessing];
  lazymatch goal with
  | |- In _ _ <-> _ =>
      cbn [In]; rewrite ?in_remove_iff;
      intuition (try discriminate; try congruence; try lia)
  | |- count _ _ = _ =>
      rewrite ?count_app;
      repeat match goal with H : count _ _ = _ |- _ => rewrite H; clear H end;
      reflexivity
  | |- forallb _ (tail_after _ _) = true =>
      rewrite ?tail_after_app, ?existsb_app;
      match goal with
      | H : count ?p ?tr = _ |- context [existsb ?p ?tr] =>
          rewrite (count_existsb p tr), H
      end;
      cbn; rewrite ?forallb_app; cbn; rewrite ?andb_true_r;
      first [ reflexivity | assumption ]
  | |- _ = _ => first [ reflexivity | assumption ]
  end.

Ltac phase_solve k' :=
  solve [exists k'; split; [lia|]; split; phase_field].

(** Every move of the environment keeps the run in a phase, the same or
    the next. *)
Lemma in_phase_fire (c : callback) (w w' : World) (k : nat) :
  in_phase k w -> (k <= 6)%nat -> fire c w = Some w' ->
  exists k', (k <= k' <= 6)%nat /\ in_phase k' w'.
Proof.
  intros [Po Pn Pt Pm Ph N1 N2 N3 N4 N5 Q] Hk F.
  destruct k as [|[|[|[|[|[|[|k]]]]]]]; [| | | | | | |lia];
    cbn [Nat.eqb Nat.leb b2n] in *;
    fire_cases F; try phase_contradiction;
    try rewrite Ph; cbn [body scratch_onload String.eqb Ascii.eqb Bool.eqb];
    cbn [load_handler set_loading emit].
  all: try rewrite Ph.
  all: try (cbn [scratch_onload]; cbv [String.eqb Ascii.eqb Bool.eqb]; cbn iota).
  all: first
    [ phase_solve 0%nat | phase_solve 1%nat | phase_solve 2%nat
    | phase_solve 3%nat | phase_solve 4%nat | phase_solve 5%nat
    | phase_solve 6%nat ].
Qed.

Lemma in_phase_init (el : Element) (st : Settings) (flag : option bool) (w : World) :
  init el st flag = Started w -> in_phase 0 w.
Proof.
  intro Hi.
  destruct (init_started _ _ _ _ Hi)
    as (_ & _ & _ & _ & _ & _ & _ & _ & Hp & Hh & _ & Ht).
  split; rewrite ?Hp, ?Hh, ?Ht; try reflexivity;
    cbn [In]; intuition (try discriminate; try congruence).
Qed.

Lemma in_phase_run
    (el : Element) (st : Settings) (flag : option bool)
    (w0 : World) (cs : list callback) (w : World) :
  init el st flag = Started w0 -> run cs w0 = Some w ->
  exists k, (k <= 6)%nat /\ in_phase k w.
Proof.
  intros Hi Hr.
  apply (run_invariant (fun w => exists k, (k <= 6)%nat /\ in_phase k w))
    with (cs := cs) (w := w0); [| |exact Hr].
  - intros c w1 w2 (k & Hk & P) F.
    destruct (in_phase_fire c w1 w2 k P Hk F) as (k' & Hk' & P').
    exists k'. split; [lia | exact P'].
  - exists 0%nat. split; [lia|]. exact (in_phase_init el st flag w0 Hi).
Qed.

(** X13: in a run started by [init], whatever the environment does with
    the callbacks it holds, each stage is performed at most once and none
    without its predecessor: the noise removal is applied at most once,
    the mosaic no more often than the noise removal, the shadow pass no
    more often than the mosaic, the highlight pass no more often than the
    shadow pass, and the completion event is triggered exactly as often as
    the highlight pass is drawn. *)
Theorem stages_performed_once
    (el : Element) (st : Settings) (flag : option bool)
    (w0 : World) (cs : list callback) (w : World) :
  init el st flag = Started w0 ->
  run cs w0 = Some w ->
  (count (is_applyEffect "removenoise") (trace w) <= 1)%nat /\
  (count (is_applyEffect "mosaic") (trace w)
     <= count (is_applyEffect "removenoise") (trace w))%nat /\
  (count (is_pass "multiply") (trace w)
     <= count (is_applyEffect "mosaic") (trace w))%nat /\
  (count (is_pass "lighter") (trace w)
     <= count (is_pass "multiply") (trace w))%nat /\
  count (is_trigger "image:brickified") (trace w)
    = count (is_pass "lighter") (trace w).
Proof.
  intros Hi Hr.
  destruct (in_phase_run el st flag w0 cs w Hi Hr)
    as (k & Hk & [_ _ _ _ _ N1 N2 N3 N4 N5 _]).
  rewrite N1, N2, N3, N4, N5.
  destruct k as [|[|[|[|[|[|[|k]]]]]]]; cbn; lia.
Qed.

Lemma stages_performed_once_witness :
  exists w0 w,
    init el280 defaults None = Started w0 /\
    run (complete_run ++ [scratch_load]) w0 = Some w /\
    (count (is_applyEffect "removenoise") (trace w) <= 1)%nat /\
    (count (is_applyEffect "mosaic") (trace w)
       <= count (is_applyEffect "removenoise") (trace w))%nat /\
    (count (is_pass "multiply") (trace w)
       <= count (is_applyEffect "mosaic") (trace w))%nat /\
    (count (is_pass "lighter") (trace w)
       <= count (is_pass "multiply") (trace w))%nat /\
    count (is_trigger "image:brickified") (trace w)
      = count (is_pass "lighter") (trace w).
Proof.
  match eval vm_compute in (init el280 defaults None) with
  | Started ?w0 =>
      match eval vm_compute in (run (complete_run ++ [scratch_load]) w0) with
      | Some ?w =>
          exists w0, w;
          assert (I : init el280 defaults None = Started w0)
            by (vm_compute; reflexivity);
          assert (R : run (complete_run ++ [scratch_load]) w0 = Some w)
            by (vm_compute; reflexivity);
          split; [exact I|]; split; [exact R|];
          exact (stages_performed_once el280 defaults None w0 _ w I R)
      end
  end.
Defined.

(** Only an image load error touches the element. *)
Lemma element_fire (el : Element) (c : callback) (w w' : World) :
  element (self w) = el \/ element (self w) = placeholder ->
  fire c w = Some w' ->
  element (self w') = el \/ element (self w') = placeholder.
Proof.
  intros H F. fire_cases F.
  1-6: cbn; first [exact H | right; reflexivity].
  cbn [body]. cbn [load_handler set_loading emit].
  destruct (load_handler w) as [op|].
  - destruct (scratch_onload_cases op
                (set_loading n (emit [Fired scratch_load] w)))
      as [[-> ->] | [[-> ->] | (N1 & N2 & ->)]]; cbn; exact H.
  - cbn. exact H.
Qed.

(** X14: once the completion event has been triggered the pipeline is
    over: the "load" handler is unbound, no stage callback is outstanding,
    and whatever callbacks the environment still runs (the "load" event of
    the final image, the error callbacks) no effect is applied, nothing is
    drawn and no event is triggered any more: the trace after the event
    holds callback runs only.  What can still change is the element: it is
    the one given to [init] unless an image load error, however late, has
    put the placeholder in its place. *)
Theorem nothing_after_completion
    (el : Element) (st : Settings) (flag : option bool)
    (w0 : World) (cs : list callback) (w : World) :
  init el st flag = Started w0 ->
  run cs w0 = Some w ->
  occurs (is_trigger "image:brickified") (trace w) ->
  load_handler w = None /\
  ~ In onLoad (pending w) /\
  ~ In removenoise_callback (pending w) /\
  ~ In mosaic_timeout (pending w) /\
  ~ In mosaic_callback (pending w) /\
  forallb is_callback_run
    (tail_after (is_trigger "image:brickified") (trace w)) = true /\
  (element (self w) = el \/ element (self w) = placeholder).
Proof.
  intros Hi Hr Ho.
  assert (E : element (self w) = el \/ element (self w) = placeholder).
  { apply (run_invariant
             (fun w => element (self w) = el \/ element (self w) = placeholder)
             (element_fire el) cs w0 w); [|exact Hr].
    left. destruct (init_started _ _ _ _ Hi) as (_ & _ & He & _). exact He. }
  destruct (in_phase_run el st flag w0 cs w Hi Hr)
    as (k & Hk & [Po Pn Pt Pm Ph _ _ _ _ N5 Q]).
  unfold occurs in Ho. rewrite count_existsb, N5 in Ho.
  destruct k as [|[|[|[|[|[|[|k]]]]]]]; try discriminate Ho; [|lia].
  rewrite Ph, Po, Pn, Pt, Pm. cbn.
  repeat split; try discriminate; try exact Q; exact E.
Qed.

Lemma nothing_after_completion_witness :
  exists w0 w,
    init el280 defaults None = Started w0 /\
    run (complete_run ++ [scratch_load; onEffectError; onLoadError]) w0 = Some w /\
    load_handler w = None /\
    tail_after (is_trigger "image:brickified") (trace w) =
      [Fired scratch_load; Fired onEffectError; Fired onLoadError] /\
    element (self w) = placeholder.
Proof.
  match eval vm_compute in (init el280 defaults None) with
  | Started ?w0 =>
      match eval vm_compute in
            (run (complete_run ++ [scratch_load; onEffectError; onLoadError]) w0) with
      | Some ?w =>
          exists w0, w;
          assert (I : init el280 defaults None = Started w0)
            by (vm_compute; reflexivity);
          assert (R : run (complete_run ++ [scratch_load; onEffectError; onLoadError]) w0
                      = Some w)
            by (vm_compute; reflexivity);
          assert (O : occurs (is_trigger "image:brickified") (trace w))
            by (vm_compute; reflexivity);
          split; [exact I|]; split; [exact R|];
          split;
            [ exact (proj1 (nothing_after_completion el280 defaults None w0 _ w I R O))
            | split; vm_compute; reflexivity ]
      end
  end.
Defined.

(** *** Several images *)

Lemma in_phase_set_processing (k : nat) (v : option bool) (w : World) :
  in_phase k w -> in_phase k (set_processing v w).
Proof. intros [? ? ? ? ? ? ? ? ? ? ?]. split; assumption. Qed.

(** A callback other than the effect error handler leaves the flag and
    the completion as they are, unless it is the one that completes the
    run: then the run was not complete, and the flag is cleared. *)
Lemma fire_completion (c : callback) (w w' : World) (k : nat) :
  in_phase k w -> (k <= 6)%nat -> c <> onEffectError -> fire c w = Some w' ->
  (existsb (is_trigger "image:brickified") (trace w')
     = existsb (is_trigger "image:brickified") (trace w) /\
   processing w' = processing w) \/
  (existsb (is_trigger "image:brickified") (trace w) = false /\
   existsb (is_trigger "image:brickified") (trace w') = true /\
   processing w' = Some false).
Proof.
  intros [Po Pn Pt Pm Ph N1 N2 N3 N4 N5 Q] Hk Hc F.
  fire_cases F; try congruence.
  1-5: left; cbn; rewrite ?existsb_app; cbn; rewrite ?orb_false_r; split; reflexivity.
  cbn [body]. cbn [load_handler set_loading emit]. rewrite Ph.
  destruct k as [|[|[|[|[|[|[|k]]]]]]]; [| | | | | | |lia];
    cbn [Nat.eqb]; cbn [scratch_onload]; cbv [String.eqb Ascii.eqb Bool.eqb]; cbn iota.
  1-5, 7: left; cbn; rewrite ?existsb_app; cbn; rewrite ?orb_false_r;
          split; reflexivity.
  right. cbn. rewrite ?existsb_app. cbn. rewrite ?orb_true_r.
  split; [|split; reflexivity].
  rewrite count_existsb, N5. reflexivity.
Qed.

Lemma nth_error_split_at {A : Type} (l : list A) (i : nat) (x : A) :
  nth_error l i = Some x -> l = firstn i l ++ x :: skipn (S i) l.
Proof.
  revert i. induction l as [|a l IH]; intros [|i] H; try discriminate.
  - cbn in H. injection H as ->. reflexivity.
  - cbn in H. cbn. f_equal. now apply IH.
Qed.

(** Replacing an instance changes the number of holders by what the two
    instances hold. *)
Lemma holders_set_instance (l : list instance) (i : nat) (x y : instance) :
  nth_error l i = Some x ->
  (length (filter holds_flag (set_instance i y l)) + b2n (holds_flag x)
   = length (filter holds_flag l) + b2n (holds_flag y))%nat.
Proof.
  intro H. rewrite (nth_error_split_at l i x H) at 2.
  unfold set_instance. rewrite !filter_app, !length_app. cbn [filter].
  destruct (holds_flag x), (holds_flag y); cbn [length b2n]; lia.
Qed.

Lemma instance_ok_set_instance (l : list instance) (i : nat) (y : instance) :
  Forall instance_ok l -> instance_ok y -> Forall instance_ok (set_instance i y l).
Proof.
  intros Hl Hy. unfold set_instance. apply Forall_app. split.
  - apply Forall_forall. intros z Hz. rewrite Forall_forall in Hl.
    apply Hl. rewrite <- (firstn_skipn i l). apply in_or_app. now left.
  - constructor; [exact Hy|].
    apply Forall_forall. intros z Hz. rewrite Forall_forall in Hl.
    apply Hl. rewrite <- (firstn_skipn (S i) l). apply in_or_app. now right.
Qed.

Lemma serialised_step (m : move) (s s' : Site) :
  serialised s -> is_effect_error m = false -> step m s = Some s' ->
  serialised s'.
Proof.
  unfold serialised. intros [C K] Hm S. destruct m as [i|i c]; cbn [step] in S.
  - destruct (nth_error (instances s) i) as [[el st|w|]|] eqn:N; try discriminate S.
    injection S as <-. cbn [site_flag instances].
    pose proof (holders_set_instance (instances s) i (Waiting el st)
                  (after_init el st (init el st (site_flag s))) N) as H.
    cbn [holds_flag b2n] in H.
    destruct (init el st (site_flag s)) as [| |w0] eqn:I;
      cbn [after_init holds_flag flag_after b2n] in *.
    + split; [lia|].
      apply instance_ok_set_instance; [exact K | exact Logic.I].
    + assert (T : truthy (site_flag s) = false).
      { unfold init in I. destruct (truthy (site_flag s)); [discriminate I|reflexivity]. }
      rewrite T in C. cbn [b2n truthy] in *.
      split; [lia|].
      apply instance_ok_set_instance; [exact K | exact Logic.I].
    + destruct (init_started _ _ _ _ I)
        as (T & _ & _ & _ & _ & _ & _ & Hp & _ & _ & _ & Ht).
      rewrite T in C. cbn [b2n] in C.
      rewrite Ht in H. cbn in H.
      rewrite Hp. split; [cbn [truthy b2n]; lia|].
      apply instance_ok_set_instance; [exact K|].
      exists 0%nat. split; [lia|]. exact (in_phase_init el st _ w0 I).
  - destruct (nth_error (instances s) i) as [[el st|w|]|] eqn:N; try discriminate S.
    destruct (fire c (set_processing (site_flag s) w)) as [w'|] eqn:F;
      [|discriminate S].
    injection S as <-. cbn [site_flag instances].
    assert (Kw : instance_ok (Running w)).
    { rewrite Forall_forall in K. apply K. eapply nth_error_In; eassumption. }
    destruct Kw as (k & Hk & P).
    pose proof (in_phase_set_processing k (site_flag s) w P) as P1.
    destruct (in_phase_fire c _ w' k P1 Hk F) as (k' & Hk' & P').
    assert (Hc : c <> onEffectError).
    { intros ->. discriminate Hm. }
    pose proof (holders_set_instance (instances s) i (Running w) (Running w') N) as H.
    cbn [holds_flag] in H.
    split.
    + destruct (fire_completion c _ w' k P1 Hk Hc F)
        as [[Et Ep] | (E0 & E1 & Ep)]; cbn [trace set_processing processing] in *.
      * rewrite Et in H. rewrite Ep. lia.
      * rewrite E0, E1 in H. cbn [negb b2n] in H. rewrite Ep. cbn [truthy b2n].
        destruct (truthy (site_flag s)); cbn [b2n] in C; lia.
    + apply instance_ok_set_instance; [exact K|].
      exists k'. split; [lia | exact P'].
Qed.

Lemma serialised_fresh (images : list (Element * Settings)) :
  serialised (fresh_site images).
Proof.
  unfold serialised, fresh_site. cbn [site_flag instances truthy b2n].
  induction images as [|p images [IH1 IH2]]; [split; [reflexivity | constructor]|].
  cbn [map filter holds_flag]. split; [exact IH1|].
  constructor; [exact Logic.I | exact IH2].
Qed.

(** X12: on a page with any number of images the runs take turns, as
    long as no effect error is reported: whatever [init] calls, retries
    and callbacks have happened, the busy flag is [true] exactly when one
    instance holds it, its run started and not yet completed (or its
    [init] having thrown), and no two instances hold it at once. *)
Theorem runs_take_turns
    (images : list (Element * Settings)) (ms : list move) (s : Site) :
  steps ms (fresh_site images) = Some s ->
  forallb (fun m => negb (is_effect_error m)) ms = true ->
  length (filter holds_flag (instances s)) = b2n (truthy (site_flag s)).
Proof.
  intros Hs Hm.
  assert (G : forall ms s0 s1, serialised s0 ->
                forallb (fun m => negb (is_effect_error m)) ms = true ->
                steps ms s0 = Some s1 -> serialised s1).
  { clear. induction ms as [|m ms IH]; intros s0 s1 I0 Hm Hs; cbn in Hs.
    - injection Hs as <-. exact I0.
    - cbn [forallb] in Hm. apply andb_true_iff in Hm. destruct Hm as [H1 H2].
      destruct (step m s0) as [s'|] eqn:S; [|discriminate Hs].
      apply (IH s' s1); [|exact H2|exact Hs].
      apply (serialised_step m s0 s'); [exact I0| |exact S].
      now apply negb_true_iff in H1. }
  exact (proj1 (G ms _ s (serialised_fresh images) Hm Hs)).
Qed.

Lemma runs_take_turns_witness :
  exists s,
    steps ([call_init 0; call_init 1]
             ++ map (run_callback 0) complete_run
             ++ [call_init 1; run_callback 1 onLoad])
          (fresh_site [(el280, defaults); (el2000, defaults)]) = Some s /\
    length (filter holds_flag (instances s)) = b2n (truthy (site_flag s)) /\
    map holds_flag (instances s) = [false; true].
Proof.
  match eval vm_compute in
        (steps ([call_init 0; call_init 1]
                  ++ map (run_callback 0) complete_run
                  ++ [call_init 1; run_callback 1 onLoad])
               (fresh_site [(el280, defaults); (el2000, defaults)])) with
  | Some ?s0 =>
      exists s0;
      assert (R : steps ([call_init 0; call_init 1]
                           ++ map (run_callback 0) complete_run
                           ++ [call_init 1; run_callback 1 onLoad])
                        (fresh_site [(el280, defaults); (el2000, defaults)]) = Some s0)
        by (vm_compute; reflexivity);
      assert (M : forallb (fun m => negb (is_effect_error m))
                    ([call_init 0; call_init 1]
                       ++ map (run_callback 0) complete_run
                       ++ [call_init 1; run_callback 1 onLoad]) = true)
        by (vm_compute; reflexivity);
      split; [exact R|]; split;
        [ exact (runs_take_turns [(el280, defaults); (el2000, defaults)] _ s0 R M)
        | vm_compute; reflexivity ]
  end.
Defined.

(** An effect error breaks the turns: it clears the flag under a run that
    goes on, so that a second run starts beside it. *)
Example effect_error_breaks_turns :
  exists s,
    steps [call_init 0; call_init 1; run_callback 0 onLoad;
           run_callback 0 onEffectError; call_init 1]
          (fresh_site [(el280, defaults); (el2000, defaults)]) = Some s /\
    map holds_flag (instances s) = [true; true].
Proof.
  match eval vm_compute in
        (steps [call_init 0; call_init 1; run_callback 0 onLoad;
                run_callback 0 onEffectError; call_init 1]
               (fresh_site [(el280, defaults); (el2000, defaults)])) with
  | Some ?s0 => exists s0
  end.
  split; vm_compute; reflexivity.
Qed.

(** *** Sizes *)

Lemma sizes_kept_fire (p : Plugin) (c : callback) (w w' : World) :
  sizes_kept p w -> fire c w = Some w' -> sizes_kept p w'.
Proof.
  intros (G & Sw & Sh & Br & Th & T) F. unfold sizes_kept.
  fire_cases F.
  1-6: cbn; repeat split; try assumption;
       rewrite ?Forall_app; repeat split; try assumption;
       repeat constructor.
  cbn [body]. cbn [load_handler set_loading emit].
  destruct (load_handler w) as [op|].
  - destruct (scratch_onload_cases op
                (set_loading n (emit [Fired scratch_load] w)))
      as [[-> ->] | [[-> ->] | (N1 & N2 & ->)]];
      cbn; repeat split; try assumption;
      rewrite ?Forall_app; repeat split; try assumption;
      repeat constructor; cbn; auto.
  - cbn; repeat split; try assumption.
    rewrite Forall_app. split; [assumption | repeat constructor].
Qed.

(** X16: the sizes derived by [init] are fixed for the run: the grid
    size, stage dimensions, brick ratio and thresholds of the instance
    never change, not even when an image load error resets the element to
    34 by 34, and every fill and every grid of the trace uses them. *)
Theorem sizes_fixed_at_init
    (el : Element) (st : Settings) (flag : option bool)
    (w0 : World) (cs : list callback) (w : World) :
  init el st flag = Started w0 ->
  run cs w0 = Some w ->
  gridSize (self w) = gridSize (self w0) /\
  stageWidth (self w) = stageWidth (self w0) /\
  stageHeight (self w) = stageHeight (self w0) /\
  brickRatio (self w) = brickRatio (self w0) /\
  thresholds (self w) = thresholds (self w0) /\
  Forall (uses_sizes (self w0)) (trace w).
Proof.
  intros Hi Hr.
  apply (run_invariant (sizes_kept (self w0)) (sizes_kept_fire (self w0)) cs w0 w);
    [|exact Hr].
  destruct (init_started _ _ _ _ Hi)
    as (_ & _ & _ & _ & _ & _ & _ & _ & _ & _ & _ & Ht).
  unfold sizes_kept. rewrite Ht. repeat split. repeat constructor.
Qed.

Lemma sizes_fixed_at_init_witness :
  exists w0 w,
    init el301 defaults None = Started w0 /\
    run (onLoadError :: complete_run) w0 = Some w /\
    width (element (self w)) = 34%Z /\
    stageWidth (self w) = Some 300 /\
    Forall (uses_sizes (self w0)) (trace w).
Proof.
  match eval vm_compute in (init el301 defaults None) with
  | Started ?w0 =>
      match eval vm_compute in (run (onLoadError :: complete_run) w0) with
      | Some ?w =>
          exists w0, w;
          assert (I : init el301 defaults None = Started w0)
            by (vm_compute; reflexivity);
          assert (R : run (onLoadError :: complete_run) w0 = Some w)
            by (vm_compute; reflexivity);
          split; [exact I|]; split; [exact R|];
          split; [reflexivity|]; split; [reflexivity|];
          exact (proj2 (proj2 (proj2 (proj2 (proj2
                   (sizes_fixed_at_init el301 defaults None w0 _ w I R))))))
      end
  end.
Defined.

(** ** The jQuery entry point *)

Lemma data_cons_same (node : nat) (o : init_outcome) (b : option bool)
    (l : list (nat * init_outcome)) :
  data node {| busy := b; plugin_data := (node, o) :: l |} = Some o.
Proof. unfold data. cbn. now rewrite Nat.eqb_refl. Qed.

Lemma data_cons_other (node m : nat) (o : init_outcome) (b b' : option bool)
    (l : list (nat * init_outcome)) :
  m <> node ->
  data m {| busy := b; plugin_data := (node, o) :: l |}
    = data m {| busy := b'; plugin_data := l |}.
Proof.
  intro H. unfold data. cbn.
  destruct (Nat.eqb_spec node m); [congruence | reflexivity].
Qed.

Lemma new_Plugin_busy (el : Element) (options : Options) (flag : option bool) :
  truthy flag = true -> new_Plugin el options flag = Deferred.
Proof. intro H. unfold new_Plugin, init. now rewrite H. Qed.

Lemma new_Plugin_idle (el : Element) (options : Options) (flag : option bool) :
  truthy flag = false ->
  s_thresholds (extend defaults options) <> [] ->
  exists w, new_Plugin el options flag = Started w /\ processing w = Some true.
Proof.
  intros Hf Hn. unfold new_Plugin, init. rewrite Hf.
  destruct (_getGridSize _ _ _) as [g|] eqn:G.
  - eexists. split; reflexivity.
  - apply getGridSize_throws_iff_empty_aux in G. contradiction.
Qed.

(** On a busy page every node without a plugin gets a deferred one. *)
Lemma brickify_busy (nodes : list (nat * Element)) (options : Options) (pg : Page) :
  truthy (busy pg) = true ->
  exists pg',
    brickify nodes options pg = Returned pg' /\
    busy pg' = busy pg /\
    (forall m, data m pg = None -> In m (map fst nodes) -> data m pg' = Some Deferred) /\
    (forall m, data m pg <> None \/ ~ In m (map fst nodes) -> data m pg' = data m pg).
Proof.
  revert pg. induction nodes as [|[node el] rest IH]; intros pg Hb.
  - exists pg. split; [reflexivity|]. split; [reflexivity|].
    split; [intros m _ [] | intros; reflexivity].
  - cbn [brickify]. destruct (data node pg) as [o|] eqn:D.
    + destruct (IH pg Hb) as (pg' & E & B & Hd & Hk).
      exists pg'. split; [exact E|]. split; [exact B|]. split.
      * intros m Hm [<-|Hin]; [cbn in Hm; congruence|]. now apply Hd.
      * intros m [Hm|Hm]; apply Hk; [now left|].
        right. intro Hin. apply Hm. now right.
    + rewrite (new_Plugin_busy el options (busy pg) Hb). cbn [flag_after].
      set (pg1 := {| busy := busy pg; plugin_data := (node, Deferred) :: plugin_data pg |}).
      destruct (IH pg1 Hb) as (pg' & E & B & Hd & Hk).
      exists pg'. split; [exact E|]. split; [exact B|].
      assert (Same : data node pg1 = Some Deferred) by apply data_cons_same.
      assert (Other : forall m, m <> node -> data m pg1 = data m pg).
      { intros m Hm. unfold pg1. rewrite (data_cons_other node m _ _ (busy pg)) by exact Hm.
        now destruct pg. }
      split.
      * intros m Hm Hin.
        destruct (Nat.eq_dec m node) as [->|Hne].
        -- rewrite Hk; [exact Same|]. left. rewrite Same. discriminate.
        -- destruct Hin as [Heq|Hin]; [cbn in Heq; congruence|].
           apply Hd; [|exact Hin]. now rewrite Other.
      * intros m Hm.
        assert (Hne : m <> node).
        { intros ->. destruct Hm as [Hm|Hm]; [congruence|]. apply Hm. now left. }
        rewrite <- (Other m Hne). apply Hk.
        destruct Hm as [Hm|Hm]; [left; now rewrite Other|].
        right. intro Hin. apply Hm. now right.
Qed.

(** X17: on an idle page, with a non-empty threshold array,
    [$.fn.brickify] on nodes that have no plugin yet starts the run of the
    first node only: every other node gets a plugin whose [init] is
    deferred, and the page is left busy. *)
Theorem brickify_starts_first_only
    (node : nat) (el : Element) (rest : list (nat * Element))
    (options : Options) (pg : Page) :
  truthy (busy pg) = false ->
  s_thresholds (extend defaults options) <> [] ->
  (forall m, In m (node :: map fst rest) -> data m pg = None) ->
  exists pg' w,
    brickify ((node, el) :: rest) options pg = Returned pg' /\
    data node pg' = Some (Started w) /\
    new_Plugin el options (busy pg) = Started w /\
    (forall m, In m (map fst rest) -> m <> node -> data m pg' = Some Deferred) /\
    busy pg' = Some true.
Proof.
  intros Hf Hn Hd. cbn [brickify].
  rewrite (Hd node) by now left.
  destruct (new_Plugin_idle el options (busy pg) Hf Hn) as (w & E & P).
  rewrite E. cbn [flag_after]. rewrite P.
  set (pg1 := {| busy := Some true; plugin_data := (node, Started w) :: plugin_data pg |}).
  destruct (brickify_busy rest options pg1 eq_refl) as (pg' & R & B & D1 & D2).
  exists pg', w. split; [exact R|].
  assert (Same : data node pg1 = Some (Started w)) by apply data_cons_same.
  split; [|split; [reflexivity|split; [|exact B]]].
  - rewrite D2; [exact Same|]. left. rewrite Same. discriminate.
  - intros m Hin Hne. apply D1; [|exact Hin].
    unfold pg1. rewrite (data_cons_other node m _ _ (busy pg)) by exact Hne.
    replace {| busy := busy pg; plugin_data := plugin_data pg |} with pg
      by now destruct pg.
    apply Hd. now right.
Qed.


Lemma brickify_starts_first_only_witness :
  exists pg' w,
    brickify [(1%nat, el280); (2%nat, el2000)] no_options idle_page = Returned pg' /\
    data 1 pg' = Some (Started w) /\
    data 2 pg' = Some Deferred /\
    busy pg' = Some true.
Proof.
  destruct (brickify_starts_first_only 1 el280 [(2%nat, el2000)] no_options idle_page)
    as (pg' & w & R & D1 & _ & D2 & B).
  - reflexivity.
  - discriminate.
  - intros m _. reflexivity.
  - exists pg', w. split; [exact R|]. split; [exact D1|].
    split; [|exact B]. apply D2; [now left | discriminate].
Defined.

(** After the loop has returned every node of the set has a plugin, and
    plugins once stored stay. *)
Lemma brickify_stores (nodes : list (nat * Element)) (options : Options) (pg pg' : Page) :
  brickify nodes options pg = Returned pg' ->
  (forall m, In m (map fst nodes) -> data m pg' <> None) /\
  (forall m, data m pg <> None -> data m pg' = data m pg).
Proof.
  revert pg. induction nodes as [|[node el] rest IH]; intros pg R.
  - injection R as <-. split; [intros m [] | intros; reflexivity].
  - cbn [brickify] in R. destruct (data node pg) as [o|] eqn:D.
    + destruct (IH pg R) as [S K]. split; [|exact K].
      intros m [<-|Hin]; [|now apply S].
      cbn [fst]. rewrite K; rewrite D; discriminate.
    + set (o := new_Plugin el options (busy pg)) in R.
      assert (Step : exists b,
                 brickify rest options {| busy := b; plugin_data := (node, o) :: plugin_data pg |}
                 = Returned pg').
      { destruct o; try discriminate R; eexists; exact R. }
      destruct Step as (b & R').
      destruct (IH _ R') as [S K].
      assert (Same : data node {| busy := b; plugin_data := (node, o) :: plugin_data pg |} = Some o)
        by apply data_cons_same.
      split.
      * intros m [<-|Hin]; [|now apply S].
        cbn [fst]. rewrite K; rewrite Same; discriminate.
      * intros m Hm.
        assert (Hne : m <> node) by (intros ->; congruence).
        assert (O : data m {| busy := b; plugin_data := (node, o) :: plugin_data pg |} = data m pg).
        { rewrite (data_cons_other node m _ _ (busy pg)) by exact Hne. now destruct pg. }
        rewrite <- O. apply K. now rewrite O.
Qed.

Lemma brickify_all_stored (nodes : list (nat * Element)) (options : Options) (pg : Page) :
  (forall m, In m (map fst nodes) -> data m pg <> None) ->
  brickify nodes options pg = Returned pg.
Proof.
  induction nodes as [|[node el] rest IH]; intro H; [reflexivity|].
  cbn [brickify]. destruct (data node pg) eqn:D.
  - apply IH. intros m Hin. apply H. now right.
  - exfalso. apply (H node); [now left | exact D].
Qed.

(** X18: [$.fn.brickify] is idempotent: once it has returned, calling it
    again on the same nodes, with whatever options, constructs nothing
    and leaves the page as it is; a node keeps its first plugin, deferred
    or not. *)
Theorem brickify_idempotent
    (nodes : list (nat * Element)) (options options' : Options) (pg pg' : Page) :
  brickify nodes options pg = Returned pg' ->
  brickify nodes options' pg' = Returned pg'.
Proof.
  intro R. apply brickify_all_stored.
  exact (proj1 (brickify_stores nodes options pg pg' R)).
Qed.

Lemma brickify_idempotent_witness :
  exists pg',
    brickify [(1%nat, el280); (2%nat, el2000)] no_options idle_page = Returned pg' /\
    brickify [(1%nat, el280); (2%nat, el2000)]
      {| o_originalBricksize := Some 50; o_ratio := None; o_thresholds := None |} pg'
      = Returned pg'.
Proof.
  match eval vm_compute in
        (brickify [(1%nat, el280); (2%nat, el2000)] no_options idle_page) with
  | Returned ?p =>
      exists p;
      assert (R : brickify [(1%nat, el280); (2%nat, el2000)] no_options idle_page
                  = Returned p) by (vm_compute; reflexivity);
      split; [exact R|];
      exact (brickify_idempotent _ no_options _ idle_page p R)
  end.
Defined.

(** X19: an empty [thresholds] option on an idle page makes the first
    constructor throw: the loop stops there, nothing is stored, and the
    flag, set before [_getGridSize] ran, stays set, so that every later
    plugin is deferred. *)
Theorem brickify_empty_thresholds
    (node : nat) (el : Element) (rest : list (nat * Element))
    (options : Options) (pg : Page) (el' : Element) (options' : Options) :
  truthy (busy pg) = false ->
  s_thresholds (extend defaults options) = [] ->
  data node pg = None ->
  exists pg',
    brickify ((node, el) :: rest) options pg = Raised pg' /\
    plugin_data pg' = plugin_data pg /\
    busy pg' = Some true /\
    new_Plugin el' options' (busy pg') = Deferred.
Proof.
  intros Hf He Hd. cbn [brickify]. rewrite Hd.
  unfold new_Plugin at 1. unfold init. rewrite Hf, He.
  cbn. eexists. repeat split.
Qed.

Lemma brickify_empty_thresholds_witness :
  exists pg',
    brickify [(1%nat, el280); (2%nat, el2000)]
      {| o_originalBricksize := None; o_ratio := None; o_thresholds := Some [] |}
      idle_page = Raised pg' /\
    plugin_data pg' = [] /\
    busy pg' = Some true /\
    new_Plugin el2000 no_options (busy pg') = Deferred.
Proof.
  exact (brickify_empty_thresholds 1 el280 [(2%nat, el2000)]
           {| o_originalBricksize := None; o_ratio := None; o_thresholds := Some [] |}
           idle_page el2000 no_options eq_refl eq_refl eq_refl).
Defined.

(** ** Threshold order *)

Lemma find_first_fit (w : Z) (ths : list Threshold) (th : Threshold) :
  StronglySorted (fun a b => maxImageWidth a <= maxImageWidth b) ths ->
  find (fun t => Qle_bool (inject_Z w) (maxImageWidth t)) ths = Some th ->
  In th ths /\
  inject_Z w <= maxImageWidth th /\
  forall t, In t ths -> inject_Z w <= maxImageWidth t ->
            maxImageWidth th <= maxImageWidth t.
Proof.
  induction ths as [|a ths IH]; intros S F; [discriminate F|].
  apply StronglySorted_inv in S. destruct S as [S A].
  cbn [find] in F.
  destruct (Qle_bool (inject_Z w) (maxImageWidth a)) eqn:B.
  - injection F as <-. apply Qle_bool_iff in B.
    split; [now left|]. split; [exact B|].
    intros t [<-|Hin] _; [apply Qle_refl|].
    rewrite Forall_forall in A. now apply A.
  - destruct (IH S F) as (I1 & I2 & I3).
    split; [now right|]. split; [exact I2|].
    intros t [<-|Hin] Ht; [|now apply I3].
    apply Qle_bool_iff in Ht. congruence.
Qed.

(** X20: when the thresholds are in ascending order of [maxImageWidth]
    and the image fits one of them, the threshold selected is the
    tightest fit: it admits the width, and no threshold that admits the
    width has a smaller [maxImageWidth]. *)
Theorem selected_is_tightest_when_sorted
    (w : Z) (ths : list Threshold) (t0 : Threshold) :
  StronglySorted (fun a b => maxImageWidth a <= maxImageWidth b) ths ->
  In t0 ths -> inject_Z w <= maxImageWidth t0 ->
  exists th,
    selected_threshold w ths = Some th /\
    In th ths /\
    inject_Z w <= maxImageWidth th /\
    forall t, In t ths -> inject_Z w <= maxImageWidth t ->
              maxImageWidth th <= maxImageWidth t.
Proof.
  intros S I0 F0.
  rewrite selected_threshold_spec. unfold spec_select.
  destruct (find _ ths) as [th|] eqn:F.
  - exists th. split; [reflexivity|]. exact (find_first_fit w ths th S F).
  - exfalso. apply (find_none _ _ F) in I0.
    apply Qle_bool_iff in F0. congruence.
Qed.

Lemma selected_is_tightest_when_sorted_witness :
  exists th,
    selected_threshold 1000 (s_thresholds defaults) = Some th /\
    In th (s_thresholds defaults) /\
    1000 <= maxImageWidth th /\
    forall t, In t (s_thresholds defaults) -> 1000 <= maxImageWidth t ->
              maxImageWidth th <= maxImageWidth t.
Proof.
  apply (selected_is_tightest_when_sorted 1000 (s_thresholds defaults) th3).
  - repeat constructor; apply Qle_bool_iff; reflexivity.
  - right. right. now left.
  - apply Qle_bool_iff. reflexivity.
Defined.

(** Out of order, the first fit wins over a tighter one that follows. *)
Example selected_first_fit_unsorted :
  selected_threshold 100 [th2; th1] = Some th2.
Proof. reflexivity. Qed.
